(** * Verification of the token codec and chunk splitter

    A shallow embedding of [src/tokenizer/tokenizer.py]: the [Encoding]
    class (encode / decode / offsets / batch) and [split_text_into_chunks].

    Python values are modelled as follows.
    - [str] is a list of code points ([Z], each in [0, 0x10FFFF]); a [str]
      may hold surrogate code points, which UTF-8 cannot represent.
    - [bytes] is a list of [Z], each in [0, 255].
    - [dict] is a [gmap], [set]/[frozenset] a [gset].
    - an exception is a value of [exn]; a call that may raise returns
      [result].
    - the calls made into the native merge engine are recorded in a log, so
      that "before any tokenization work" and "retries once" can be stated. *)

From stdpp Require Import gmap strings list fin_maps pretty.

Local Open Scope Z_scope.

(** ** Exceptions and results *)

Inductive exn : Type :=
  | UnicodeEncodeError                       (* str with a surrogate handed to the engine *)
  | UnicodeDecodeError                       (* bytes.decode("utf-8", "strict") *)
  | DisallowedSpecialToken (token : list Z)  (* ValueError of raise_disallowed_special_token *)
  | ValueError_max_empty                     (* max() of an empty sequence *)
  | ValueError_range_step                    (* range() with step 0 *)
  | ValueError_max_workers                   (* ThreadPoolExecutor(n) with n <= 0 *)
  | ValueError_embedded_null                 (* open() on a name with a NUL *)
  | TypeError_unhashable                     (* hash() of a set *)
  | AssertionError
  | KeyError_token (token : Z)               (* engine: token id without byte value *)
  | KeyError_str (key : list Z)              (* dict[str] lookup *)
  | IndexError                               (* b""[0] *)
  | EnginePanic.                             (* engine: byte group without a rank *)

Inductive result (A : Type) : Type :=
  | Ok (a : A)
  | Raise (e : exn).
Arguments Ok {A} a.
Arguments Raise {A} e.

Definition rbind {A B} (r : result A) (k : A → result B) : result B :=
  match r with Ok a => k a | Raise e => Raise e end.

Definition rmap {A B} (f : A → B) (r : result A) : result B :=
  rbind r (λ a, Ok (f a)).

Notation "x ←! r ; k" := (rbind r (λ x, k))
  (at level 20, r at level 100, k at level 200, right associativity,
   format "x  ←!  r ;  '/' k").

(** [[f(x) for x in xs]] where [f] may raise: the first exception wins. *)
Fixpoint rmapM {A B} (f : A → result B) (xs : list A) : result (list B) :=
  match xs with
  | [] => Ok []
  | x :: xs' => y ←! f x; ys ←! rmapM f xs'; Ok (y :: ys)
  end.

(** ** Text: code points, UTF-8 and UTF-16 *)

(** An ASCII literal as a Python [str] / [bytes] value. *)
Definition py (s : string) : list Z :=
  (λ a, Z.of_N (Ascii.N_of_ascii a)) <$> String.list_ascii_of_string s.

Definition is_code_point (c : Z) : bool := (0 <=? c) && (c <=? 0x10FFFF).
Definition is_surrogate (c : Z) : bool := (0xD800 <=? c) && (c <=? 0xDFFF).
Definition is_high_surrogate (c : Z) : bool := (0xD800 <=? c) && (c <=? 0xDBFF).
Definition is_low_surrogate (c : Z) : bool := (0xDC00 <=? c) && (c <=? 0xDFFF).

(** A Unicode scalar value: a code point that is not a surrogate. *)
Definition is_scalar (c : Z) : bool := is_code_point c && negb (is_surrogate c).

Definition is_str (text : list Z) : bool := forallb is_code_point text.
Definition has_surrogate (text : list Z) : bool := existsb is_surrogate text.

(** [0x80 <= c < 0xC0], the test the source writes twice in
    [decode_with_offsets]. *)
Definition is_continuation (b : Z) : bool := (0x80 <=? b) && (b <? 0xC0).

(** UTF-8 encoding of one code point; [None] for a surrogate. *)
Definition utf8_encode_char (c : Z) : option (list Z) :=
  if c <? 0x80 then Some [c]
  else if c <? 0x800 then Some [0xC0 + c / 64; 0x80 + c mod 64]
  else if is_surrogate c then None
  else if c <? 0x10000 then
    Some [0xE0 + c / 4096; 0x80 + (c / 64) mod 64; 0x80 + c mod 64]
  else
    Some [0xF0 + c / 262144; 0x80 + (c / 4096) mod 64;
          0x80 + (c / 64) mod 64; 0x80 + c mod 64].

(** [text.encode("utf-8")]: raises [UnicodeEncodeError] on a surrogate. *)
Fixpoint str_encode_utf8 (text : list Z) : result (list Z) :=
  match text with
  | [] => Ok []
  | c :: rest =>
    match utf8_encode_char c with
    | None => Raise UnicodeEncodeError
    | Some bs => tl ←! str_encode_utf8 rest; Ok (bs ++ tl)
    end
  end.

(** One step of the UTF-8 decoder at the head of [bs]: a decoded code point
    and the number of bytes it took, or a malformed sequence and the number
    of bytes the error covers, or a sequence cut short by the end of data. *)
Inductive utf8_step : Type :=
  | Char (c : Z) (n : nat)
  | Invalid (n : nat)
  | Truncated.

Definition utf8_decode_step (bs : list Z) : utf8_step :=
  match bs with
  | [] => Truncated
  | b0 :: rest =>
    if b0 <? 0x80 then Char b0 1
    else if b0 <? 0xC2 then Invalid 1
    else if b0 <? 0xE0 then
      match rest with
      | [] => Truncated
      | b1 :: _ =>
        if is_continuation b1
        then Char ((b0 - 0xC0) * 64 + (b1 - 0x80)) 2
        else Invalid 1
      end
    else if b0 <? 0xF0 then
      match rest with
      | [] => Truncated
      | b1 :: rest1 =>
        if negb (is_continuation b1)
           || (if b1 <? 0xA0 then b0 =? 0xE0 else b0 =? 0xED)
        then Invalid 1
        else
          match rest1 with
          | [] => Truncated
          | b2 :: _ =>
            if is_continuation b2
            then Char ((b0 - 0xE0) * 4096 + (b1 - 0x80) * 64 + (b2 - 0x80)) 3
            else Invalid 2
          end
      end
    else if b0 <? 0xF5 then
      match rest with
      | [] => Truncated
      | b1 :: rest1 =>
        if negb (is_continuation b1)
           || (if b1 <? 0x90 then b0 =? 0xF0 else b0 =? 0xF4)
        then Invalid 1
        else
          match rest1 with
          | [] => Truncated
          | b2 :: rest2 =>
            if negb (is_continuation b2) then Invalid 2
            else
              match rest2 with
              | [] => Truncated
              | b3 :: _ =>
                if is_continuation b3
                then Char ((b0 - 0xF0) * 262144 + (b1 - 0x80) * 4096
                           + (b2 - 0x80) * 64 + (b3 - 0x80)) 4
                else Invalid 3
              end
          end
      end
    else Invalid 1
  end.

(** The [errors] argument of [bytes.decode]. *)
Inductive errors_policy : Type := Strict | Replace.

Definition REPLACEMENT : Z := 0xFFFD.

(** Every step consumes at least one byte, so [length bs] steps suffice. *)
Fixpoint utf8_decode_loop (fuel : nat) (errors : errors_policy) (bs : list Z)
  : result (list Z) :=
  match fuel, bs with
  | _, [] => Ok []
  | O, _ :: _ => Ok []
  | S fuel', _ :: _ =>
    match utf8_decode_step bs with
    | Char c n =>
      tl ←! utf8_decode_loop fuel' errors (drop n bs); Ok (c :: tl)
    | Invalid n =>
      match errors with
      | Strict => Raise UnicodeDecodeError
      | Replace =>
        tl ←! utf8_decode_loop fuel' errors (drop n bs); Ok (REPLACEMENT :: tl)
      end
    | Truncated =>
      match errors with
      | Strict => Raise UnicodeDecodeError
      | Replace => Ok [REPLACEMENT]
      end
    end
  end.

(** [bs.decode("utf-8", errors=errors)] *)
Definition bytes_decode_utf8 (errors : errors_policy) (bs : list Z)
  : result (list Z) :=
  utf8_decode_loop (length bs) errors bs.

(** [text.encode("utf-16", "surrogatepass")], as 16-bit code units after
    the byte-order mark: surrogates pass through unchanged. *)
Definition BOM : Z := 0xFEFF.

Definition utf16_encode_char (c : Z) : list Z :=
  if c <? 0x10000 then [c]
  else [0xD800 + (c - 0x10000) / 1024; 0xDC00 + (c - 0x10000) mod 1024].

Definition str_encode_utf16_surrogatepass (text : list Z) : list Z :=
  BOM :: concat (utf16_encode_char <$> text).

(** The UTF-16 decoder with [errors="replace"] on code units: a high
    surrogate followed by a low one is a pair; a high surrogate followed by
    anything else, or by nothing, and a low surrogate on its own are each
    replaced by U+FFFD, the decoder resuming at the next unit. *)
Fixpoint utf16_decode_units (us : list Z) : list Z :=
  match us with
  | [] => []
  | u :: rest =>
    if negb (is_surrogate u) then u :: utf16_decode_units rest
    else if negb (is_high_surrogate u) then REPLACEMENT :: utf16_decode_units rest
    else
      match rest with
      | [] => [REPLACEMENT]
      | u2 :: rest2 =>
        if is_low_surrogate u2
        then (0x10000 + (u - 0xD800) * 1024 + (u2 - 0xDC00))
               :: utf16_decode_units rest2
        else REPLACEMENT :: utf16_decode_units rest
      end
  end.

(** [units.decode("utf-16", "replace")]: the byte-order mark is consumed.
    The encoder above always writes the mark in native order; a reversed
    mark, which would switch the byte order, is not modelled. *)
Definition units_decode_utf16_replace (us : list Z) : list Z :=
  match us with
  | u :: rest => if u =? BOM then utf16_decode_units rest else utf16_decode_units us
  | [] => []
  end.

(** [text.encode("utf-16", "surrogatepass").decode("utf-16", "replace")] *)
Definition surrogate_fallback (text : list Z) : list Z :=
  units_decode_utf16_replace (str_encode_utf16_surrogatepass text).

(** ** The byte-pair merge engine ([_tiktoken.CoreBPE])

    The engine is a native component outside the repository; it is modelled
    from the contract of spec sections 4.1 and 4.2. *)

(** Modelled from the spec: the native engine object. [encoder] is the rank
    table, [special_tokens_encoder] the special-token table. [pat] stands
    for the compiled split pattern: on a text it gives the spans
    (start, length) of the successive pieces the pattern matches.
    [unstable_completions] stands for the native candidate enumeration of
    [encode_with_unstable], about which the spec says nothing. *)
Record CoreBPE : Type := {
  encoder : gmap (list Z) Z;
  special_tokens_encoder : gmap (list Z) Z;
  pat : list Z → list (nat * nat);
  unstable_completions : list Z → gset (list Z) → list Z * list (list Z);
}.

(** The pieces of a text under the split pattern. *)
Definition pieces (bpe : CoreBPE) (text : list Z) : list (list Z) :=
  (λ span, take span.2 (drop span.1 text)) <$> pat bpe text.

(** Modelled from the spec: "find the adjacent byte-group pair with the
    numerically lowest rank among all pairs whose concatenation also appears
    in the rank table". Returns the rank and the index of the left group;
    the leftmost pair wins among equal ranks. *)
Fixpoint min_rank_pair (ranks : gmap (list Z) Z) (parts : list (list Z)) (i : nat)
  : option (Z * nat) :=
  match parts with
  | a :: (b :: _) as rest =>
    let later := min_rank_pair ranks rest (S i) in
    match ranks !! (a ++ b) with
    | Some r =>
      match later with
      | Some (r', j) => if r' <? r then Some (r', j) else Some (r, i)
      | None => Some (r, i)
      end
    | None => later
    end
  | _ => None
  end.

(** Modelled from the spec: "merge that pair into a single group". *)
Fixpoint merge_at (i : nat) (parts : list (list Z)) {struct parts}
  : list (list Z) :=
  match parts with
  | a :: (b :: tl) as rest =>
    match i with
    | O => (a ++ b) :: tl
    | S i' => a :: merge_at i' rest
    end
  | _ => parts
  end.

(** Modelled from the spec: "repeat until no adjacent pair's concatenation
    is in the table". Each merge removes one group, so [length parts]
    rounds are enough. *)
Fixpoint byte_pair_merge (fuel : nat) (ranks : gmap (list Z) Z)
  (parts : list (list Z)) : list (list Z) :=
  match fuel with
  | O => parts
  | S fuel' =>
    match min_rank_pair ranks parts 0 with
    | Some (_, i) => byte_pair_merge fuel' ranks (merge_at i parts)
    | None => parts
    end
  end.

Definition rank_of (ranks : gmap (list Z) Z) (group : list Z) : result Z :=
  match ranks !! group with
  | Some r => Ok r
  | None => Raise EnginePanic
  end.

(** Modelled from the spec: the ordinary tokens of one piece: "the final
    sequence of byte groups is mapped, group by group, to their integer
    ranks". *)
Definition byte_pair_encode (ranks : gmap (list Z) Z) (piece : list Z)
  : result (list Z) :=
  rmapM (rank_of ranks)
        (byte_pair_merge (length piece) ranks ((λ b, [b]) <$> piece)).

(** Modelled from the spec: the engine on a text free of surrogates: split
    by the pattern, merge each piece on its own, concatenate in piece
    order. *)
Definition encode_ordinary_native (bpe : CoreBPE) (text : list Z)
  : result (list Z) :=
  rmap (concat (A:=Z))
       (rmapM (λ piece, bs ←! str_encode_utf8 piece;
                        byte_pair_encode (encoder bpe) bs)
              (pieces bpe text)).

(** Literal search. [is_prefix t text]: [text] starts with [t]. *)
Fixpoint is_prefix (t text : list Z) : bool :=
  match t, text with
  | [], _ => true
  | _ :: _, [] => false
  | a :: t', b :: text' => (a =? b) && is_prefix t' text'
  end.

(** A text cut at the occurrences of special-token literals. *)
Inductive segment : Type :=
  | Ordinary (s : list Z)
  | Special (literal : list Z).

(** Modelled from the spec: "recognize occurrences of allowed special tokens
    as atomic tokens ... preserving the original left-to-right
    interleaving". The text is read left to right; [acc] is the ordinary
    text read since the last literal and [skip] the number of characters of
    the current literal still to pass. The empty literal is not looked for:
    no position of the text can be attributed to it. *)
Fixpoint special_segments (allowed : list (list Z)) (skip : nat) (acc : list Z)
  (text : list Z) : list segment :=
  match text with
  | [] => [Ordinary acc]
  | c :: rest =>
    match skip with
    | S k => special_segments allowed k acc rest
    | O =>
      match find (λ t, negb (bool_decide (t = [])) && is_prefix t text) allowed with
      | Some t =>
        Ordinary acc :: Special t
          :: special_segments allowed (length t - 1)%nat [] rest
      | None => special_segments allowed O (acc ++ [c]) rest
      end
    end
  end.

Definition encode_segment (bpe : CoreBPE) (seg : segment) : result (list Z) :=
  match seg with
  | Ordinary s => encode_ordinary_native bpe s
  | Special t =>
    match special_tokens_encoder bpe !! t with
    | Some id => Ok [id]
    | None => Raise EnginePanic
    end
  end.

(** Modelled from the spec: the engine's [encode_with_special_allowance]:
    only literals that are both allowed and special tokens are
    recognised. *)
Definition encode_native (bpe : CoreBPE) (text : list Z)
  (allowed_special : gset (list Z)) : result (list Z) :=
  rmap (concat (A:=Z))
       (rmapM (encode_segment bpe)
              (special_segments
                 (elements (allowed_special ∩ dom (special_tokens_encoder bpe)))
                 O [] text)).

(** Modelled from the spec: the methods of the engine as Python sees them.
    A [str] argument that holds a surrogate "cannot be represented as valid
    UTF-8": it cannot be handed over, and the call raises
    [UnicodeEncodeError], the exception the source catches. *)
Definition CoreBPE_encode_ordinary (bpe : CoreBPE) (text : list Z)
  : result (list Z) :=
  if has_surrogate text then Raise UnicodeEncodeError
  else encode_ordinary_native bpe text.

Definition CoreBPE_encode (bpe : CoreBPE) (text : list Z)
  (allowed_special : gset (list Z)) : result (list Z) :=
  if has_surrogate text then Raise UnicodeEncodeError
  else encode_native bpe text allowed_special.

Definition CoreBPE_encode_with_unstable (bpe : CoreBPE) (text : list Z)
  (allowed_special : gset (list Z)) : result (list Z * list (list Z)) :=
  if has_surrogate text then Raise UnicodeEncodeError
  else Ok (unstable_completions bpe text allowed_special).

(** Modelled from the spec: token id to bytes. "Ordinary tokens map to a
    byte sequence via the inverse of [mergeable_ranks]; special tokens map
    to their literal string, encoded as UTF-8 bytes"; an id without a
    mapping is an error. *)
Definition decoder (bpe : CoreBPE) : gmap Z (list Z) :=
  list_to_map (prod_swap <$> map_to_list (encoder bpe)).

Definition special_entry (kv : list Z * Z) : option (Z * list Z) :=
  match str_encode_utf8 kv.1 with
  | Ok bs => Some (kv.2, bs)
  | Raise _ => None
  end.

Definition special_tokens_decoder (bpe : CoreBPE) : gmap Z (list Z) :=
  list_to_map (omap special_entry (map_to_list (special_tokens_encoder bpe))).

Definition CoreBPE_decode_single_token_bytes (bpe : CoreBPE) (token : Z)
  : result (list Z) :=
  match decoder bpe !! token with
  | Some bs => Ok bs
  | None =>
    match special_tokens_decoder bpe !! token with
    | Some bs => Ok bs
    | None => Raise (KeyError_token token)
    end
  end.

Definition CoreBPE_decode_bytes (bpe : CoreBPE) (tokens : list Z)
  : result (list Z) :=
  rmap (concat (A:=Z)) (rmapM (CoreBPE_decode_single_token_bytes bpe) tokens).

(** ** Calls into the engine, with their log *)

Inductive core_call : Type :=
  | Call_encode_ordinary (text : list Z)
  | Call_encode (text : list Z) (allowed_special : gset (list Z))
  | Call_encode_with_unstable (text : list Z) (allowed_special : gset (list Z)).

(** A computation that may raise and that logs its engine calls. *)
Definition traced (A : Type) : Type := list core_call * result A.

Definition calls_of {A} (m : traced A) : list core_call := m.1.
Definition result_of {A} (m : traced A) : result A := m.2.

Definition tret {A} (a : A) : traced A := ([], Ok a).
Definition traise {A} (e : exn) : traced A := ([], Raise e).

Definition tbind {A B} (m : traced A) (k : A → traced B) : traced B :=
  match m.2 with
  | Ok a => (m.1 ++ (k a).1, (k a).2)
  | Raise e => (m.1, Raise e)
  end.

Notation "x ←@ m ; k" := (tbind m (λ x, k))
  (at level 20, m at level 100, k at level 200, right associativity,
   format "x  ←@  m ;  '/' k").

(** [try: m  except UnicodeEncodeError: handler] *)
Definition try_except_UnicodeEncodeError {A} (m handler : traced A) : traced A :=
  match m.2 with
  | Raise UnicodeEncodeError => (m.1 ++ handler.1, handler.2)
  | _ => m
  end.

Definition call {A} (c : core_call) (r : result A) : traced A := ([c], r).

(** ** The [Encoding] class *)

Record Encoding : Type := {
  name : string;
  _pat_str : list Z → list (nat * nat);
  _mergeable_ranks : gmap (list Z) Z;
  _special_tokens : gmap (list Z) Z;
  max_token_value : Z;
  _core_bpe : CoreBPE;
}.

(** [d.values()] *)
Definition values (d : gmap (list Z) Z) : list Z := (map_to_list d).*2.

(** [max(xs)] and [max(xs, default=d)] *)
Definition py_max (xs : list Z) : result Z :=
  match xs with
  | [] => Raise ValueError_max_empty
  | x :: tl => Ok (foldl Z.max x tl)
  end.

Definition py_max_default (xs : list Z) (default : Z) : Z :=
  match xs with
  | [] => default
  | x :: tl => foldl Z.max x tl
  end.

(** [assert c] *)
Definition py_assert (c : bool) : result unit :=
  if c then Ok tt else Raise AssertionError.

(** [Encoding.__init__]. [explicit_n_vocab] is [None] or an [int]; the
    source tests its truth value, which is false for [None] and for [0].
    [native] stands for what the engine builds besides the three tables. *)
Definition Encoding_init (name : string) (pat_str : list Z → list (nat * nat))
  (mergeable_ranks special_tokens : gmap (list Z) Z)
  (explicit_n_vocab : option Z)
  (native : list Z → gset (list Z) → list Z * list (list Z))
  : result Encoding :=
  max_rank ←! py_max (values mergeable_ranks);
  let max_token_value :=
    Z.max max_rank (py_max_default (values special_tokens) 0) in
  _ ←! (match explicit_n_vocab with
        | Some n =>
          if n =? 0 then Ok tt
          else
            _ ←! py_assert (Z.of_nat (size mergeable_ranks)
                            + Z.of_nat (size special_tokens) =? n);
            py_assert (max_token_value =? n - 1)
        | None => Ok tt
        end);
  Ok {| name := name;
        _pat_str := pat_str;
        _mergeable_ranks := mergeable_ranks;
        _special_tokens := special_tokens;
        max_token_value := max_token_value;
        _core_bpe := {| encoder := mergeable_ranks;
                        special_tokens_encoder := special_tokens;
                        pat := pat_str;
                        unstable_completions := native |} |}.

(** [special_tokens_set] *)
Definition special_tokens_set (enc : Encoding) : gset (list Z) :=
  dom (_special_tokens enc).

(** [eot_token]: the source reads the entry of the empty string. *)
Definition eot_token (enc : Encoding) : result Z :=
  match _special_tokens enc !! [] with
  | Some id => Ok id
  | None => Raise (KeyError_str [])
  end.

Definition n_vocab (enc : Encoding) : Z := max_token_value enc + 1.

(** [encode_ordinary] *)
Definition encode_ordinary (enc : Encoding) (text : list Z) : traced (list Z) :=
  try_except_UnicodeEncodeError
    (call (Call_encode_ordinary text)
          (CoreBPE_encode_ordinary (_core_bpe enc) text))
    (let text := surrogate_fallback text in
     call (Call_encode_ordinary text)
          (CoreBPE_encode_ordinary (_core_bpe enc) text)).

(** A Python collection of strings: a set, or a sequence that may repeat
    its elements. [truthy] is its truth value and [frozenset] its
    conversion to a set. *)
Inductive collection : Type :=
  | SetOf (s : gset (list Z))
  | ListOf (l : list (list Z)).

Definition truthy (c : collection) : bool :=
  match c with
  | SetOf s => negb (bool_decide (s = ∅))
  | ListOf l => negb (bool_decide (l = []))
  end.

Definition frozenset (c : collection) : gset (list Z) :=
  match c with
  | SetOf s => s
  | ListOf l => list_to_set l
  end.

(** The [allowed_special] argument: the string ["all"] or a set. *)
Inductive allowed_arg : Type :=
  | AllowAll
  | Allow (tokens : gset (list Z)).

(** The [disallowed_special] argument: the string ["all"] or a
    collection. *)
Inductive disallowed_arg : Type :=
  | DisallowAll
  | Disallow (tokens : collection).

(** [_special_token_regex(tokens).search(text)]: the pattern is the
    alternation of the escaped literals, so the match is the first literal,
    in the order of the alternation, that starts at the leftmost position
    where one of them does. *)
Fixpoint regex_search (tokens : list (list Z)) (text : list Z)
  : option (list Z) :=
  match find (λ t, is_prefix t text) tokens with
  | Some t => Some t
  | None =>
    match text with
    | [] => None
    | _ :: rest => regex_search tokens rest
    end
  end.

Definition _special_token_regex (tokens : gset (list Z)) (text : list Z)
  : option (list Z) :=
  regex_search (elements tokens) text.

Definition raise_disallowed_special_token {A} (token : list Z) : traced A :=
  traise (DisallowedSpecialToken token).

(** [if match := _special_token_regex(d).search(text):
       raise_disallowed_special_token(match.group())] *)
Definition scan_for_disallowed (d : gset (list Z)) (text : list Z)
  : traced unit :=
  match _special_token_regex d text with
  | Some m => raise_disallowed_special_token m
  | None => tret tt
  end.

(** [encode] *)
Definition encode (enc : Encoding) (text : list Z)
  (allowed_special : allowed_arg) (disallowed_special : disallowed_arg)
  : traced (list Z) :=
  let allowed_special :=
    match allowed_special with
    | AllowAll => special_tokens_set enc
    | Allow s => s
    end in
  let disallowed_special :=
    match disallowed_special with
    | DisallowAll => SetOf (special_tokens_set enc ∖ allowed_special)
    | Disallow c => c
    end in
  _ ←@ (if truthy disallowed_special
        then scan_for_disallowed (frozenset disallowed_special) text
        else tret tt);
  try_except_UnicodeEncodeError
    (call (Call_encode text allowed_special)
          (CoreBPE_encode (_core_bpe enc) text allowed_special))
    (let text := surrogate_fallback text in
     call (Call_encode text allowed_special)
          (CoreBPE_encode (_core_bpe enc) text allowed_special)).

(** The defaults of [encode]: [allowed_special=set()],
    [disallowed_special="all"]. *)
Definition encode_default (enc : Encoding) (text : list Z) : traced (list Z) :=
  encode enc text (Allow ∅) DisallowAll.

(** A set as Python holds it: a [set], which cannot be hashed, or a
    [frozenset], which can. [special_tokens_set] is a [set], and so is the
    difference of a [set] and anything. *)
Inductive set_value : Type :=
  | PlainSet (s : gset (list Z))
  | FrozenSet (s : gset (list Z)).

Definition members (v : set_value) : gset (list Z) :=
  match v with
  | PlainSet s => s
  | FrozenSet s => s
  end.

(** The scan when the set reaches [_special_token_regex] as it is:
    [functools.cache] hashes the argument before the body runs, which raises
    TypeError for a [set]. In [encode] the argument is always the result of
    [frozenset(...)]. *)
Definition scan_through_cache (d : set_value) (text : list Z) : traced unit :=
  match d with
  | PlainSet _ => traise TypeError_unhashable
  | FrozenSet s => scan_for_disallowed s text
  end.

(** [encode_with_unstable]: [disallowed_special="all"] is resolved to
    [self.special_tokens_set - allowed_special], a [set], and is not
    converted before the scan; a collection is converted by
    [frozenset(...)]. *)
Definition encode_with_unstable (enc : Encoding) (text : list Z)
  (allowed_special : allowed_arg) (disallowed_special : disallowed_arg)
  : traced (list Z * list (list Z)) :=
  let allowed_special :=
    match allowed_special with
    | AllowAll => special_tokens_set enc
    | Allow s => s
    end in
  let disallowed_special :=
    match disallowed_special with
    | DisallowAll => PlainSet (special_tokens_set enc ∖ allowed_special)
    | Disallow c => FrozenSet (frozenset c)
    end in
  _ ←@ (if truthy (SetOf (members disallowed_special))
        then scan_through_cache disallowed_special text
        else tret tt);
  call (Call_encode_with_unstable text allowed_special)
       (CoreBPE_encode_with_unstable (_core_bpe enc) text allowed_special).

(** [ThreadPoolExecutor(num_threads)] with [executor.map(f, xs)] turned
    into a list: the pool refuses a size below one; the results come in the
    order of [xs], and the first exception in that order is raised. Which
    thread runs which item does not appear in the result. *)
Definition executor_map {A B} (num_threads : Z) (f : A → result B) (xs : list A)
  : result (list B) :=
  if num_threads <=? 0 then Raise ValueError_max_workers
  else rmapM f xs.

(** [encode_batch]: the two arguments are resolved to sets once, and
    [encode] is called on each text with the resolved sets. *)
Definition encode_batch (enc : Encoding) (texts : list (list Z))
  (num_threads : Z) (allowed_special : allowed_arg)
  (disallowed_special : disallowed_arg) : result (list (list Z)) :=
  let allowed_special :=
    match allowed_special with
    | AllowAll => special_tokens_set enc
    | Allow s => s
    end in
  let disallowed_special :=
    match disallowed_special with
    | DisallowAll => special_tokens_set enc ∖ allowed_special
    | Disallow c => frozenset c
    end in
  executor_map num_threads
    (λ text, result_of (encode enc text (Allow allowed_special)
                               (Disallow (SetOf disallowed_special))))
    texts.

(** [decode_bytes], [decode], [decode_single_token_bytes],
    [decode_tokens_bytes] *)
Definition decode_bytes (enc : Encoding) (tokens : list Z) : result (list Z) :=
  CoreBPE_decode_bytes (_core_bpe enc) tokens.

Definition decode (enc : Encoding) (tokens : list Z) (errors : errors_policy)
  : result (list Z) :=
  bs ←! decode_bytes enc tokens; bytes_decode_utf8 errors bs.

Definition decode_single_token_bytes (enc : Encoding) (token : Z)
  : result (list Z) :=
  CoreBPE_decode_single_token_bytes (_core_bpe enc) token.

Definition decode_tokens_bytes (enc : Encoding) (tokens : list Z)
  : result (list (list Z)) :=
  rmapM (decode_single_token_bytes enc) tokens.

(** [sum(1 for c in token if not 0x80 <= c < 0xC0)] *)
Definition count_non_continuation (token : list Z) : Z :=
  Z.of_nat (length (filter (λ c, is_continuation c = false) token)).

(** The loop of [decode_with_offsets]: [token[0]] raises on empty bytes;
    the boolean [0x80 <= token[0] < 0xC0] is subtracted as 0 or 1. *)
Fixpoint offsets_loop (token_bytes : list (list Z)) (text_len : Z)
  (offsets : list Z) : result (list Z) :=
  match token_bytes with
  | [] => Ok offsets
  | token :: rest =>
    match token with
    | [] => Raise IndexError
    | b :: _ =>
      offsets_loop rest
        (text_len + count_non_continuation token)
        (offsets ++ [Z.max 0 (text_len - (if is_continuation b then 1 else 0))])
    end
  end.

(** [decode_with_offsets] *)
Definition decode_with_offsets (enc : Encoding) (tokens : list Z)
  : result (list Z * list Z) :=
  token_bytes ←! decode_tokens_bytes enc tokens;
  offsets ←! offsets_loop token_bytes 0 [];
  text ←! bytes_decode_utf8 Strict (concat token_bytes);
  Ok (text, offsets).

(** ** The chunk splitter *)

(** [range(start, stop, step)] as a list, for a positive step ... *)
Fixpoint range_up (fuel : nat) (i stop step : Z) : list Z :=
  match fuel with
  | O => []
  | S fuel' => if i <? stop then i :: range_up fuel' (i + step) stop step else []
  end.

(** ... and for a negative one. *)
Fixpoint range_down (fuel : nat) (i stop step : Z) : list Z :=
  match fuel with
  | O => []
  | S fuel' => if stop <? i then i :: range_down fuel' (i + step) stop step else []
  end.

Definition py_range (start stop step : Z) : result (list Z) :=
  if step =? 0 then Raise ValueError_range_step
  else if 0 <? step then Ok (range_up (Z.to_nat (stop - start)) start stop step)
  else Ok (range_down (Z.to_nat (start - stop)) start stop step).

(** [tokens[i:j]] for [0 <= i <= j], the only slices the splitter takes. *)
Definition slice (tokens : list Z) (i j : Z) : list Z :=
  take (Z.to_nat (j - i)) (drop (Z.to_nat i) tokens).

(** [[tokens[i:i + max_tokens] for i in range(0, len(tokens), max_tokens)]] *)
Definition token_windows (tokens : list Z) (max_tokens : Z)
  : result (list (list Z)) :=
  starts ←! py_range 0 (Z.of_nat (length tokens)) max_tokens;
  Ok ((λ i, slice tokens i (i + max_tokens)) <$> starts).

(** [split_text_into_chunks]; [encoding] is what
    [tiktoken.encoding_for_model(model)] returns. [encode] is called with
    its defaults and [decode] with its default [errors="replace"]. *)
Definition split_text_into_chunks (encoding : Encoding) (text : list Z)
  (max_tokens : Z) : result (list (list Z)) :=
  tokens ←! result_of (encode_default encoding text);
  windows ←! token_windows tokens max_tokens;
  rmapM (λ window, decode encoding window Replace) windows.

(** ** A small vocabulary used in the examples

    Ranks: [a], [b], [ab] (the scenario of the spec) and the three bytes of
    U+FFFD; special tokens [<a>] and [<b>]; the pattern takes the whole
    text as one piece. *)
Definition sample_ranks : gmap (list Z) Z :=
  list_to_map [(py "a", 0); (py "b", 1); (py "ab", 2);
               ([0xEF], 3); ([0xBF], 4); ([0xBD], 5)].

Definition sample_special : gmap (list Z) Z :=
  list_to_map [(py "<a>", 6); (py "<b>", 7)].

Definition whole_text (text : list Z) : list (nat * nat) := [(O, length text)].

Definition no_completions (text : list Z) (allowed : gset (list Z))
  : list Z * list (list Z) := ([], []).

Definition sample_bpe : CoreBPE :=
  {| encoder := sample_ranks;
     special_tokens_encoder := sample_special;
     pat := whole_text;
     unstable_completions := no_completions |}.

Definition sample_encoding : Encoding :=
  {| name := "sample";
     _pat_str := whole_text;
     _mergeable_ranks := sample_ranks;
     _special_tokens := sample_special;
     max_token_value := 7;
     _core_bpe := sample_bpe |}.


(** ** The other methods of [Encoding] *)

(** [encode_ordinary_batch] *)
Definition encode_ordinary_batch (enc : Encoding) (texts : list (list Z))
  (num_threads : Z) : result (list (list Z)) :=
  executor_map num_threads (λ text, result_of (encode_ordinary enc text)) texts.

(** [decode_batch] and [decode_bytes_batch] *)
Definition decode_batch (enc : Encoding) (batch : list (list Z))
  (errors : errors_policy) (num_threads : Z) : result (list (list Z)) :=
  executor_map num_threads (λ tokens, decode enc tokens errors) batch.

Definition decode_bytes_batch (enc : Encoding) (batch : list (list Z))
  (num_threads : Z) : result (list (list Z)) :=
  executor_map num_threads (decode_bytes enc) batch.

(** A [Union[str, bytes]] argument. *)
Inductive str_or_bytes : Type :=
  | Str (text : list Z)
  | Bytes (bs : list Z).

(** Modelled from the spec: the engine's [encode_single_token], which
    "encodes exactly one already-known atomic byte sequence to its token
    id" and fails "if the sequence is not in the vocabulary". The rank
    table is looked up first, then the special tokens under the string the
    bytes spell; the [KeyError] carries the bytes. *)
Definition CoreBPE_encode_single_token (bpe : CoreBPE) (piece : list Z)
  : result Z :=
  match encoder bpe !! piece with
  | Some token => Ok token
  | None =>
    match bytes_decode_utf8 Strict piece with
    | Ok literal =>
      match special_tokens_encoder bpe !! literal with
      | Some token => Ok token
      | None => Raise (KeyError_str piece)
      end
    | Raise _ => Raise (KeyError_str piece)
    end
  end.

(** [encode_single_token]: a [str] is first encoded as UTF-8, by Python and
    outside any [try]. *)
Definition encode_single_token (enc : Encoding) (text_or_bytes : str_or_bytes)
  : result Z :=
  bs ←! (match text_or_bytes with
         | Str text => str_encode_utf8 text
         | Bytes bs => Ok bs
         end);
  CoreBPE_encode_single_token (_core_bpe enc) bs.

(** ** Files, the log and the command-line glue

    The file system is a table from paths to the bytes of regular files,
    with a set of paths that cannot be opened for writing. Text files are
    written as on POSIX, where a newline is written as it is. *)

(** What [read_file], [process_text] and [main] can raise: an exception of
    the codec, or one of the file system. *)
Inductive failure : Type :=
  | Exn (e : exn)
  | FileNotFoundError (path : list Z).

Inductive outcome (A : Type) : Type :=
  | Done (a : A)
  | Fail (f : failure).
Arguments Done {A} a.
Arguments Fail {A} f.

(** The records the two loggers receive. *)
Inductive log_record : Type :=
  | Info_saved_chunk (idx : nat) (filename : list Z)
  | Error_failed_to_save (idx : nat) (filename : list Z)
  | Error_file_not_found (path : list Z)
  | Info_reading_file (path : list Z)
  | Info_read_file (path : list Z)
  | Exception_reading_file (path : list Z) (e : exn)
  | Error_failed_to_process (f : failure).

Record world : Type := {
  files : gmap (list Z) (list Z);
  refused : gset (list Z);
  log : list log_record;
}.

Definition logged (r : log_record) (w : world) : world :=
  {| files := files w; refused := refused w; log := log w ++ [r] |}.

Definition written (path bs : list Z) (w : world) : world :=
  {| files := <[path := bs]> (files w); refused := refused w; log := log w |}.

(** [f"{prefix}{idx}.txt"] *)
Definition chunk_filename (prefix : list Z) (idx : nat) : list Z :=
  prefix ++ py (pretty idx) ++ py ".txt".

(** What [open(path, "w")] raises before the file system sees the name, as
    on POSIX with a UTF-8 file-system encoding. The name is encoded with the
    [surrogateescape] handler, which passes U+DC80..U+DCFF and raises
    [UnicodeEncodeError] on any other surrogate; a NUL in the encoded name
    then raises [ValueError]. Neither is an [IOError]. *)
Definition escaped_byte (c : Z) : bool := (0xDC80 <=? c) && (c <=? 0xDCFF).

Definition path_error (path : list Z) : option exn :=
  if existsb (λ c, is_surrogate c && negb (escaped_byte c)) path
  then Some UnicodeEncodeError
  else if existsb (λ c, c =? 0) path
  then Some ValueError_embedded_null
  else None.

(** An ASCII character other than NUL: [open] takes it in a name. *)
Definition plain_char (c : Z) : Prop := 0 < c < 0x80.

(** The loop of [save_chunks_to_files], from index [idx] on. [open] raises
    the exception of [path_error] on a name it cannot take, which is no
    [IOError] and leaves the loop before any file is touched; it raises an
    [IOError] on a refused path, which the source catches and logs; on any
    other path it creates or empties the file. [file.write(chunk)] encodes
    the chunk as UTF-8: a chunk with a surrogate raises
    [UnicodeEncodeError], which is no [IOError] and leaves the loop, the
    file staying empty. *)
Fixpoint save_chunks_from (idx : nat) (chunks : list (list Z)) (prefix : list Z)
  (w : world) : world * outcome unit :=
  match chunks with
  | [] => (w, Done tt)
  | chunk :: rest =>
    let filename := chunk_filename prefix idx in
    match path_error filename with
    | Some e => (w, Fail (Exn e))
    | None =>
      if bool_decide (filename ∈ refused w)
      then save_chunks_from (S idx) rest prefix
             (logged (Error_failed_to_save idx filename) w)
      else
        match str_encode_utf8 chunk with
        | Raise e => (written filename [] w, Fail (Exn e))
        | Ok bs =>
          save_chunks_from (S idx) rest prefix
            (logged (Info_saved_chunk idx filename) (written filename bs w))
        end
    end
  end.

(** [save_chunks_to_files] *)
Definition save_chunks_to_files (chunks : list (list Z)) (prefix : list Z)
  (w : world) : world * outcome unit :=
  save_chunks_from O chunks prefix w.

(** Reading in text mode turns ["\r\n"] and a lone ["\r"] into ["\n"]. *)
Fixpoint universal_newlines (text : list Z) : list Z :=
  match text with
  | [] => []
  | c :: rest =>
    if c =? 13 then
      match rest with
      | [] => [10]
      | c2 :: rest2 =>
        if c2 =? 10 then 10 :: universal_newlines rest2
        else 10 :: universal_newlines rest
      end
    else c :: universal_newlines rest
  end.

(** [read_file] of main.py: a path that is no regular file is logged and
    raises [FileNotFoundError]; the content is decoded as strict UTF-8, and
    a failure to do so is logged and raised again. *)
Definition read_file (file_path : list Z) (w : world)
  : world * outcome (list Z) :=
  match files w !! file_path with
  | None =>
    (logged (Error_file_not_found file_path) w,
     Fail (FileNotFoundError file_path))
  | Some bs =>
    let w := logged (Info_reading_file file_path) w in
    match bytes_decode_utf8 Strict bs with
    | Ok text => (logged (Info_read_file file_path) w,
                  Done (universal_newlines text))
    | Raise e => (logged (Exception_reading_file file_path e) w, Fail (Exn e))
    end
  end.

(** [process_text] of main.py. [encoding_for_model] stands for
    [tiktoken.encoding_for_model], which [split_text_into_chunks] calls on
    the model name. *)
Definition process_text (encoding_for_model : string → result Encoding)
  (input_file output_prefix : list Z) (max_tokens : Z) (model : string)
  (w : world) : world * outcome unit :=
  match read_file input_file w with
  | (w, Fail f) => (w, Fail f)
  | (w, Done text) =>
    match (encoding ←! encoding_for_model model;
           split_text_into_chunks encoding text max_tokens) with
    | Raise e => (w, Fail (Exn e))
    | Ok chunks => save_chunks_to_files chunks output_prefix w
    end
  end.

(** The parsed command line. *)
Record arguments : Type := {
  input_file : list Z;
  output_prefix : list Z;
  max_tokens : Z;
  model : string;
}.

(** [main] of main.py, after [parse_arguments]: a failure is logged and
    raised again. *)
Definition main (encoding_for_model : string → result Encoding)
  (args : arguments) (w : world) : world * outcome unit :=
  match process_text encoding_for_model (input_file args) (output_prefix args)
                     (max_tokens args) (model args) w with
  | (w, Fail f) => (logged (Error_failed_to_process f) w, Fail f)
  | (w, Done tt) => (w, Done tt)
  end.

(** ** Vocabulary of the statements *)

(** A table whose ids are pairwise distinct and fill [lo, lo + n). *)
Definition dense_ids (d : gmap (list Z) Z) (lo : Z) (n : nat) : Prop :=
  size d = n ∧ NoDup (values d)
  ∧ Forall (λ v, lo ≤ v < lo + Z.of_nat n) (values d).

Definition engine_error (e : exn) : Prop :=
  e = UnicodeEncodeError ∨ e = EnginePanic.

(** The sets the two arguments stand for. *)
Definition resolve_allowed (enc : Encoding) (a : allowed_arg) : gset (list Z) :=
  match a with
  | AllowAll => special_tokens_set enc
  | Allow s => s
  end.

Definition resolve_disallowed (enc : Encoding) (a : allowed_arg)
  (d : disallowed_arg) : gset (list Z) :=
  match d with
  | DisallowAll => special_tokens_set enc ∖ resolve_allowed enc a
  | Disallow c => frozenset c
  end.

(** [ceil(n / k)] for [k > 0]. *)
Definition ceil_div (n k : Z) : Z := (n + k - 1) / k.

(** The repair of a string in the words of the spec, apart from the codecs
    of the source: the surrogate sequences that cannot be encoded are
    replaced. From left to right, a high surrogate (U+D800..U+DBFF)
    directly followed by a low one (U+DC00..U+DFFF) is the pair of one
    character beyond U+FFFF, which takes their place; every other
    surrogate is replaced by U+FFFD; every other code point stays. *)
Definition high_surrogate (c : Z) : Prop := 0xD800 ≤ c ≤ 0xDBFF.
Definition low_surrogate (c : Z) : Prop := 0xDC00 ≤ c ≤ 0xDFFF.

Fixpoint repair_surrogates (text : list Z) : list Z :=
  match text with
  | [] => []
  | c :: rest =>
    if decide (high_surrogate c) then
      match rest with
      | [] => [0xFFFD]
      | c2 :: rest2 =>
        if decide (low_surrogate c2)
        then (0x10000 + (c - 0xD800) * 0x400 + (c2 - 0xDC00))
               :: repair_surrogates rest2
        else 0xFFFD :: repair_surrogates rest
      end
    else if decide (low_surrogate c) then 0xFFFD :: repair_surrogates rest
    else c :: repair_surrogates rest
  end.

(** The offsets in the words of the spec, apart from the loop of the
    source. A UTF-8 continuation byte is a byte [b] with
    [0x80 ≤ b < 0xC0]; the count of the other bytes of a byte string goes
    byte by byte. *)
Definition continuation_byte (b : Z) : Prop := 0x80 ≤ b < 0xC0.

Fixpoint non_continuation_bytes (bs : list Z) : Z :=
  match bs with
  | [] => 0
  | b :: rest =>
    (if decide (continuation_byte b) then 0 else 1) + non_continuation_bytes rest
  end.

(** The count of non-continuation bytes contributed by the tokens before
    the [i]-th one. *)
Definition running_length (token_bytes : list (list Z)) (i : nat) : Z :=
  non_continuation_bytes (concat (take i token_bytes)).

(** The offset the spec gives to a token whose first byte is [b]. *)
Definition offset_spec (token_bytes : list (list Z)) (i : nat) (b : Z) : Z :=
  if decide (continuation_byte b)
  then Z.max 0 (running_length token_bytes i - 1)
  else running_length token_bytes i.

Definition ranked (ranks : gmap (list Z) Z) (group : list Z) : Prop :=
  is_Some (ranks !! group).

(** A well-formed rank table gives distinct ranks to distinct groups. *)
Definition unique_ranks (ranks : gmap (list Z) Z) : Prop := NoDup (values ranks).

(** The occurrences of the literals [tokens] in [text]: the pairs of a
    position (counted from [p]) and a literal that starts there, in the
    order in which the search meets them. *)
Fixpoint occurrences (tokens : list (list Z)) (p : nat) (text : list Z)
  : list (nat * list Z) :=
  ((λ t, (p, t)) <$> filter (λ t, is_prefix t text = true) tokens)
  ++ match text with
     | [] => []
     | _ :: rest => occurrences tokens (S p) rest
     end.

(** * Properties *)

(** Closed decidable facts are settled by evaluation. *)
Ltac by_compute := apply (bool_decide_unpack _); vm_compute; reflexivity.

(** ** The result monad *)

Lemma rmapM_Ok_Forall2 {A B} (f : A → result B) xs ys :
  rmapM f xs = Ok ys ↔ Forall2 (λ x y, f x = Ok y) xs ys.
Proof.
  revert ys. induction xs as [|x xs IH]; intros ys; simpl.
  - split.
    + intros [= <-]. constructor.
    + intros H. inversion H. reflexivity.
  - split.
    + destruct (f x) as [y|e] eqn:Hx; simpl; [|discriminate].
      destruct (rmapM f xs) as [ys'|e] eqn:Hxs; simpl; [|discriminate].
      intros [= <-]. constructor; [exact Hx | by apply IH].
    + intros H. inversion H as [|? y ? ys' Hx Hrest]; subst.
      rewrite Hx. simpl. apply IH in Hrest. rewrite Hrest. reflexivity.
Qed.

Lemma rmapM_length {A B} (f : A → result B) xs ys :
  rmapM f xs = Ok ys → length ys = length xs.
Proof.
  intros H. apply rmapM_Ok_Forall2 in H.
  symmetry. exact (Forall2_length _ _ _ H).
Qed.

Lemma rmapM_Raise {A B} (f : A → result B) xs e :
  rmapM f xs = Raise e → ∃ x, x ∈ xs ∧ f x = Raise e.
Proof.
  induction xs as [|x xs IH]; simpl; [discriminate|].
  destruct (f x) as [y|e'] eqn:Hx; simpl.
  - destruct (rmapM f xs) as [ys|e'] eqn:Hxs; simpl; [discriminate|].
    intros [= ->]. destruct IH as (x' & Hin & Hx'); [reflexivity|].
    exists x'. split; [by apply list_elem_of_further | exact Hx'].
  - intros [= ->]. exists x. split; [apply list_elem_of_here | exact Hx].
Qed.

Lemma rmapM_app {A B} (f : A → result B) xs1 xs2 ys1 ys2 :
  rmapM f xs1 = Ok ys1 → rmapM f xs2 = Ok ys2 →
  rmapM f (xs1 ++ xs2) = Ok (ys1 ++ ys2).
Proof.
  intros H1 H2. apply rmapM_Ok_Forall2.
  apply Forall2_app; by apply rmapM_Ok_Forall2.
Qed.

(** ** Construction: [max_token_value] and the vocabulary size *)

Lemma foldl_max_spec (tl : list Z) (x : Z) :
  foldl Z.max x tl ∈ x :: tl ∧ Forall (λ v, v ≤ foldl Z.max x tl) (x :: tl).
Proof.
  revert x. induction tl as [|y tl IH]; intros x; simpl.
  - split; [apply list_elem_of_here | constructor; [lia | constructor]].
  - destruct (IH (Z.max x y)) as [Hin Hall]. split.
    + apply elem_of_cons in Hin as [Heq | Hin].
      * rewrite Heq. destruct (Z.max_spec x y) as [[_ ->] | [_ ->]].
        -- apply list_elem_of_further, list_elem_of_here.
        -- apply list_elem_of_here.
      * by do 2 apply list_elem_of_further.
    + inversion Hall as [|? ? Hhd Htl]; subst.
      constructor; [lia|]. constructor; [lia | exact Htl].
Qed.

Lemma py_max_top (xs : list Z) (hi : Z) :
  hi ∈ xs → Forall (λ v, v ≤ hi) xs → py_max xs = Ok hi.
Proof.
  intros Hin Hall. destruct xs as [|x tl]; [by apply elem_of_nil in Hin|].
  simpl. f_equal.
  destruct (foldl_max_spec tl x) as [Hm Hle].
  rewrite Forall_forall in Hall, Hle.
  specialize (Hall _ Hm). specialize (Hle _ Hin). simpl in *. lia.
Qed.

Lemma py_max_default_top (xs : list Z) (hi d : Z) :
  hi ∈ xs → Forall (λ v, v ≤ hi) xs → py_max_default xs d = hi.
Proof.
  intros Hin Hall. pose proof (py_max_top xs hi Hin Hall) as H.
  destruct xs; simpl in *; congruence.
Qed.

Lemma values_length (d : gmap (list Z) Z) : length (values d) = size d.
Proof. unfold values. rewrite length_fmap. apply length_map_to_list. Qed.

(** Distinct ids that fill a range take every value of it. *)
Lemma dense_ids_perm d lo n : dense_ids d lo n → values d ≡ₚ seqZ lo (Z.of_nat n).
Proof.
  intros (Hsize & Hnd & Hall).
  apply submseteq_length_Permutation.
  - apply NoDup_submseteq; [exact Hnd|].
    intros v Hv. rewrite Forall_forall in Hall. specialize (Hall v Hv).
    apply elem_of_seqZ. lia.
  - rewrite length_seqZ, values_length. lia.
Qed.

Lemma dense_ids_top d lo n :
  dense_ids d lo n → (1 ≤ n)%nat →
  lo + Z.of_nat n - 1 ∈ values d ∧ Forall (λ v, v ≤ lo + Z.of_nat n - 1) (values d).
Proof.
  intros Hd Hn. split.
  - rewrite (dense_ids_perm _ _ _ Hd). apply elem_of_seqZ. lia.
  - destruct Hd as (_ & _ & Hall). eapply Forall_impl; [exact Hall|].
    simpl. intros v Hv. lia.
Qed.

Lemma dense_ids_empty d lo : dense_ids d lo 0 → values d = [].
Proof.
  intros (Hsize & _). apply length_zero_iff_nil. by rewrite values_length.
Qed.

Lemma dense_max_token_value ranks specials (M S : nat) :
  (1 ≤ M)%nat → dense_ids ranks 0 M → dense_ids specials (Z.of_nat M) S →
  py_max (values ranks) = Ok (Z.of_nat M - 1)
  ∧ Z.max (Z.of_nat M - 1) (py_max_default (values specials) 0)
    = Z.max (Z.of_nat M - 1) (Z.of_nat M + Z.of_nat S - 1).
Proof.
  intros HM Hr Hs. split.
  - destruct (dense_ids_top _ _ _ Hr HM) as [Hin Hall].
    apply py_max_top; [exact Hin | exact Hall].
  - destruct S as [|S'].
    + rewrite (dense_ids_empty _ _ Hs). simpl. lia.
    + destruct (dense_ids_top _ _ _ Hs) as [Hin Hall]; [lia|].
      by rewrite (py_max_default_top _ _ 0 Hin Hall).
Qed.

(** C9, as amended. For a vocabulary with [M >= 1] ranks filling [0, M) and
    [S] special ids filling [M, M + S): a successful construction sets
    [max_token_value] to [max (M - 1) (M + S - 1)]; without an explicit
    size the construction succeeds; with an explicit size [n] other than
    zero it succeeds exactly when [M + S = n] and that maximum is
    [n - 1]. *)
Theorem Encoding_init_max_token_value name pat_str ranks specials
    (explicit_n_vocab : option Z) native (M S : nat) :
  (1 ≤ M)%nat → dense_ids ranks 0 M → dense_ids specials (Z.of_nat M) S →
  let top := Z.max (Z.of_nat M - 1) (Z.of_nat M + Z.of_nat S - 1) in
  let built := Encoding_init name pat_str ranks specials explicit_n_vocab native in
  (∀ enc, built = Ok enc → max_token_value enc = top)
  ∧ (explicit_n_vocab = None → ∃ enc, built = Ok enc)
  ∧ (∀ n, explicit_n_vocab = Some n → n ≠ 0 →
       ((∃ enc, built = Ok enc) ↔ Z.of_nat M + Z.of_nat S = n ∧ top = n - 1)).
Proof.
  intros HM Hr Hs top built.
  destruct (dense_max_token_value ranks specials M S HM Hr Hs) as [Hmax Htop].
  pose proof (proj1 Hr) as HsizeM. pose proof (proj1 Hs) as HsizeS.
  subst built. unfold Encoding_init. rewrite Hmax. simpl. rewrite Htop.
  fold top. rewrite HsizeM, HsizeS.
  split; [|split].
  - intros enc. destruct explicit_n_vocab as [n|]; simpl.
    + destruct (n =? 0); simpl.
      * by intros [= <-].
      * destruct (Z.of_nat M + Z.of_nat S =? n); simpl; [|discriminate].
        destruct (top =? n - 1); simpl; [|discriminate].
        by intros [= <-].
    + by intros [= <-].
  - intros ->. simpl. eauto.
  - intros n -> Hn. simpl.
    destruct (Z.eqb_spec n 0) as [|_]; [done|].
    destruct (Z.eqb_spec (Z.of_nat M + Z.of_nat S) n) as [Hsum|Hsum]; simpl.
    + destruct (Z.eqb_spec top (n - 1)) as [Ht|Ht]; simpl.
      * split; [done | eauto].
      * split; [intros [enc [=]] | intros [_ ?]; done].
    + split; [intros [enc [=]] | intros [? _]; done].
Qed.

Lemma Encoding_init_max_token_value_witness :
  ∃ enc, Encoding_init "sample" whole_text sample_ranks sample_special (Some 8)
                       no_completions = Ok enc
         ∧ max_token_value enc = 7.
Proof.
  assert (Hr : dense_ids sample_ranks 0 6).
  { by_compute. }
  assert (Hs : dense_ids sample_special (Z.of_nat 6) 2).
  { by_compute. }
  destruct (Encoding_init_max_token_value "sample" whole_text sample_ranks
              sample_special (Some 8) no_completions 6 2 ltac:(lia) Hr Hs)
    as (Hval & _ & Hiff).
  destruct (proj2 (Hiff 8 eq_refl ltac:(lia))) as [enc Henc].
  { split; reflexivity. }
  exists enc. split; [exact Henc | exact (Hval enc Henc)].
Defined.

(** C9 as stated fails without a mergeable rank: [max] of no values
    raises, so nothing is constructed. *)
Lemma Encoding_init_no_ranks :
  dense_ids (∅ : gmap (list Z) Z) 0 0
  ∧ dense_ids ({[ py "<a>" := 0 ]} : gmap (list Z) Z) 0 1
  ∧ Encoding_init "empty" whole_text ∅ {[ py "<a>" := 0 ]} None no_completions
    = Raise ValueError_max_empty
  ∧ ¬ ∃ enc, Encoding_init "empty" whole_text ∅ {[ py "<a>" := 0 ]} None
                           no_completions = Ok enc
             ∧ max_token_value enc = Z.max (0 - 1) (0 + 1 - 1).
Proof.
  split; [|split; [|split]].
  - by_compute.
  - by_compute.
  - reflexivity.
  - intros (enc & Henc & _). discriminate Henc.
Qed.

(** ** [eot_token] *)

(** C10. On a constructed encoding, [eot_token] is the id that the
    special-token table gives to the empty string, and a key-lookup error
    when the table has no entry for it. *)
Theorem eot_token_empty_key name pat_str ranks specials explicit_n_vocab native enc :
  Encoding_init name pat_str ranks specials explicit_n_vocab native = Ok enc →
  (∀ id, specials !! [] = Some id → eot_token enc = Ok id)
  ∧ (specials !! [] = None → eot_token enc = Raise (KeyError_str [])).
Proof.
  unfold Encoding_init. intros Hinit.
  destruct (py_max (values ranks)) as [max_rank|]; simpl in Hinit; [|discriminate].
  match type of Hinit with
  | rbind ?check _ = _ => destruct check as [[]|]; simpl in Hinit; [|discriminate]
  end.
  injection Hinit as <-. unfold eot_token. simpl.
  split; intros; by simplify_option_eq.
Qed.

Lemma eot_token_empty_key_witness :
  eot_token sample_encoding = Raise (KeyError_str []).
Proof.
  refine (proj2 (eot_token_empty_key "sample" whole_text sample_ranks
                   sample_special (Some 8) no_completions sample_encoding _) _).
  - vm_compute. reflexivity.
  - vm_compute. reflexivity.
Defined.

(** ** What the engine can raise *)

Lemma str_encode_utf8_Raise text e :
  str_encode_utf8 text = Raise e → e = UnicodeEncodeError.
Proof.
  induction text as [|c rest IH]; simpl; [discriminate|].
  destruct (utf8_encode_char c); [|congruence].
  destruct (str_encode_utf8 rest); simpl; [discriminate|].
  intros [= <-]. by apply IH.
Qed.

Lemma byte_pair_encode_Raise ranks piece e :
  byte_pair_encode ranks piece = Raise e → e = EnginePanic.
Proof.
  unfold byte_pair_encode. intros H.
  apply rmapM_Raise in H as (g & _ & Hg).
  unfold rank_of in Hg. destruct (ranks !! g); congruence.
Qed.

Lemma encode_ordinary_native_Raise bpe text e :
  encode_ordinary_native bpe text = Raise e → engine_error e.
Proof.
  unfold encode_ordinary_native, rmap. intros H.
  destruct (rmapM _ (pieces bpe text)) as [?|e'] eqn:Hm; simpl in H; [discriminate|].
  injection H as <-. apply rmapM_Raise in Hm as (piece & _ & Hp).
  destruct (str_encode_utf8 piece) as [bs|e''] eqn:Hbs; simpl in Hp.
  - right. by eapply byte_pair_encode_Raise.
  - left. injection Hp as <-. by eapply str_encode_utf8_Raise.
Qed.

Lemma encode_native_Raise bpe text allowed e :
  encode_native bpe text allowed = Raise e → engine_error e.
Proof.
  unfold encode_native, rmap. intros H.
  destruct (rmapM _ _) as [?|e'] eqn:Hm; simpl in H; [discriminate|].
  injection H as <-. apply rmapM_Raise in Hm as (seg & _ & Hseg).
  destruct seg as [s|t]; simpl in Hseg.
  - by eapply encode_ordinary_native_Raise.
  - destruct (special_tokens_encoder bpe !! t); [discriminate|].
    injection Hseg as <-. by right.
Qed.

Lemma CoreBPE_encode_Raise bpe text allowed e :
  CoreBPE_encode bpe text allowed = Raise e → engine_error e.
Proof.
  unfold CoreBPE_encode. destruct (has_surrogate text).
  - intros [= <-]. by left.
  - apply encode_native_Raise.
Qed.

Lemma CoreBPE_encode_ordinary_Raise bpe text e :
  CoreBPE_encode_ordinary bpe text = Raise e → engine_error e.
Proof.
  unfold CoreBPE_encode_ordinary. destruct (has_surrogate text).
  - intros [= <-]. by left.
  - apply encode_ordinary_native_Raise.
Qed.

Lemma CoreBPE_encode_with_unstable_Raise bpe text allowed e :
  CoreBPE_encode_with_unstable bpe text allowed = Raise e → engine_error e.
Proof.
  unfold CoreBPE_encode_with_unstable. destruct (has_surrogate text).
  - intros [= <-]. by left.
  - discriminate.
Qed.

Lemma engine_error_not_disallowed tok : ¬ engine_error (DisallowedSpecialToken tok).
Proof. intros [H|H]; discriminate H. Qed.

(** ** The scan for disallowed special tokens *)

Lemma truthy_frozenset (c : collection) :
  truthy c = negb (bool_decide (frozenset c = ∅)).
Proof.
  destruct c as [s|l]; simpl; [reflexivity|].
  f_equal. apply bool_decide_ext. split.
  - by intros ->.
  - destruct l as [|x l]; [done|]. simpl. intros H.
    assert (x ∈ (∅ : gset (list Z))) as Hx by (rewrite <- H; set_solver).
    set_solver.
Qed.

Lemma regex_search_nil text : regex_search [] text = None.
Proof. induction text as [|c rest IH]; simpl; [reflexivity | exact IH]. Qed.

(** Skipping the scan for an empty set changes nothing: the scan of an
    empty set finds nothing. *)
Lemma guarded_scan (D : gset (list Z)) text :
  (if negb (bool_decide (D = ∅)) then scan_for_disallowed D text else tret tt)
  = scan_for_disallowed D text.
Proof.
  case_bool_decide as HD; simpl; [|reflexivity].
  subst D. unfold scan_for_disallowed, _special_token_regex.
  by rewrite elements_empty, regex_search_nil.
Qed.

(** [encode]: the scan, then the engine with one retry. *)
Lemma encode_unfold enc text a d :
  encode enc text a d
  = match _special_token_regex (resolve_disallowed enc a d) text with
    | Some m => ([], Raise (DisallowedSpecialToken m))
    | None =>
      try_except_UnicodeEncodeError
        (call (Call_encode text (resolve_allowed enc a))
              (CoreBPE_encode (_core_bpe enc) text (resolve_allowed enc a)))
        (call (Call_encode (surrogate_fallback text) (resolve_allowed enc a))
              (CoreBPE_encode (_core_bpe enc) (surrogate_fallback text)
                              (resolve_allowed enc a)))
    end.
Proof.
  unfold encode. fold (resolve_allowed enc a).
  set (c := match d with
            | DisallowAll => SetOf (special_tokens_set enc ∖ resolve_allowed enc a)
            | Disallow c => c
            end).
  assert (Hc : frozenset c = resolve_disallowed enc a d) by (by destruct d).
  rewrite truthy_frozenset, guarded_scan, Hc.
  unfold scan_for_disallowed.
  destruct (_special_token_regex _ text) as [m|]; [reflexivity|].
  unfold tbind. simpl. by destruct (try_except_UnicodeEncodeError _ _).
Qed.

(** [encode_with_unstable] with a collection: the scan, then the engine. *)
Lemma encode_with_unstable_collection enc text a c :
  encode_with_unstable enc text a (Disallow c)
  = match _special_token_regex (frozenset c) text with
    | Some m => ([], Raise (DisallowedSpecialToken m))
    | None =>
      call (Call_encode_with_unstable text (resolve_allowed enc a))
           (CoreBPE_encode_with_unstable (_core_bpe enc) text (resolve_allowed enc a))
    end.
Proof.
  unfold encode_with_unstable. fold (resolve_allowed enc a).
  cbn [members scan_through_cache].
  change (truthy (SetOf ?D)) with (negb (bool_decide (D = ∅))).
  rewrite guarded_scan. unfold scan_for_disallowed.
  destruct (_special_token_regex _ text) as [m|]; reflexivity.
Qed.

(** [encode_with_unstable] with ["all"]: the engine when nothing is left to
    disallow, TypeError otherwise. *)
Lemma encode_with_unstable_all enc text a :
  encode_with_unstable enc text a DisallowAll
  = if bool_decide (special_tokens_set enc ∖ resolve_allowed enc a = ∅)
    then call (Call_encode_with_unstable text (resolve_allowed enc a))
              (CoreBPE_encode_with_unstable (_core_bpe enc) text (resolve_allowed enc a))
    else ([], Raise TypeError_unhashable).
Proof.
  unfold encode_with_unstable. fold (resolve_allowed enc a).
  cbn [members scan_through_cache].
  change (truthy (SetOf ?D)) with (negb (bool_decide (D = ∅))).
  case_bool_decide; reflexivity.
Qed.

(** After a passed scan, what [encode] returns comes from the engine. *)
Lemma try_except_result {A} (m handler : traced A) e :
  result_of (try_except_UnicodeEncodeError m handler) = Raise e →
  result_of m = Raise e ∨ result_of handler = Raise e.
Proof.
  unfold try_except_UnicodeEncodeError, result_of.
  destruct m as [log [x|[]]]; simpl; auto.
Qed.

(** C6. With the default arguments and a vocabulary that has special
    tokens, [encode_with_unstable] does not reach the scan: on the sample
    vocabulary and the text ["ab"], which holds no special-token literal, it
    raises TypeError before any engine call, where [encode] with the same
    arguments scans, finds nothing and returns the tokens. *)
Theorem encode_with_unstable_default_TypeError :
  encode_with_unstable sample_encoding (py "ab") (Allow ∅) DisallowAll
  = ([], Raise TypeError_unhashable)
  ∧ encode sample_encoding (py "ab") (Allow ∅) DisallowAll
    = ([Call_encode (py "ab") ∅], Ok [2]).
Proof. split; vm_compute; reflexivity. Qed.

(** ** Batches *)

(** [encode] on the resolved sets is [encode] on the arguments as given. *)
Lemma encode_resolved enc text a d :
  encode enc text (Allow (resolve_allowed enc a))
                  (Disallow (SetOf (resolve_disallowed enc a d)))
  = encode enc text a d.
Proof. by rewrite !encode_unfold. Qed.

(** C4. With a pool of at least one thread, [encode_batch] returns
    [results] exactly when [results] lists, index by index, what [encode]
    returns for each text under the same two special-token arguments; the
    number of threads does not enter the result. *)
Theorem encode_batch_pointwise enc texts num_threads a d results :
  0 < num_threads →
  encode_batch enc texts num_threads a d = Ok results
  ↔ Forall2 (λ text r, result_of (encode enc text a d) = Ok r) texts results.
Proof.
  intros Hn. unfold encode_batch, executor_map.
  fold (resolve_allowed enc a). fold (resolve_disallowed enc a d).
  destruct (Z.leb_spec num_threads 0) as [|_]; [lia|].
  rewrite rmapM_Ok_Forall2.
  split; intros H; (eapply Forall2_impl; [exact H|]); simpl; intros text r;
    by rewrite encode_resolved.
Qed.

Lemma encode_batch_pointwise_witness :
  encode_batch sample_encoding [py "ab<a>ba"; py "ab"] 8
               (Allow {[ py "<a>" ]}) DisallowAll
  = Ok [[2; 6; 1; 0]; [2]].
Proof.
  apply (encode_batch_pointwise sample_encoding [py "ab<a>ba"; py "ab"] 8
           (Allow {[ py "<a>" ]}) DisallowAll [[2; 6; 1; 0]; [2]]).
  - lia.
  - repeat constructor; vm_compute; reflexivity.
Defined.

(** ** The chunk splitter *)

Lemma ceil_div_spec n k : 0 < k → (ceil_div n k - 1) * k < n ≤ ceil_div n k * k.
Proof.
  intros Hk. unfold ceil_div.
  pose proof (Z.div_mod (n + k - 1) k ltac:(lia)).
  pose proof (Z.mod_pos_bound (n + k - 1) k Hk). nia.
Qed.

Lemma range_up_lookup fuel i stop step (j : nat) :
  0 < step → stop - i ≤ Z.of_nat fuel →
  range_up fuel i stop step !! j
  = if i + Z.of_nat j * step <? stop then Some (i + Z.of_nat j * step) else None.
Proof.
  intros Hstep. revert i j. induction fuel as [|fuel IH]; intros i j Hfuel; simpl.
  - destruct (Z.ltb_spec (i + Z.of_nat j * step) stop); [nia | reflexivity].
  - destruct (Z.ltb_spec i stop) as [Hi|Hi].
    + destruct j as [|j]; simpl.
      * replace (i + Z.of_nat 0 * step) with i by lia.
        destruct (Z.ltb_spec i stop); [reflexivity | lia].
      * rewrite IH by lia.
        replace (i + step + Z.of_nat j * step)
          with (i + Z.of_nat (S j) * step) by lia.
        reflexivity.
    + destruct (Z.ltb_spec (i + Z.of_nat j * step) stop); [nia | reflexivity].
Qed.

Lemma range_up_length fuel i stop step :
  0 < step → stop - i ≤ Z.of_nat fuel →
  length (range_up fuel i stop step) = Z.to_nat (ceil_div (stop - i) step).
Proof.
  intros Hstep. revert i. induction fuel as [|fuel IH]; intros i Hfuel; simpl.
  - pose proof (ceil_div_spec (stop - i) step Hstep). nia.
  - destruct (Z.ltb_spec i stop) as [Hi|Hi]; simpl.
    + rewrite IH by lia.
      pose proof (ceil_div_spec (stop - i) step Hstep).
      pose proof (ceil_div_spec (stop - (i + step)) step Hstep).
      assert (ceil_div (stop - i) step = ceil_div (stop - (i + step)) step + 1)
        by nia.
      assert (0 ≤ ceil_div (stop - (i + step)) step) by nia.
      lia.
    + pose proof (ceil_div_spec (stop - i) step Hstep). nia.
Qed.

Lemma range_up_concat fuel i step (tokens : list Z) :
  0 < step → 0 ≤ i → Z.of_nat (length tokens) - i ≤ Z.of_nat fuel →
  concat ((λ i, slice tokens i (i + step))
            <$> range_up fuel i (Z.of_nat (length tokens)) step)
  = drop (Z.to_nat i) tokens.
Proof.
  intros Hstep. revert i. induction fuel as [|fuel IH]; intros i Hi Hfuel; simpl.
  - symmetry. apply drop_ge. lia.
  - destruct (Z.ltb_spec i (Z.of_nat (length tokens))) as [Hlt|Hge]; simpl.
    + rewrite IH by lia. unfold slice.
      replace (i + step - i) with step by lia.
      replace (Z.to_nat (i + step)) with (Z.to_nat i + Z.to_nat step)%nat by lia.
      rewrite <- drop_drop. apply take_drop.
    + symmetry. apply drop_ge. lia.
Qed.

(** C3. For [max_tokens = k > 0] and a text that [encode] accepts, the
    windows the splitter cuts are consecutive slices of [k] tokens, the last
    possibly shorter and none empty; concatenated they are [encode(text)];
    there are [ceil(token_count / k)] of them, none for no tokens; and the
    chunks are the windows decoded one by one, as many as the windows. *)
Theorem split_text_into_chunks_windows encoding text k tokens :
  0 < k →
  result_of (encode_default encoding text) = Ok tokens →
  ∃ windows,
    token_windows tokens k = Ok windows
    ∧ concat windows = tokens
    ∧ Z.of_nat (length windows) = ceil_div (Z.of_nat (length tokens)) k
    ∧ (tokens = [] → windows = [])
    ∧ (∀ (j : nat) w, windows !! j = Some w →
         w = slice tokens (Z.of_nat j * k) (Z.of_nat j * k + k)
         ∧ 1 ≤ Z.of_nat (length w) ≤ k
         ∧ (S j < length windows → Z.of_nat (length w) = k)%nat)
    ∧ split_text_into_chunks encoding text k
      = rmapM (λ window, decode encoding window Replace) windows
    ∧ (∀ chunks, split_text_into_chunks encoding text k = Ok chunks →
         length chunks = length windows).
Proof.
  intros Hk Henc.
  set (n := Z.of_nat (length tokens)).
  set (starts := range_up (Z.to_nat (n - 0)) 0 n k).
  exists ((λ i, slice tokens i (i + k)) <$> starts).
  assert (Hwin : token_windows tokens k
                 = Ok ((λ i, slice tokens i (i + k)) <$> starts)).
  { unfold token_windows, py_range.
    destruct (Z.eqb_spec k 0) as [|_]; [lia|].
    destruct (Z.ltb_spec 0 k) as [_|]; [|lia]. reflexivity. }
  assert (Hlen : Z.of_nat (length starts) = ceil_div n k).
  { unfold starts. rewrite range_up_length by lia.
    replace (n - 0) with n by lia.
    pose proof (ceil_div_spec n k Hk). assert (0 ≤ ceil_div n k) by nia. lia. }
  assert (Hlook : ∀ (j : nat) i, starts !! j = Some i →
                    i = Z.of_nat j * k ∧ Z.of_nat j * k < n).
  { intros j i. unfold starts. rewrite range_up_lookup by lia.
    destruct (Z.ltb_spec (0 + Z.of_nat j * k) n); [|discriminate].
    intros [= <-]. lia. }
  split; [exact Hwin|]. split; [|split; [|split; [|split; [|split]]]].
  - unfold starts, n. rewrite range_up_concat by lia. reflexivity.
  - rewrite length_fmap. exact Hlen.
  - intros ->. apply length_zero_iff_nil. rewrite length_fmap.
    change n with 0 in Hlen. unfold ceil_div in Hlen.
    rewrite Z.div_small in Hlen by lia. lia.
  - intros j w. rewrite list_lookup_fmap.
    destruct (starts !! j) as [i|] eqn:Hj; [|discriminate].
    intros [= <-]. destruct (Hlook j i Hj) as [-> Hjn].
    split; [reflexivity|]. unfold slice.
    rewrite length_take, length_drop, length_fmap.
    replace (Z.of_nat j * k + k - Z.of_nat j * k) with k by lia.
    split; [fold n in Hjn |- *; lia|].
    intros Hnext.
    destruct (lookup_lt_is_Some_2 starts (S j) Hnext) as [i' Hi'].
    destruct (Hlook (S j) i' Hi') as [_ Hnextn]. fold n in Hnextn |- *. lia.
  - unfold split_text_into_chunks. rewrite Henc. simpl. rewrite Hwin. reflexivity.
  - intros chunks. unfold split_text_into_chunks. rewrite Henc. simpl.
    rewrite Hwin. simpl. apply rmapM_length.
Qed.

(** The scenario of the spec: five tokens and [max_tokens = 2] give windows
    of lengths 2, 2 and 1. *)
Example scenario_windows :
  token_windows [1; 2; 3; 4; 5] 2 = Ok [[1; 2]; [3; 4]; [5]].
Proof. reflexivity. Qed.

Lemma split_text_into_chunks_windows_witness :
  ∃ windows,
    token_windows [2; 1; 0; 2; 2] 2 = Ok windows
    ∧ concat windows = [2; 1; 0; 2; 2]
    ∧ length windows = 3%nat
    ∧ split_text_into_chunks sample_encoding (py "abbaabab") 2
      = Ok [py "abb"; py "aab"; py "ab"].
Proof.
  destruct (split_text_into_chunks_windows sample_encoding (py "abbaabab") 2
              [2; 1; 0; 2; 2] ltac:(lia) ltac:(vm_compute; reflexivity))
    as (windows & Hwin & Hcat & Hlen & _ & _ & Hsplit & _).
  exists windows. split; [exact Hwin|]. split; [exact Hcat|].
  split; [apply Nat2Z.inj; rewrite Hlen; reflexivity|].
  vm_compute. reflexivity.
Defined.

(** ** Offsets *)

Lemma count_non_continuation_app a b :
  count_non_continuation (a ++ b)
  = count_non_continuation a + count_non_continuation b.
Proof. unfold count_non_continuation. rewrite filter_app, length_app. lia. Qed.

Lemma count_non_continuation_cons b bs :
  count_non_continuation (b :: bs)
  = (if is_continuation b then 0 else 1) + count_non_continuation bs.
Proof.
  unfold count_non_continuation. rewrite filter_cons.
  destruct (decide (is_continuation b = false)) as [H|H];
    destruct (is_continuation b); try done; simpl; lia.
Qed.

Lemma count_non_continuation_nonneg bs : 0 ≤ count_non_continuation bs.
Proof. unfold count_non_continuation. lia. Qed.

Lemma count_non_continuation_all_continuation bs :
  Forall (λ b, is_continuation b = true) bs → count_non_continuation bs = 0.
Proof.
  induction 1 as [|b bs Hb _ IH]; [reflexivity|].
  rewrite count_non_continuation_cons, Hb, IH. reflexivity.
Qed.

(** The counter of the loop counts what the spec counts. *)
Lemma continuation_byte_is_continuation b :
  continuation_byte b ↔ is_continuation b = true.
Proof.
  unfold continuation_byte, is_continuation.
  rewrite andb_true_iff, Z.leb_le, Z.ltb_lt. reflexivity.
Qed.

Lemma decide_continuation_byte {A} b (x y : A) :
  (if decide (continuation_byte b) then x else y)
  = if is_continuation b then x else y.
Proof.
  destruct (decide (continuation_byte b)) as [H|H];
    destruct (is_continuation b) eqn:Hb; try reflexivity.
  - apply continuation_byte_is_continuation in H. congruence.
  - by apply continuation_byte_is_continuation in Hb.
Qed.

Lemma non_continuation_bytes_count bs :
  non_continuation_bytes bs = count_non_continuation bs.
Proof.
  induction bs as [|b bs IH]; [reflexivity|].
  cbn [non_continuation_bytes].
  by rewrite count_non_continuation_cons, decide_continuation_byte, IH.
Qed.

Lemma running_length_count token_bytes i :
  running_length token_bytes i
  = count_non_continuation (concat (take i token_bytes)).
Proof. apply non_continuation_bytes_count. Qed.

Lemma offset_spec_count token_bytes i b :
  offset_spec token_bytes i b
  = if is_continuation b
    then Z.max 0 (running_length token_bytes i - 1)
    else running_length token_bytes i.
Proof. apply decide_continuation_byte. Qed.

Lemma running_length_S token_bytes i token :
  token_bytes !! i = Some token →
  running_length token_bytes (S i)
  = running_length token_bytes i + count_non_continuation token.
Proof.
  intros H. rewrite !running_length_count.
  rewrite (take_S_r _ _ _ H), concat_app, count_non_continuation_app.
  simpl. by rewrite app_nil_r.
Qed.

Lemma running_length_mono token_bytes i j :
  (i ≤ j)%nat → running_length token_bytes i ≤ running_length token_bytes j.
Proof.
  intros Hij. rewrite !running_length_count.
  replace j with (i + (j - i))%nat by lia.
  rewrite <- take_take_drop, concat_app, count_non_continuation_app.
  pose proof (count_non_continuation_nonneg
                (concat (take (j - i) (drop i token_bytes)))). lia.
Qed.

Lemma running_length_total token_bytes i :
  running_length token_bytes i ≤ count_non_continuation (concat token_bytes).
Proof.
  rewrite running_length_count.
  rewrite <- (take_drop i token_bytes) at 2.
  rewrite concat_app, count_non_continuation_app.
  pose proof (count_non_continuation_nonneg (concat (drop i token_bytes))). lia.
Qed.

Lemma running_length_nonneg token_bytes i : 0 ≤ running_length token_bytes i.
Proof. rewrite running_length_count. apply count_non_continuation_nonneg. Qed.

(** The loop, started with [text_len] and [offsets] after [done] tokens,
    appends to [offsets] one offset per remaining token. *)
Lemma offsets_loop_spec (rest done : list (list Z)) (offsets : list Z) :
  Forall (λ token, token ≠ []) rest →
  ∃ more,
    offsets_loop rest (count_non_continuation (concat done)) offsets
    = Ok (offsets ++ more)
    ∧ length more = length rest
    ∧ ∀ (i : nat) token b, rest !! i = Some token → head token = Some b →
        more !! i = Some (offset_spec (done ++ rest) (length done + i) b).
Proof.
  revert done offsets. induction rest as [|token rest IH]; intros done offsets Hne.
  - exists []. simpl. rewrite app_nil_r. split; [done|]. split; [done|].
    intros i ? ? H. by rewrite lookup_nil in H.
  - inversion Hne as [|? ? Htoken Hrest]; subst.
    destruct token as [|b0 token']; [done|].
    destruct (IH (done ++ [b0 :: token'])
                 (offsets ++ [Z.max 0 (count_non_continuation (concat done)
                                       - (if is_continuation b0 then 1 else 0))])
                 Hrest)
      as (more & Hloop & Hlen & Hspec).
    exists (Z.max 0 (count_non_continuation (concat done)
                     - (if is_continuation b0 then 1 else 0)) :: more).
    split; [|split].
    + simpl. rewrite concat_app, count_non_continuation_app in Hloop.
      simpl in Hloop. rewrite app_nil_r in Hloop.
      rewrite Hloop, <- app_assoc. reflexivity.
    + simpl. by rewrite Hlen.
    + intros i token b Hi Hb. destruct i as [|i]; simpl in Hi |- *.
      * injection Hi as <-. injection Hb as <-.
        rewrite offset_spec_count, running_length_count.
        rewrite Nat.add_0_r, take_app_length.
        pose proof (count_non_continuation_nonneg (concat done)).
        destruct (is_continuation b0); f_equal; lia.
      * rewrite (Hspec i token b Hi Hb). f_equal.
        rewrite <- app_assoc, length_app. simpl.
        replace (length done + 1 + i)%nat with (length done + S i)%nat by lia.
        reflexivity.
Qed.

(** C7. When every token has at least one byte, the loop of
    [decode_with_offsets] gives one offset per token: with [b] the first
    byte of the token and [running_length] the count of non-continuation
    bytes of the tokens before it, [max 0 (running_length - 1)] if
    [0x80 <= b < 0xC0] and [running_length] otherwise. [running_length]
    starts at zero and grows with each token by the count of its
    non-continuation bytes, the bytes outside [0x80 <= b < 0xC0]. These are
    the offsets that [decode_with_offsets] returns whenever it returns. *)
Theorem decode_with_offsets_offsets enc tokens token_bytes :
  decode_tokens_bytes enc tokens = Ok token_bytes →
  Forall (λ token, token ≠ []) token_bytes →
  ∃ offsets,
    offsets_loop token_bytes 0 [] = Ok offsets
    ∧ length offsets = length tokens
    ∧ (∀ (i : nat) token b,
         token_bytes !! i = Some token → head token = Some b →
         offsets !! i
         = Some (if decide (0x80 ≤ b < 0xC0)
                 then Z.max 0 (running_length token_bytes i - 1)
                 else running_length token_bytes i))
    ∧ running_length token_bytes 0 = 0
    ∧ (∀ (i : nat) token,
         token_bytes !! i = Some token →
         running_length token_bytes (S i)
         = running_length token_bytes i + non_continuation_bytes token)
    ∧ (∀ text offsets',
         decode_with_offsets enc tokens = Ok (text, offsets') → offsets' = offsets).
Proof.
  intros Hbytes Hne.
  destruct (offsets_loop_spec token_bytes [] [] Hne) as (offsets & Hloop & Hlen & Hspec).
  change (offsets_loop token_bytes 0 [] = Ok offsets) in Hloop. exists offsets.
  split; [exact Hloop|]. split; [|split; [|split; [|split]]].
  - rewrite Hlen. by apply rmapM_length in Hbytes.
  - intros i token b Hi Hb. exact (Hspec i token b Hi Hb).
  - reflexivity.
  - intros i token Hi. rewrite non_continuation_bytes_count.
    by apply running_length_S.
  - intros text offsets'. unfold decode_with_offsets.
    rewrite Hbytes. simpl. rewrite Hloop. simpl.
    destruct (bytes_decode_utf8 Strict (concat token_bytes)); simpl; [|discriminate].
    by intros [= _ <-].
Qed.

Lemma decode_with_offsets_offsets_witness :
  offsets_loop [py "ab"; [0xEF]; [0xBF]; [0xBD]; py "b"] 0 [] = Ok [0; 2; 2; 2; 3]
  ∧ decode_with_offsets sample_encoding [2; 3; 4; 5; 1]
    = Ok ([0x61; 0x62; 0xFFFD; 0x62], [0; 2; 2; 2; 3]).
Proof.
  destruct (decode_with_offsets_offsets sample_encoding [2; 3; 4; 5; 1]
              [py "ab"; [0xEF]; [0xBF]; [0xBD]; py "b"]
              ltac:(vm_compute; reflexivity)
              ltac:(repeat constructor; discriminate))
    as (offsets & Hloop & Hlen & Hspec & _ & _ & Hret).
  assert (Hoffsets : offsets = [0; 2; 2; 2; 3]).
  { pose proof (Hspec 0%nat (py "ab") 0x61 eq_refl eq_refl) as H0.
    pose proof (Hspec 1%nat [0xEF] 0xEF eq_refl eq_refl) as H1.
    pose proof (Hspec 2%nat [0xBF] 0xBF eq_refl eq_refl) as H2.
    pose proof (Hspec 3%nat [0xBD] 0xBD eq_refl eq_refl) as H3.
    pose proof (Hspec 4%nat (py "b") 0x62 eq_refl eq_refl) as H4.
    vm_compute in H0, H1, H2, H3, H4.
    destruct offsets as [|o0 [|o1 [|o2 [|o3 [|o4 [|]]]]]]; try discriminate Hlen.
    simpl in H0, H1, H2, H3, H4. congruence. }
  rewrite Hoffsets in Hloop, Hret. split; [exact Hloop|].
  destruct (decode_with_offsets sample_encoding [2; 3; 4; 5; 1])
    as [[text offsets']|e] eqn:Hrun; [|vm_compute in Hrun; discriminate].
  rewrite (Hret text offsets' eq_refl).
  vm_compute in Hrun. congruence.
Defined.

(** ** Strict UTF-8 decoding counts the non-continuation bytes *)

Lemma is_continuation_false_low b : b < 0x80 → is_continuation b = false.
Proof.
  intros H. unfold is_continuation.
  destruct (Z.leb_spec 0x80 b); [lia | reflexivity].
Qed.

Lemma is_continuation_false_high b : 0xC0 ≤ b → is_continuation b = false.
Proof.
  intros H. unfold is_continuation.
  destruct (Z.ltb_spec b 0xC0); [lia | apply andb_false_r].
Qed.

(** Case analysis on the tests the decoder step makes. *)
Ltac step_cases :=
  repeat match goal with
  | |- context [if ?a <? ?b then _ else _] => destruct (Z.ltb_spec a b)
  | |- context [if negb (is_continuation ?b) || _ then _ else _] =>
    destruct (is_continuation b) eqn:?; simpl
  | |- context [if negb (is_continuation ?b) then _ else _] =>
    destruct (is_continuation b) eqn:?; simpl
  | |- context [if is_continuation ?b then _ else _] =>
    destruct (is_continuation b) eqn:?
  | |- context [false || ?x] => change (false || x) with x
  | |- context [if ?a =? ?b then _ else _] => destruct (Z.eqb_spec a b)
  | |- context [match ?l with [] => _ | _ :: _ => _ end] => is_var l; destruct l
  end.

(** A decoded character takes one non-continuation byte followed by
    continuation bytes only. *)
Lemma utf8_decode_step_Char bs c n :
  utf8_decode_step bs = Char c n →
  (1 ≤ n ≤ length bs)%nat ∧ count_non_continuation (take n bs) = 1.
Proof.
  unfold utf8_decode_step. destruct bs as [|b0 rest]; [discriminate|].
  step_cases; intros Hstep; try discriminate Hstep; injection Hstep as <- <-;
    (split; [simpl; lia|]); simpl take;
    rewrite ?count_non_continuation_cons;
    repeat match goal with
           | Hc : is_continuation _ = true |- _ => rewrite Hc; clear Hc
           end;
    first [ rewrite is_continuation_false_low by lia
          | rewrite is_continuation_false_high by lia ];
    reflexivity.
Qed.

Lemma utf8_decode_loop_S fuel errors b bs :
  utf8_decode_loop (S fuel) errors (b :: bs)
  = match utf8_decode_step (b :: bs) with
    | Char c n =>
      tl ←! utf8_decode_loop fuel errors (drop n (b :: bs)); Ok (c :: tl)
    | Invalid n =>
      match errors with
      | Strict => Raise UnicodeDecodeError
      | Replace =>
        tl ←! utf8_decode_loop fuel errors (drop n (b :: bs));
        Ok (REPLACEMENT :: tl)
      end
    | Truncated =>
      match errors with
      | Strict => Raise UnicodeDecodeError
      | Replace => Ok [REPLACEMENT]
      end
    end.
Proof. reflexivity. Qed.

Lemma utf8_decode_strict_length fuel bs text :
  (length bs ≤ fuel)%nat →
  utf8_decode_loop fuel Strict bs = Ok text →
  Z.of_nat (length text) = count_non_continuation bs.
Proof.
  revert bs text. induction fuel as [|fuel IH]; intros bs text Hfuel.
  - destruct bs; [|simpl in Hfuel; lia]. simpl. by intros [= <-].
  - destruct bs as [|b0 rest]; [simpl; by intros [= <-]|].
    rewrite utf8_decode_loop_S.
    destruct (utf8_decode_step (b0 :: rest)) as [c n| |] eqn:Hstep;
      [|discriminate..].
    destruct (utf8_decode_step_Char _ _ _ Hstep) as [[Hn1 Hn2] Hcount].
    destruct (utf8_decode_loop fuel Strict (drop n (b0 :: rest))) as [tl|] eqn:Htl;
      simpl; [|discriminate].
    intros [= <-].
    apply IH in Htl; [|rewrite length_drop; simpl in *; lia].
    rewrite <- (take_drop n (b0 :: rest)) at 1.
    rewrite count_non_continuation_app, Hcount, <- Htl. simpl length. lia.
Qed.

Lemma offsets_loop_nonempty token_bytes text_len offsets result :
  offsets_loop token_bytes text_len offsets = Ok result →
  Forall (λ token, token ≠ []) token_bytes.
Proof.
  revert text_len offsets.
  induction token_bytes as [|token rest IH]; intros len acc Hloop; [constructor|].
  simpl in Hloop. destruct token as [|b token']; [discriminate|].
  constructor; [discriminate | exact (IH _ _ Hloop)].
Qed.

(** C8. When [decode_with_offsets] returns, the offsets do not decrease and
    each lies between zero and the length of the returned string. *)
Theorem decode_with_offsets_monotone enc tokens text offsets :
  decode_with_offsets enc tokens = Ok (text, offsets) →
  (∀ (i j : nat) a b,
     (i ≤ j)%nat → offsets !! i = Some a → offsets !! j = Some b → a ≤ b)
  ∧ Forall (λ o, 0 ≤ o ≤ Z.of_nat (length text)) offsets.
Proof.
  unfold decode_with_offsets.
  destruct (decode_tokens_bytes enc tokens) as [tbs|] eqn:Hbytes; simpl; [|discriminate].
  destruct (offsets_loop tbs 0 []) as [offs|] eqn:Hloop; simpl; [|discriminate].
  destruct (bytes_decode_utf8 Strict (concat tbs)) as [txt|] eqn:Htext;
    simpl; [|discriminate].
  intros [= <- <-].
  pose proof (offsets_loop_nonempty _ _ _ _ Hloop) as Hne.
  destruct (offsets_loop_spec tbs [] [] Hne) as (more & Hloop' & Hlen & Hspec).
  change (offsets_loop tbs 0 [] = Ok more) in Hloop'.
  rewrite Hloop in Hloop'. injection Hloop' as ->.
  apply utf8_decode_strict_length in Htext; [|done]. rewrite Htext.
  assert (Hat : ∀ (i : nat) a, more !! i = Some a →
            ∃ token b, tbs !! i = Some token ∧ head token = Some b
                       ∧ a = offset_spec tbs i b).
  { intros i a Hi.
    destruct (lookup_lt_is_Some_2 tbs i) as [token Htoken].
    { rewrite <- Hlen. by eapply lookup_lt_Some. }
    rewrite Forall_forall in Hne.
    destruct token as [|b token'] eqn:Heq.
    { exfalso. eapply (Hne []); [|done].
      by eapply list_elem_of_lookup_2. }
    exists (b :: token'), b. split; [done|]. split; [done|].
    specialize (Hspec i (b :: token') b Htoken eq_refl).
    simpl in Hspec. congruence. }
  split.
  - intros i j a b Hij Hi Hj.
    destruct (Hat i a Hi) as (ti & bi & Hti & Hbi & ->).
    destruct (Hat j b Hj) as (tj & bj & Htj & Hbj & ->).
    destruct (decide (i = j)) as [->|Hneq].
    { assert (bi = bj) by congruence. by subst. }
    pose proof (running_length_S tbs i ti Hti) as HS.
    pose proof (running_length_mono tbs (S i) j ltac:(lia)) as Hmono.
    pose proof (running_length_nonneg tbs i) as Hpos.
    pose proof (count_non_continuation_nonneg ti) as Hcnt.
    assert (Hfirst : is_continuation bi = false → 1 ≤ count_non_continuation ti).
    { intros Hc. destruct ti as [|x ti']; [discriminate|].
      injection Hbi as ->. rewrite count_non_continuation_cons, Hc.
      pose proof (count_non_continuation_nonneg ti'). lia. }
    rewrite !offset_spec_count.
    destruct (is_continuation bi) eqn:Hci; destruct (is_continuation bj);
      try specialize (Hfirst eq_refl); lia.
  - apply Forall_forall. intros a Ha.
    apply list_elem_of_lookup_1 in Ha as [i Hi].
    destruct (Hat i a Hi) as (ti & bi & _ & _ & ->).
    pose proof (running_length_total tbs i).
    pose proof (running_length_nonneg tbs i).
    rewrite offset_spec_count. destruct (is_continuation bi); lia.
Qed.

Lemma decode_with_offsets_monotone_witness :
  decode_with_offsets sample_encoding [2; 3; 4; 5; 1]
  = Ok ([0x61; 0x62; 0xFFFD; 0x62], [0; 2; 2; 2; 3])
  ∧ Forall (λ o, 0 ≤ o ≤ 4) [0; 2; 2; 2; 3].
Proof.
  assert (H : decode_with_offsets sample_encoding [2; 3; 4; 5; 1]
              = Ok ([0x61; 0x62; 0xFFFD; 0x62], [0; 2; 2; 2; 3]))
    by (vm_compute; reflexivity).
  split; [exact H|].
  exact (proj2 (decode_with_offsets_monotone sample_encoding [2; 3; 4; 5; 1]
                  [0x61; 0x62; 0xFFFD; 0x62] [0; 2; 2; 2; 3] H)).
Defined.

(** ** The surrogate fallback *)

Lemma has_surrogate_false_Forall text :
  has_surrogate text = false ↔ Forall (λ c, is_surrogate c = false) text.
Proof.
  unfold has_surrogate. induction text as [|c rest IH]; simpl.
  - split; [constructor | reflexivity].
  - rewrite orb_false_iff, IH. split.
    + intros [? ?]. by constructor.
    + intros H. inversion H. by split.
Qed.

(** The UTF-16 decoder never emits a surrogate. *)
Lemma utf16_decode_units_clean (n : nat) us :
  (length us ≤ n)%nat → has_surrogate (utf16_decode_units us) = false.
Proof.
  revert us. induction n as [|n IH]; intros us Hlen.
  - destruct us; [reflexivity | simpl in Hlen; lia].
  - destruct us as [|u rest]; [reflexivity|]. simpl in Hlen. simpl.
    destruct (is_surrogate u) eqn:Hu; simpl.
    + destruct (is_high_surrogate u) eqn:Hhigh; simpl.
      * destruct rest as [|u2 rest2]; [reflexivity|].
        destruct (is_low_surrogate u2) eqn:Hlow.
        -- change (has_surrogate (?x :: ?l)) with (is_surrogate x || has_surrogate l).
           rewrite IH by (simpl in Hlen; lia). rewrite orb_false_r.
           unfold is_high_surrogate, is_low_surrogate in *.
           apply andb_true_iff in Hhigh as [? ?], Hlow as [? ?].
           unfold is_surrogate.
           destruct (Z.leb_spec (0x10000 + (u - 0xD800) * 1024 + (u2 - 0xDC00)) 0xDFFF);
             [lia | apply andb_false_r].
        -- change (has_surrogate (?x :: ?l)) with (is_surrogate x || has_surrogate l).
           rewrite IH by lia. reflexivity.
      * change (has_surrogate (?x :: ?l)) with (is_surrogate x || has_surrogate l).
        rewrite IH by lia. reflexivity.
    + change (has_surrogate (?x :: ?l)) with (is_surrogate x || has_surrogate l).
      rewrite Hu, IH by lia. reflexivity.
Qed.

Lemma surrogate_fallback_clean text : has_surrogate (surrogate_fallback text) = false.
Proof.
  unfold surrogate_fallback, str_encode_utf16_surrogatepass,
    units_decode_utf16_replace.
  rewrite Z.eqb_refl. by eapply utf16_decode_units_clean.
Qed.

(** Without a surrogate, UTF-8 encoding succeeds. *)
Lemma str_encode_utf8_clean text :
  has_surrogate text = false → ∃ bs, str_encode_utf8 text = Ok bs.
Proof.
  induction text as [|c rest IH]; simpl; [eauto|].
  intros H. apply orb_false_iff in H as [Hc Hrest].
  destruct (IH Hrest) as [bs Hbs]. rewrite Hbs.
  unfold utf8_encode_char. rewrite Hc.
  repeat match goal with
         | |- context [if ?a <? ?b then _ else _] => destruct (a <? b)
         end; simpl; eauto.
Qed.

Lemma has_surrogate_piece text (s n : nat) :
  has_surrogate text = false → has_surrogate (take n (drop s text)) = false.
Proof.
  rewrite !has_surrogate_false_Forall. intros H.
  by apply Forall_take, Forall_drop.
Qed.

Lemma encode_ordinary_native_clean bpe text e :
  has_surrogate text = false →
  encode_ordinary_native bpe text = Raise e → e = EnginePanic.
Proof.
  intros Hclean. unfold encode_ordinary_native, rmap. intros H.
  destruct (rmapM _ (pieces bpe text)) as [?|e'] eqn:Hm; simpl in H; [discriminate|].
  injection H as <-. apply rmapM_Raise in Hm as (piece & Hin & Hp).
  unfold pieces in Hin. apply list_elem_of_fmap in Hin as ([s n] & -> & _).
  simpl in Hp.
  destruct (str_encode_utf8_clean _ (has_surrogate_piece text s n Hclean)) as [bs Hbs].
  rewrite Hbs in Hp. simpl in Hp. by eapply byte_pair_encode_Raise.
Qed.

(** The ordinary segments of a text hold characters of the text only. *)
Lemma special_segments_ordinary (P : Z → Prop) allowed skip acc text s :
  Forall P acc → Forall P text →
  Ordinary s ∈ special_segments allowed skip acc text → Forall P s.
Proof.
  revert skip acc. induction text as [|c rest IH]; intros skip acc Hacc Htext; simpl.
  - intros H. apply list_elem_of_singleton in H. by injection H as ->.
  - inversion Htext as [|? ? Hc Hrest]; subst.
    destruct skip as [|k]; [|by apply IH].
    destruct (find _ allowed) as [t|].
    + intros H. apply elem_of_cons in H as [H|H]; [by injection H as ->|].
      apply elem_of_cons in H as [H|H]; [discriminate|].
      by eapply IH; [constructor | | exact H].
    + apply IH; [|done]. apply Forall_app. split; [done | by constructor].
Qed.

Lemma encode_native_clean bpe text allowed e :
  has_surrogate text = false →
  encode_native bpe text allowed = Raise e → e = EnginePanic.
Proof.
  intros Hclean. unfold encode_native, rmap. intros H.
  destruct (rmapM _ _) as [?|e'] eqn:Hm; simpl in H; [discriminate|].
  injection H as <-. apply rmapM_Raise in Hm as (seg & Hin & Hseg).
  destruct seg as [s|t]; simpl in Hseg.
  - apply (encode_ordinary_native_clean bpe s); [|done].
    apply has_surrogate_false_Forall.
    eapply special_segments_ordinary; [constructor | | exact Hin].
    by apply has_surrogate_false_Forall.
  - destruct (special_tokens_encoder bpe !! t); [discriminate|]. congruence.
Qed.

Lemma has_surrogate_raises bpe text :
  has_surrogate text = true →
  CoreBPE_encode_ordinary bpe text = Raise UnicodeEncodeError
  ∧ ∀ allowed, CoreBPE_encode bpe text allowed = Raise UnicodeEncodeError.
Proof.
  intros H. unfold CoreBPE_encode_ordinary, CoreBPE_encode. by rewrite H.
Qed.

(** ** The repair through UTF-16 *)

Lemma utf16_decode_units_cons u rest :
  utf16_decode_units (u :: rest)
  = if negb (is_surrogate u) then u :: utf16_decode_units rest
    else if negb (is_high_surrogate u) then REPLACEMENT :: utf16_decode_units rest
    else match rest with
         | [] => [REPLACEMENT]
         | u2 :: rest2 =>
           if is_low_surrogate u2
           then (0x10000 + (u - 0xD800) * 1024 + (u2 - 0xDC00))
                  :: utf16_decode_units rest2
           else REPLACEMENT :: utf16_decode_units rest
         end.
Proof. reflexivity. Qed.

Lemma repair_surrogates_cons c rest :
  repair_surrogates (c :: rest)
  = if decide (high_surrogate c) then
      match rest with
      | [] => [0xFFFD]
      | c2 :: rest2 =>
        if decide (low_surrogate c2)
        then (0x10000 + (c - 0xD800) * 0x400 + (c2 - 0xDC00))
               :: repair_surrogates rest2
        else 0xFFFD :: repair_surrogates rest
      end
    else if decide (low_surrogate c) then 0xFFFD :: repair_surrogates rest
    else c :: repair_surrogates rest.
Proof. reflexivity. Qed.


Lemma decide_high_surrogate {A} c (x y : A) :
  (if decide (high_surrogate c) then x else y)
  = if is_high_surrogate c then x else y.
Proof.
  unfold high_surrogate, is_high_surrogate.
  destruct (decide (0xD800 ≤ c ≤ 0xDBFF)) as [[? ?]|H];
    destruct (Z.leb_spec 0xD800 c); destruct (Z.leb_spec c 0xDBFF);
    cbn [andb]; try reflexivity; lia.
Qed.

Lemma decide_low_surrogate {A} c (x y : A) :
  (if decide (low_surrogate c) then x else y)
  = if is_low_surrogate c then x else y.
Proof.
  unfold low_surrogate, is_low_surrogate.
  destruct (decide (0xDC00 ≤ c ≤ 0xDFFF)) as [[? ?]|H];
    destruct (Z.leb_spec 0xDC00 c); destruct (Z.leb_spec c 0xDFFF);
    cbn [andb]; try reflexivity; lia.
Qed.

Lemma is_surrogate_high_low c :
  is_surrogate c = is_high_surrogate c || is_low_surrogate c.
Proof.
  unfold is_surrogate, is_high_surrogate, is_low_surrogate.
  destruct (Z.leb_spec 0xD800 c); destruct (Z.leb_spec c 0xDFFF);
    destruct (Z.leb_spec c 0xDBFF); destruct (Z.leb_spec 0xDC00 c);
    cbn [andb orb]; try reflexivity; lia.
Qed.

Lemma is_high_low_surrogate c :
  is_high_surrogate c = true → is_low_surrogate c = false.
Proof.
  unfold is_high_surrogate, is_low_surrogate. intros H.
  apply andb_true_iff in H as [_ H]. apply Z.leb_le in H.
  destruct (Z.leb_spec 0xDC00 c); [lia | reflexivity].
Qed.

(** A code point beyond U+FFFF is written as a pair, which is read back
    as the code point. *)
Lemma utf16_pair c :
  0x10000 ≤ c → is_code_point c = true →
  let hi := 0xD800 + (c - 0x10000) / 1024 in
  let lo := 0xDC00 + (c - 0x10000) mod 1024 in
  is_high_surrogate hi = true ∧ is_low_surrogate lo = true
  ∧ 0x10000 + (hi - 0xD800) * 1024 + (lo - 0xDC00) = c.
Proof.
  intros Hlarge Hc hi lo. unfold is_code_point in Hc.
  apply andb_true_iff in Hc as [_ Hc]. apply Z.leb_le in Hc.
  subst hi lo. unfold is_high_surrogate, is_low_surrogate.
  rewrite !andb_true_iff, !Z.leb_le.
  repeat split; Z.div_mod_to_equations; lia.
Qed.

Lemma is_surrogate_large c : 0x10000 ≤ c → is_surrogate c = false.
Proof.
  intros H. unfold is_surrogate.
  destruct (Z.leb_spec c 0xDFFF); [lia | apply andb_false_r].
Qed.

Lemma utf16_decode_encode (n : nat) : ∀ text,
  (length text ≤ n)%nat → is_str text = true →
  utf16_decode_units (concat (utf16_encode_char <$> text)) = repair_surrogates text.
Proof.
  induction n as [|n IH]; intros text Hlen Hstr.
  { destruct text; [reflexivity | simpl in Hlen; lia]. }
  destruct text as [|c rest]; [reflexivity|].
  simpl in Hlen. cbn [is_str forallb] in Hstr.
  apply andb_true_iff in Hstr as [Hc Hrest].
  pose proof (IH rest ltac:(lia) Hrest) as IHrest.
  rewrite fmap_cons. cbn [concat]. rewrite repair_surrogates_cons.
  rewrite decide_high_surrogate, decide_low_surrogate.
  unfold utf16_encode_char at 1.
  destruct (Z.ltb_spec c 0x10000) as [Hsmall|Hlarge].
  - cbn [app]. rewrite utf16_decode_units_cons, is_surrogate_high_low.
    destruct (is_high_surrogate c) eqn:Hhigh; cbn [orb negb].
    + destruct rest as [|c2 rest2]; [reflexivity|].
      rewrite decide_low_surrogate.
      cbn [is_str forallb] in Hrest. apply andb_true_iff in Hrest as [Hc2 Hrest2].
      rewrite fmap_cons in IHrest |- *. cbn [concat] in IHrest |- *.
      unfold utf16_encode_char at 1 3. unfold utf16_encode_char at 1 in IHrest.
      destruct (Z.ltb_spec c2 0x10000) as [Hsmall2|Hlarge2].
      * cbn [app] in IHrest |- *.
        destruct (is_low_surrogate c2).
        -- f_equal. apply IH; [simpl in Hlen; lia | exact Hrest2].
        -- by rewrite IHrest.
      * cbn [app] in IHrest |- *.
        destruct (utf16_pair c2 Hlarge2 Hc2) as (Hhi & _ & _).
        rewrite (is_high_low_surrogate _ Hhi).
        replace (is_low_surrogate c2) with false.
        { by rewrite IHrest. }
        symmetry. pose proof (is_surrogate_large c2 Hlarge2) as Hs.
        rewrite is_surrogate_high_low in Hs. by apply orb_false_iff in Hs as [_ ?].
    + destruct (is_low_surrogate c); cbn [negb]; by rewrite IHrest.
  - cbn [app]. destruct (utf16_pair c Hlarge Hc) as (Hhi & Hlo & Hval).
    rewrite utf16_decode_units_cons, is_surrogate_high_low, Hhi. cbn [orb negb].
    rewrite Hlo, Hval, IHrest.
    pose proof (is_surrogate_large c Hlarge) as Hs.
    rewrite is_surrogate_high_low in Hs. apply orb_false_iff in Hs as [-> ->].
    reflexivity.
Qed.

(** The repair of the source is the repair of the spec. *)
Lemma surrogate_fallback_repair text :
  is_str text = true → surrogate_fallback text = repair_surrogates text.
Proof.
  intros Hstr.
  unfold surrogate_fallback, str_encode_utf16_surrogatepass,
    units_decode_utf16_replace.
  rewrite Z.eqb_refl. by eapply utf16_decode_encode.
Qed.

(** C5. On a string that holds a surrogate, [encode_ordinary] and [encode]
    (once its scan has passed) call the engine, get [UnicodeEncodeError],
    re-encode the text through UTF-16 with replacement, and call the engine
    once more: two calls in all, the result being the engine's on the
    repaired text. The repaired text is the text with every surrogate that
    is not half of a high-low pair replaced by U+FFFD, every such pair
    replaced by the character it stands for, and every other code point
    kept; it holds no surrogate. Neither method ever raises
    [UnicodeEncodeError]. *)
Theorem surrogate_fallback_retry enc text :
  has_surrogate text = true →
  let repaired := surrogate_fallback text in
  (is_str text = true → repaired = repair_surrogates text)
  ∧ has_surrogate repaired = false
  ∧ encode_ordinary enc text
    = ([Call_encode_ordinary text; Call_encode_ordinary repaired],
       encode_ordinary_native (_core_bpe enc) repaired)
  ∧ result_of (encode_ordinary enc text) ≠ Raise UnicodeEncodeError
  ∧ ∀ a d,
      result_of (encode enc text a d) ≠ Raise UnicodeEncodeError
      ∧ (_special_token_regex (resolve_disallowed enc a d) text = None →
         encode enc text a d
         = ([Call_encode text (resolve_allowed enc a);
             Call_encode repaired (resolve_allowed enc a)],
            encode_native (_core_bpe enc) repaired (resolve_allowed enc a))).
Proof.
  intros Hsur repaired.
  pose proof (surrogate_fallback_clean text) as Hclean. fold repaired in Hclean.
  destruct (has_surrogate_raises (_core_bpe enc) text Hsur) as [Hord Henc].
  assert (Hfirst : encode_ordinary enc text
            = ([Call_encode_ordinary text; Call_encode_ordinary repaired],
               encode_ordinary_native (_core_bpe enc) repaired)).
  { unfold encode_ordinary, try_except_UnicodeEncodeError, call. simpl.
    rewrite Hord. simpl. fold repaired.
    unfold CoreBPE_encode_ordinary. by rewrite Hclean. }
  assert (Hsecond : ∀ A,
            try_except_UnicodeEncodeError
              (call (Call_encode text A) (CoreBPE_encode (_core_bpe enc) text A))
              (call (Call_encode (surrogate_fallback text) A)
                    (CoreBPE_encode (_core_bpe enc) (surrogate_fallback text) A))
            = ([Call_encode text A; Call_encode repaired A],
               encode_native (_core_bpe enc) repaired A)).
  { intros A. unfold try_except_UnicodeEncodeError, call. simpl.
    rewrite Henc. simpl. fold repaired.
    unfold CoreBPE_encode. by rewrite Hclean. }
  split; [apply surrogate_fallback_repair|].
  split; [exact Hclean|]. split; [exact Hfirst|]. split.
  - rewrite Hfirst. simpl. intros H.
    by apply encode_ordinary_native_clean in H.
  - intros a d. rewrite encode_unfold.
    destruct (_special_token_regex _ text) as [m|].
    + split; [discriminate | discriminate].
    + rewrite Hsecond. split; [|reflexivity].
      simpl. intros H. by apply encode_native_clean in H.
Qed.

Lemma surrogate_fallback_retry_witness :
  surrogate_fallback [0x61; 0xD800; 0x62] = [0x61; 0xFFFD; 0x62]
  ∧ surrogate_fallback [0xDC00; 0xD83D; 0xDE00; 0xD83D] = [0xFFFD; 0x1F600; 0xFFFD]
  ∧ encode_ordinary sample_encoding [0x61; 0xD800; 0x62]
    = ([Call_encode_ordinary [0x61; 0xD800; 0x62];
        Call_encode_ordinary [0x61; 0xFFFD; 0x62]], Ok [0; 3; 4; 5; 1])
  ∧ encode sample_encoding [0x61; 0xD800; 0x62] (Allow ∅) DisallowAll
    = ([Call_encode [0x61; 0xD800; 0x62] ∅;
        Call_encode [0x61; 0xFFFD; 0x62] ∅], Ok [0; 3; 4; 5; 1]).
Proof.
  destruct (surrogate_fallback_retry sample_encoding [0x61; 0xD800; 0x62] eq_refl)
    as (Hrepair & _ & Hordinary & _ & Hencode).
  destruct (surrogate_fallback_retry sample_encoding
              [0xDC00; 0xD83D; 0xDE00; 0xD83D] eq_refl) as (Hpair & _).
  specialize (Hrepair eq_refl). specialize (Hpair eq_refl).
  split; [exact Hrepair|]. split; [exact Hpair|].
  destruct (Hencode (Allow ∅) DisallowAll) as [_ Hscanned].
  rewrite Hordinary, Hscanned by (vm_compute; reflexivity).
  rewrite Hrepair. split; vm_compute; reflexivity.
Defined.

(** ** UTF-8: decoding what was encoded *)

Lemma is_continuation_mod64 x : is_continuation (0x80 + x mod 64) = true.
Proof.
  pose proof (Z.mod_pos_bound x 64 ltac:(lia)). unfold is_continuation.
  destruct (Z.leb_spec 0x80 (0x80 + x mod 64)); [|lia].
  destruct (Z.ltb_spec (0x80 + x mod 64) 0xC0); [reflexivity | lia].
Qed.

Lemma is_scalar_bounds c :
  is_scalar c = true →
  0 ≤ c ≤ 0x10FFFF ∧ (c < 0xD800 ∨ 0xDFFF < c) ∧ is_surrogate c = false.
Proof.
  unfold is_scalar, is_code_point. intros H.
  apply andb_true_iff in H as [Hcp Hns].
  apply andb_true_iff in Hcp as [? ?]. apply negb_true_iff in Hns.
  split; [lia|]. split; [|exact Hns].
  unfold is_surrogate in Hns. apply andb_false_iff in Hns as [?|?]; lia.
Qed.

(** The decoder step reads back the code point that was encoded. *)
Lemma utf8_decode_step_encode c bs rest :
  is_scalar c = true → utf8_encode_char c = Some bs →
  utf8_decode_step (bs ++ rest) = Char c (length bs) ∧ (1 ≤ length bs)%nat.
Proof.
  intros Hc. destruct (is_scalar_bounds c Hc) as (Hrange & Hgap & Hns).
  unfold utf8_encode_char. rewrite Hns.
  destruct (Z.ltb_spec c 0x80) as [H1|H1].
  { intros [= <-]. simpl. split; [|lia].
    destruct (Z.ltb_spec c 0x80); [reflexivity | lia]. }
  destruct (Z.ltb_spec c 0x800) as [H2|H2].
  { intros [= <-]. split; [|simpl; lia].
    simpl app. unfold utf8_decode_step. rewrite is_continuation_mod64.
    Z.div_mod_to_equations. step_cases; try lia; simpl length; f_equal; lia. }
  destruct (Z.ltb_spec c 0x10000) as [H3|H3].
  { intros [= <-]. split; [|simpl; lia].
    simpl app. unfold utf8_decode_step. rewrite !is_continuation_mod64. simpl negb.
    Z.div_mod_to_equations. step_cases; try lia; simpl length; f_equal; lia. }
  intros [= <-]. split; [|simpl; lia].
  simpl app. unfold utf8_decode_step. rewrite !is_continuation_mod64. simpl negb.
  Z.div_mod_to_equations. step_cases; try lia; simpl length; f_equal; lia.
Qed.

Lemma utf8_decode_loop_nonempty fuel errors bs :
  bs ≠ [] →
  utf8_decode_loop (S fuel) errors bs
  = match utf8_decode_step bs with
    | Char c n => tl ←! utf8_decode_loop fuel errors (drop n bs); Ok (c :: tl)
    | Invalid n =>
      match errors with
      | Strict => Raise UnicodeDecodeError
      | Replace =>
        tl ←! utf8_decode_loop fuel errors (drop n bs); Ok (REPLACEMENT :: tl)
      end
    | Truncated =>
      match errors with
      | Strict => Raise UnicodeDecodeError
      | Replace => Ok [REPLACEMENT]
      end
    end.
Proof. destruct bs; [done | reflexivity]. Qed.

Lemma utf8_decode_loop_encode errors text : ∀ fuel bs,
  Forall (λ c, is_scalar c = true) text →
  str_encode_utf8 text = Ok bs → (length bs ≤ fuel)%nat →
  utf8_decode_loop fuel errors bs = Ok text.
Proof.
  induction text as [|c rest IH]; intros fuel bs Hall; simpl.
  - intros [= <-] _. by destruct fuel.
  - inversion Hall as [|? ? Hc Hrest]; subst.
    destruct (utf8_encode_char c) as [e|] eqn:He; [|discriminate].
    destruct (str_encode_utf8 rest) as [tl|] eqn:Htl; simpl; [|discriminate].
    intros [= <-] Hfuel.
    destruct (utf8_decode_step_encode c e tl Hc He) as [Hstep Hlen].
    rewrite length_app in Hfuel.
    destruct fuel as [|fuel]; [lia|].
    rewrite utf8_decode_loop_nonempty by (destruct e; [simpl in Hlen; lia | done]).
    rewrite Hstep, drop_app_length.
    rewrite (IH fuel tl Hrest eq_refl) by lia. reflexivity.
Qed.

Lemma bytes_decode_utf8_encode errors text bs :
  Forall (λ c, is_scalar c = true) text →
  str_encode_utf8 text = Ok bs → bytes_decode_utf8 errors bs = Ok text.
Proof.
  intros Hall Hbs. unfold bytes_decode_utf8.
  by apply (utf8_decode_loop_encode errors text).
Qed.

Lemma str_encode_utf8_app a b :
  str_encode_utf8 (a ++ b)
  = (x ←! str_encode_utf8 a; y ←! str_encode_utf8 b; Ok (x ++ y)).
Proof.
  induction a as [|c a IH]; simpl.
  - by destruct (str_encode_utf8 b).
  - destruct (utf8_encode_char c) as [e|]; [|reflexivity].
    rewrite IH. destruct (str_encode_utf8 a) as [x|]; simpl; [|reflexivity].
    destruct (str_encode_utf8 b) as [y|]; simpl; [|reflexivity].
    by rewrite app_assoc.
Qed.

(** ** The merge loop keeps the bytes and stays inside the rank table *)

Lemma merge_at_concat i (parts : list (list Z)) :
  concat (merge_at i parts) = concat parts.
Proof.
  revert i. induction parts as [|a rest IH]; intros i; [reflexivity|].
  destruct rest as [|b tl]; [reflexivity|].
  destruct i as [|i]; simpl.
  - by rewrite app_assoc.
  - f_equal. exact (IH i).
Qed.

Lemma min_rank_pair_cons ranks a b tl i :
  min_rank_pair ranks (a :: b :: tl) i
  = match ranks !! (a ++ b) with
    | Some r =>
      match min_rank_pair ranks (b :: tl) (S i) with
      | Some (r', j) => if r' <? r then Some (r', j) else Some (r, i)
      | None => Some (r, i)
      end
    | None => min_rank_pair ranks (b :: tl) (S i)
    end.
Proof. reflexivity. Qed.

Lemma min_rank_pair_Some ranks parts k r i :
  min_rank_pair ranks parts k = Some (r, i) →
  ∃ (j : nat) a b, i = (k + j)%nat ∧ parts !! j = Some a
                   ∧ parts !! S j = Some b ∧ ranks !! (a ++ b) = Some r.
Proof.
  revert k r i. induction parts as [|a rest IH]; intros k r i; [discriminate|].
  destruct rest as [|b tl]; [discriminate|].
  rewrite min_rank_pair_cons.
  assert (Hlater : ∀ r' i', min_rank_pair ranks (b :: tl) (S k) = Some (r', i') →
            ∃ (j : nat) a' b', i' = (k + j)%nat ∧ (a :: b :: tl) !! j = Some a'
              ∧ (a :: b :: tl) !! S j = Some b' ∧ ranks !! (a' ++ b') = Some r').
  { intros r' i' H. destruct (IH _ _ _ H) as (j & a' & b' & -> & Ha & Hb & Hr).
    exists (S j), a', b'. split; [lia|]. by repeat split. }
  destruct (ranks !! (a ++ b)) as [r0|] eqn:Hab.
  - destruct (min_rank_pair ranks (b :: tl) (S k)) as [[r' j']|] eqn:Hrest.
    + destruct (r' <? r0).
      * intros [= <- <-]. by apply Hlater.
      * intros [= <- <-]. exists O, a, b. split; [lia|]. by repeat split.
    + intros [= <- <-]. exists O, a, b. split; [lia|]. by repeat split.
  - intros H. by apply Hlater.
Qed.

Lemma merge_at_ranked ranks j (parts : list (list Z)) a b :
  Forall (ranked ranks) parts →
  parts !! j = Some a → parts !! S j = Some b → ranked ranks (a ++ b) →
  Forall (ranked ranks) (merge_at j parts).
Proof.
  revert j. induction parts as [|x rest IH]; intros j Hall Ha Hb Hab; [done|].
  destruct rest as [|y tl]; [done|].
  inversion Hall as [|? ? Hx Hrest]; subst.
  destruct j as [|j]; simpl in *.
  - injection Ha as ->. injection Hb as ->.
    inversion Hrest; subst. by constructor.
  - constructor; [done|]. by apply (IH j).
Qed.

Lemma byte_pair_merge_inv fuel ranks parts :
  Forall (ranked ranks) parts →
  concat (byte_pair_merge fuel ranks parts) = concat parts
  ∧ Forall (ranked ranks) (byte_pair_merge fuel ranks parts).
Proof.
  revert parts. induction fuel as [|fuel IH]; intros parts Hall; simpl; [done|].
  destruct (min_rank_pair ranks parts 0) as [[r i]|] eqn:Hmin; [|done].
  destruct (min_rank_pair_Some _ _ _ _ _ Hmin) as (j & a & b & -> & Ha & Hb & Hr).
  simpl. destruct (IH (merge_at j parts)) as [Hcat Hranked].
  { eapply merge_at_ranked; eauto. by eexists. }
  split; [|done]. by rewrite Hcat, merge_at_concat.
Qed.

(** ** Decoding the tokens of the engine *)

Lemma decoder_lookup bpe group r :
  unique_ranks (encoder bpe) → encoder bpe !! group = Some r →
  decoder bpe !! r = Some group.
Proof.
  intros Hnd Hr. unfold decoder. apply elem_of_list_to_map.
  - rewrite <- list_fmap_compose.
    replace (fst ∘ prod_swap) with (snd : list Z * Z → Z); [exact Hnd|].
    reflexivity.
  - apply list_elem_of_fmap. exists (group, r). split; [done|].
    by apply elem_of_map_to_list.
Qed.

Lemma CoreBPE_decode_bytes_app bpe t1 t2 b1 b2 :
  CoreBPE_decode_bytes bpe t1 = Ok b1 → CoreBPE_decode_bytes bpe t2 = Ok b2 →
  CoreBPE_decode_bytes bpe (t1 ++ t2) = Ok (b1 ++ b2).
Proof.
  unfold CoreBPE_decode_bytes, rmap.
  destruct (rmapM _ t1) as [g1|] eqn:H1; simpl; [|discriminate].
  destruct (rmapM _ t2) as [g2|] eqn:H2; simpl; [|discriminate].
  intros [= <-] [= <-]. rewrite (rmapM_app _ _ _ _ _ H1 H2). simpl.
  by rewrite concat_app.
Qed.

(** One piece: the tokens exist and decode to the bytes of the piece. *)
Lemma byte_pair_encode_decode bpe bs :
  unique_ranks (encoder bpe) →
  Forall (λ b, ranked (encoder bpe) [b]) bs →
  ∃ tokens, byte_pair_encode (encoder bpe) bs = Ok tokens
            ∧ CoreBPE_decode_bytes bpe tokens = Ok bs.
Proof.
  intros Hnd Hbs. unfold byte_pair_encode.
  set (start := (λ b, [b]) <$> bs).
  assert (Hstart : Forall (ranked (encoder bpe)) start).
  { unfold start. by apply Forall_fmap. }
  assert (Hcat : concat start = bs).
  { unfold start. clear. induction bs as [|b bs IH]; simpl; [done | by f_equal]. }
  destruct (byte_pair_merge_inv (length bs) _ _ Hstart) as [Hsame Hranked].
  rewrite Hcat in Hsame. revert Hsame Hranked.
  generalize (byte_pair_merge (length bs) (encoder bpe) start).
  intros groups <- Hranked. clear -Hnd Hranked.
  induction groups as [|g groups IH]; simpl.
  - exists []. by split.
  - inversion Hranked as [|? ? [r Hr] Hrest]; subst.
    destruct (IH Hrest) as (tokens & Htok & Hdec).
    exists (r :: tokens). unfold rank_of at 1. rewrite Hr. simpl.
    rewrite Htok. simpl. split; [done|].
    apply (CoreBPE_decode_bytes_app bpe [r] tokens g (concat groups)); [|done].
    unfold CoreBPE_decode_bytes, CoreBPE_decode_single_token_bytes. simpl.
    rewrite (decoder_lookup bpe g r Hnd Hr). simpl. by rewrite app_nil_r.
Qed.

(** All the pieces: the tokens decode to the UTF-8 bytes of the pieces put
    together. *)
Lemma encode_pieces_decode bpe (ps : list (list Z)) bs :
  unique_ranks (encoder bpe) →
  str_encode_utf8 (concat ps) = Ok bs →
  Forall (λ b, ranked (encoder bpe) [b]) bs →
  ∃ tokenss,
    rmapM (λ piece, pbs ←! str_encode_utf8 piece;
                    byte_pair_encode (encoder bpe) pbs) ps = Ok tokenss
    ∧ CoreBPE_decode_bytes bpe (concat tokenss) = Ok bs.
Proof.
  intros Hnd. revert bs. induction ps as [|p ps IH]; intros bs; simpl.
  - intros [= <-] _. exists []. by split.
  - rewrite str_encode_utf8_app.
    destruct (str_encode_utf8 p) as [pbs|] eqn:Hp; simpl; [|discriminate].
    destruct (str_encode_utf8 (concat ps)) as [rest|] eqn:Hrest; simpl; [|discriminate].
    intros [= <-] Hall. apply Forall_app in Hall as [Hpbs Hrestr].
    destruct (byte_pair_encode_decode bpe pbs Hnd Hpbs) as (tokens & Htok & Hdec).
    destruct (IH rest eq_refl Hrestr) as (tokenss & Htoks & Hdecs).
    exists (tokens :: tokenss). rewrite Htok. simpl. rewrite Htoks. simpl.
    split; [done|]. by apply CoreBPE_decode_bytes_app.
Qed.

(** The round trip, for a text without surrogates whether or not it holds
    special-token literals: [encode_ordinary] does not look for them. *)
Lemma encode_ordinary_round_trip enc text bs :
  Forall (λ c, is_scalar c = true) text →
  concat (pieces (_core_bpe enc) text) = text →
  unique_ranks (encoder (_core_bpe enc)) →
  str_encode_utf8 text = Ok bs →
  Forall (λ b, ranked (encoder (_core_bpe enc)) [b]) bs →
  ∃ tokens,
    encode_ordinary enc text = ([Call_encode_ordinary text], Ok tokens)
    ∧ decode_bytes enc tokens = Ok bs
    ∧ ∀ errors, decode enc tokens errors = Ok text.
Proof.
  intros Hscalar Hcover Hnd Hbs Hranked.
  assert (Hclean : has_surrogate text = false).
  { apply has_surrogate_false_Forall. eapply Forall_impl; [exact Hscalar|].
    intros c Hc. by destruct (is_scalar_bounds c Hc) as (_ & _ & ?). }
  destruct (encode_pieces_decode (_core_bpe enc) (pieces (_core_bpe enc) text) bs)
    as (tokenss & Htoks & Hdec); [done | by rewrite Hcover | done |].
  exists (concat tokenss). split; [|split].
  - unfold encode_ordinary, try_except_UnicodeEncodeError, call,
      CoreBPE_encode_ordinary, encode_ordinary_native.
    simpl. rewrite Hclean, Htoks. reflexivity.
  - exact Hdec.
  - intros errors. unfold decode, decode_bytes. rewrite Hdec. simpl.
    by apply bytes_decode_utf8_encode.
Qed.

(** C1, as amended. For a text without special-token literals and without
    surrogates, over a well-formed vocabulary (distinct ranks, a rank for
    every byte of the text) and a pattern whose pieces make up the text,
    [decode(encode_ordinary(text))] is [text], under either decoding
    policy. *)
Theorem decode_encode_ordinary enc text bs :
  _special_token_regex (special_tokens_set enc) text = None →
  Forall (λ c, is_scalar c = true) text →
  concat (pieces (_core_bpe enc) text) = text →
  unique_ranks (encoder (_core_bpe enc)) →
  str_encode_utf8 text = Ok bs →
  Forall (λ b, ranked (encoder (_core_bpe enc)) [b]) bs →
  ∃ tokens,
    result_of (encode_ordinary enc text) = Ok tokens
    ∧ ∀ errors, decode enc tokens errors = Ok text.
Proof.
  intros _ Hscalar Hcover Hnd Hbs Hranked.
  destruct (encode_ordinary_round_trip enc text bs Hscalar Hcover Hnd Hbs Hranked)
    as (tokens & Henc & _ & Hdec).
  exists tokens. rewrite Henc. by split.
Qed.

Lemma decode_encode_ordinary_witness :
  ∃ tokens,
    result_of (encode_ordinary sample_encoding (py "abba")) = Ok tokens
    ∧ decode sample_encoding tokens Replace = Ok (py "abba").
Proof.
  destruct (decode_encode_ordinary sample_encoding (py "abba") (py "abba"))
    as (tokens & Henc & Hdec).
  - vm_compute. reflexivity.
  - by_compute.
  - vm_compute. reflexivity.
  - by_compute.
  - vm_compute. reflexivity.
  - by_compute.
  - exists tokens. split; [exact Henc | exact (Hdec Replace)].
Defined.

(** The scenario of the spec: with ranks [a], [b], [ab], the text "ab"
    is the single token 2, which decodes to "ab". *)
Example scenario_merge :
  result_of (encode_ordinary sample_encoding (py "ab")) = Ok [2]
  ∧ decode sample_encoding [2] Replace = Ok (py "ab").
Proof. split; vm_compute; reflexivity. Qed.

(** C1 as stated fails on a text with a lone surrogate: no special-token
    literal occurs in it, yet it comes back as U+FFFD. *)
Lemma decode_encode_ordinary_surrogate :
  _special_token_regex (special_tokens_set sample_encoding) [0xD800] = None
  ∧ result_of (encode_ordinary sample_encoding [0xD800]) = Ok [3; 4; 5]
  ∧ decode sample_encoding [3; 4; 5] Replace = Ok [0xFFFD]
  ∧ decode sample_encoding [3; 4; 5] Replace ≠ Ok [0xD800].
Proof.
  split; [vm_compute; reflexivity|].
  split; [vm_compute; reflexivity|].
  split; [vm_compute; reflexivity|].
  vm_compute. discriminate.
Qed.

(** ** Special tokens: the scan and the recognised literal *)

Lemma regex_search_unfold tokens text :
  regex_search tokens text
  = match find (λ t, is_prefix t text) tokens with
    | Some t => Some t
    | None =>
      match text with
      | [] => None
      | _ :: rest => regex_search tokens rest
      end
    end.
Proof. by destruct text. Qed.

(** The search finds the leftmost position at which a literal starts, and
    nothing when no literal starts anywhere. *)
Lemma regex_search_spec tokens text :
  match regex_search tokens text with
  | Some m =>
    m ∈ tokens
    ∧ ∃ k : nat, (k ≤ length text)%nat ∧ is_prefix m (drop k text) = true
        ∧ ∀ t (j : nat), t ∈ tokens → (j < k)%nat →
            is_prefix t (drop j text) = false
  | None => ∀ t (k : nat), t ∈ tokens → is_prefix t (drop k text) = false
  end.
Proof.
  induction text as [|c rest IH]; rewrite regex_search_unfold.
  - destruct (find _ tokens) as [m|] eqn:Hfind.
    + apply find_some in Hfind as [Hin Hpre]. split; [by apply list_elem_of_In|].
      exists O. split; [done|]. split; [done|]. intros; lia.
    + intros t k Ht. rewrite drop_nil.
      apply (find_none _ _ Hfind t). by apply list_elem_of_In.
  - destruct (find _ tokens) as [m|] eqn:Hfind.
    + apply find_some in Hfind as [Hin Hpre]. split; [by apply list_elem_of_In|].
      exists O. split; [simpl; lia|]. split; [done|]. intros; lia.
    + pose proof (find_none _ _ Hfind) as Hhere.
      destruct (regex_search tokens rest) as [m|].
      * destruct IH as (Hin & k & Hk & Hpre & Hleft). split; [done|].
        exists (S k). split; [simpl; lia|]. split; [done|].
        intros t j Ht Hj. destruct j as [|j].
        -- apply Hhere. by apply list_elem_of_In.
        -- apply Hleft; [done | lia].
      * intros t k Ht. destruct k as [|k].
        -- apply Hhere. by apply list_elem_of_In.
        -- by apply IH.
Qed.

Lemma find_filter {A} (f : A → bool) (l : list A) :
  find f l = head (filter (λ x, f x = true) l).
Proof.
  induction l as [|x l IH]; [reflexivity|].
  simpl. rewrite filter_cons. destruct (f x) eqn:Hx.
  - by rewrite decide_True.
  - by rewrite decide_False.
Qed.

(** The search returns the literal of the first occurrence. *)
Lemma regex_search_occurrences tokens p text :
  regex_search tokens text = snd <$> head (occurrences tokens p text).
Proof.
  revert p. induction text as [|c rest IH]; intros p.
  - simpl. rewrite find_filter.
    by destruct (filter _ tokens).
  - cbn [regex_search occurrences]. rewrite find_filter.
    destruct (filter _ tokens) as [|t l]; simpl; [apply IH | reflexivity].
Qed.













(** * Further properties of the code *)

(** ** When the scan raises *)

(** X1. [encode] raises the disallowed-token error exactly when some literal
    of the resolved disallowed set starts somewhere in the text. The literal
    it names belongs to that set and starts at the leftmost position where
    one of them does, and the engine has not been called. *)
Theorem encode_raises_iff_disallowed_occurs enc text a d :
  ((∃ m, result_of (encode enc text a d) = Raise (DisallowedSpecialToken m))
   ↔ ∃ t (k : nat), t ∈ resolve_disallowed enc a d
                    ∧ is_prefix t (drop k text) = true)
  ∧ ∀ m, result_of (encode enc text a d) = Raise (DisallowedSpecialToken m) →
      calls_of (encode enc text a d) = []
      ∧ m ∈ resolve_disallowed enc a d
      ∧ ∃ k : nat, (k ≤ length text)%nat ∧ is_prefix m (drop k text) = true
          ∧ ∀ t (j : nat), t ∈ resolve_disallowed enc a d → (j < k)%nat →
              is_prefix t (drop j text) = false.
Proof.
  rewrite encode_unfold. unfold _special_token_regex.
  pose proof (regex_search_spec (elements (resolve_disallowed enc a d)) text) as Hspec.
  destruct (regex_search _ text) as [m0|].
  - destruct Hspec as (Hin & k & Hk & Hpre & Hleft).
    apply elem_of_elements in Hin. split.
    + split; [|by eauto]. intros _. by exists m0, k.
    + intros m [= <-]. split; [done|]. split; [done|].
      exists k. split; [done|]. split; [done|].
      intros t j Ht. apply Hleft. by apply elem_of_elements.
  - split.
    + split.
      * intros [m H]. exfalso.
        apply try_except_result in H as [H|H]; simpl in H;
          apply CoreBPE_encode_Raise in H; by apply engine_error_not_disallowed in H.
      * intros (t & k & Ht & Hpre). apply elem_of_elements in Ht.
        by rewrite (Hspec t k Ht) in Hpre.
    + intros m H. exfalso.
      apply try_except_result in H as [H|H]; simpl in H;
        apply CoreBPE_encode_Raise in H; by apply engine_error_not_disallowed in H.
Qed.

Lemma encode_raises_iff_disallowed_occurs_witness :
  ∃ m, result_of (encode sample_encoding (py "a<b>") (Allow ∅) DisallowAll)
       = Raise (DisallowedSpecialToken m).
Proof.
  apply (proj2 (proj1 (encode_raises_iff_disallowed_occurs sample_encoding
                         (py "a<b>") (Allow ∅) DisallowAll))).
  exists (py "<b>"), 1%nat. split; [by_compute | reflexivity].
Defined.

(** X2. With [allowed_special="all"] and the default
    [disallowed_special="all"], and with an empty [disallowed_special]
    whatever is allowed, [encode] never raises the disallowed-token
    error. *)
Theorem encode_never_raises_when_nothing_disallowed enc text m :
  result_of (encode enc text AllowAll DisallowAll)
    ≠ Raise (DisallowedSpecialToken m)
  ∧ ∀ a, result_of (encode enc text a (Disallow (ListOf [])))
           ≠ Raise (DisallowedSpecialToken m)
         ∧ result_of (encode enc text a (Disallow (SetOf ∅)))
           ≠ Raise (DisallowedSpecialToken m).
Proof.
  assert (Hnone : ∀ a d, resolve_disallowed enc a d = ∅ →
            result_of (encode enc text a d) ≠ Raise (DisallowedSpecialToken m)).
  { intros a d Hempty H. rewrite encode_unfold, Hempty in H.
    unfold _special_token_regex in H.
    rewrite elements_empty, regex_search_nil in H.
    apply try_except_result in H as [H|H]; simpl in H;
      apply CoreBPE_encode_Raise in H; by apply engine_error_not_disallowed in H. }
  split; [|split]; apply Hnone; simpl; [apply difference_diag_L | done..].
Qed.

(** X3. [eot_token] reads the entry of the empty string. If the
    special-token table has that entry, the empty literal starts at
    position 0 of every text, so [encode] with its defaults raises the
    disallowed-token error on every text, the empty one included, without
    calling the engine. *)
Theorem encode_default_rejects_all_with_empty_special enc id text :
  _special_tokens enc !! [] = Some id →
  eot_token enc = Ok id
  ∧ ∃ m, encode_default enc text = ([], Raise (DisallowedSpecialToken m)).
Proof.
  intros Hid. split; [unfold eot_token; by rewrite Hid|].
  unfold encode_default. rewrite encode_unfold. simpl resolve_disallowed.
  rewrite difference_empty_L. unfold _special_token_regex.
  pose proof (regex_search_spec (elements (special_tokens_set enc)) text) as Hspec.
  destruct (regex_search _ text) as [m|]; [by exists m|].
  exfalso.
  assert (Hin : [] ∈ elements (special_tokens_set enc)).
  { apply elem_of_elements. by eapply elem_of_dom_2. }
  by specialize (Hspec [] O Hin).
Qed.

Lemma encode_default_rejects_all_with_empty_special_witness :
  ∃ m, encode_default
         {| name := "eot"; _pat_str := whole_text;
            _mergeable_ranks := sample_ranks;
            _special_tokens := {[ [] := 6 ]};
            max_token_value := 6;
            _core_bpe := sample_bpe |} (py "ab")
       = ([], Raise (DisallowedSpecialToken m)).
Proof.
  exact (proj2 (encode_default_rejects_all_with_empty_special
                  {| name := "eot"; _pat_str := whole_text;
                     _mergeable_ranks := sample_ranks;
                     _special_tokens := {[ [] := 6 ]};
                     max_token_value := 6;
                     _core_bpe := sample_bpe |} 6 (py "ab") eq_refl)).
Defined.

(** ** [encode] without an allowed special token is [encode_ordinary] *)

Lemma special_segments_no_literal acc text :
  special_segments [] O acc text = [Ordinary (acc ++ text)].
Proof.
  revert acc. induction text as [|c rest IH]; intros acc; simpl.
  - by rewrite app_nil_r.
  - by rewrite IH, <- app_assoc.
Qed.

Lemma encode_native_no_allowed bpe text allowed :
  allowed ∩ dom (special_tokens_encoder bpe) = ∅ →
  encode_native bpe text allowed = encode_ordinary_native bpe text.
Proof.
  intros Hdisj. unfold encode_native. rewrite Hdisj, elements_empty.
  rewrite special_segments_no_literal. simpl.
  destruct (encode_ordinary_native bpe text) as [tokens|e]; simpl; [|done].
  by rewrite app_nil_r.
Qed.

(** X4. When none of the allowed strings is a special token of the engine
    (the default [allowed_special=set()] for one) and the scan passes,
    [encode] returns what [encode_ordinary] returns, surrogate fallback
    included. *)
Theorem encode_without_allowed_is_encode_ordinary enc text a d :
  resolve_allowed enc a ∩ dom (special_tokens_encoder (_core_bpe enc)) = ∅ →
  _special_token_regex (resolve_disallowed enc a d) text = None →
  result_of (encode enc text a d) = result_of (encode_ordinary enc text).
Proof.
  intros Hdisj Hscan. rewrite encode_unfold, Hscan.
  unfold encode_ordinary, try_except_UnicodeEncodeError, call,
    CoreBPE_encode, CoreBPE_encode_ordinary. simpl.
  rewrite !(encode_native_no_allowed _ _ _ Hdisj).
  destruct (has_surrogate text); simpl; [reflexivity|].
  by destruct (encode_ordinary_native (_core_bpe enc) text) as [|[]].
Qed.

Lemma encode_without_allowed_is_encode_ordinary_witness :
  result_of (encode sample_encoding (py "abba") (Allow ∅) DisallowAll)
  = result_of (encode_ordinary sample_encoding (py "abba")).
Proof.
  apply encode_without_allowed_is_encode_ordinary.
  - by_compute.
  - vm_compute. reflexivity.
Defined.

(** ** Decoding *)

(** With [errors="replace"] the UTF-8 decoder always returns. *)
Lemma utf8_decode_loop_replace_total fuel bs :
  ∃ text, utf8_decode_loop fuel Replace bs = Ok text.
Proof.
  revert bs. induction fuel as [|fuel IH]; intros bs.
  - destruct bs; simpl; eauto.
  - destruct bs as [|b rest]; [simpl; eauto|].
    rewrite utf8_decode_loop_S.
    destruct (utf8_decode_step (b :: rest)) as [c n|n|]; [| |eauto].
    + destruct (IH (drop n (b :: rest))) as [tl ->]. simpl. eauto.
    + destruct (IH (drop n (b :: rest))) as [tl ->]. simpl. eauto.
Qed.

(** What the strict decoder returns, the replacing one returns too. *)
Lemma utf8_decode_loop_strict_replace fuel bs text :
  utf8_decode_loop fuel Strict bs = Ok text →
  utf8_decode_loop fuel Replace bs = Ok text.
Proof.
  revert bs text. induction fuel as [|fuel IH]; intros bs text.
  - by destruct bs.
  - destruct bs as [|b rest]; [done|].
    rewrite !utf8_decode_loop_S.
    destruct (utf8_decode_step (b :: rest)) as [c n|n|]; [|done..].
    destruct (utf8_decode_loop fuel Strict (drop n (b :: rest))) as [tl|] eqn:Htl;
      simpl; [|done].
    intros [= <-]. by rewrite (IH _ _ Htl).
Qed.

Lemma CoreBPE_decode_bytes_Raise bpe tokens e :
  CoreBPE_decode_bytes bpe tokens = Raise e →
  ∃ t, t ∈ tokens ∧ e = KeyError_token t
       ∧ CoreBPE_decode_single_token_bytes bpe t = Raise e.
Proof.
  unfold CoreBPE_decode_bytes, rmap. intros H.
  destruct (rmapM _ tokens) as [?|e'] eqn:Hm; simpl in H; [discriminate|].
  injection H as <-. apply rmapM_Raise in Hm as (t & Hin & Ht).
  exists t. split; [done|]. split; [|done].
  unfold CoreBPE_decode_single_token_bytes in Ht.
  destruct (decoder bpe !! t); [discriminate|].
  destruct (special_tokens_decoder bpe !! t); [discriminate|]. congruence.
Qed.

Lemma decode_strict_replace enc tokens text :
  decode enc tokens Strict = Ok text → decode enc tokens Replace = Ok text.
Proof.
  unfold decode, bytes_decode_utf8.
  destruct (decode_bytes enc tokens) as [bs|]; simpl; [|done].
  apply utf8_decode_loop_strict_replace.
Qed.

(** X5. [decode] with its default [errors="replace"] returns a string
    whenever every token has a byte value; the only exception it can raise
    is the [KeyError] of a token of the list that has none. With
    [errors="strict"] it can also raise a decoding error, and when it
    returns, the default policy returns the same string. *)
Theorem decode_replace_total enc tokens :
  (∀ bs, decode_bytes enc tokens = Ok bs →
         ∃ text, decode enc tokens Replace = Ok text)
  ∧ (∀ e, decode enc tokens Replace = Raise e →
          ∃ t, t ∈ tokens ∧ e = KeyError_token t
               ∧ decode_single_token_bytes enc t = Raise e)
  ∧ (∀ text, decode enc tokens Strict = Ok text →
             decode enc tokens Replace = Ok text).
Proof.
  unfold decode, decode_bytes, decode_single_token_bytes, bytes_decode_utf8.
  split; [|split].
  - intros bs ->. simpl. apply utf8_decode_loop_replace_total.
  - intros e.
    destruct (CoreBPE_decode_bytes (_core_bpe enc) tokens) as [bs|e'] eqn:Hbs; simpl.
    + destruct (utf8_decode_loop_replace_total (length bs) bs) as [text ->].
      discriminate.
    + intros [= <-]. by apply CoreBPE_decode_bytes_Raise.
  - intros text.
    destruct (CoreBPE_decode_bytes (_core_bpe enc) tokens) as [bs|]; simpl; [|done].
    apply utf8_decode_loop_strict_replace.
Qed.

Lemma decode_replace_total_witness :
  ∃ text, decode sample_encoding [3; 0] Replace = Ok text.
Proof.
  apply (proj1 (decode_replace_total sample_encoding [3; 0]) [0xEF; 0x61]).
  vm_compute. reflexivity.
Defined.

(** The bytes of a concatenation of token lists are the bytes of the first
    followed by the bytes of the second, and the first list to fail decides
    the exception. *)
Lemma decode_bytes_app enc tokens1 tokens2 :
  decode_bytes enc (tokens1 ++ tokens2)
  = (bs1 ←! decode_bytes enc tokens1;
     bs2 ←! decode_bytes enc tokens2;
     Ok (bs1 ++ bs2)).
Proof.
  unfold decode_bytes, CoreBPE_decode_bytes, rmap.
  induction tokens1 as [|t tokens1 IH]; simpl.
  - destruct (rmapM _ tokens2); reflexivity.
  - destruct (CoreBPE_decode_single_token_bytes (_core_bpe enc) t) as [bs|];
      simpl; [|reflexivity].
    destruct (rmapM _ tokens1) as [g1|] eqn:H1; simpl in IH |- *.
    + destruct (rmapM _ (tokens1 ++ tokens2)) as [g|] eqn:H12; simpl in IH |- *.
      * destruct (rmapM _ tokens2) as [g2|]; simpl in IH |- *; [|discriminate].
        injection IH as IH. by rewrite IH, app_assoc.
      * destruct (rmapM _ tokens2) as [g2|]; simpl in IH |- *; [discriminate|].
        exact IH.
    + destruct (rmapM _ (tokens1 ++ tokens2)) as [g|]; simpl in IH |- *;
        [discriminate | exact IH].
Qed.

(** A decoded character is never a surrogate. *)
Lemma utf8_decode_step_not_surrogate bs c n :
  utf8_decode_step bs = Char c n → is_surrogate c = false.
Proof.
  unfold utf8_decode_step. destruct bs as [|b0 rest]; [discriminate|].
  step_cases; intros Hstep; try discriminate Hstep; injection Hstep as <- _;
    repeat match goal with
           | Hc : is_continuation _ = true |- _ =>
             unfold is_continuation in Hc; apply andb_true_iff in Hc as [? ?]
           end;
    unfold is_surrogate;
    match goal with
    | |- (?lo <=? ?x) && (?x <=? ?hi) = false =>
      destruct (Z.leb_spec lo x); destruct (Z.leb_spec x hi); try reflexivity; lia
    end.
Qed.

Lemma utf8_decode_loop_clean fuel errors bs text :
  utf8_decode_loop fuel errors bs = Ok text → has_surrogate text = false.
Proof.
  revert bs text. induction fuel as [|fuel IH]; intros bs text.
  - destruct bs; simpl; by intros [= <-].
  - destruct bs as [|b rest]; [simpl; by intros [= <-]|].
    rewrite utf8_decode_loop_S.
    destruct (utf8_decode_step (b :: rest)) as [c n|n|] eqn:Hstep.
    + destruct (utf8_decode_loop fuel errors (drop n (b :: rest))) as [tl|] eqn:Htl;
        simpl; [|done].
      intros [= <-]. simpl.
      by rewrite (utf8_decode_step_not_surrogate _ _ _ Hstep), (IH _ _ Htl).
    + destruct errors; [done|].
      destruct (utf8_decode_loop fuel Replace (drop n (b :: rest))) as [tl|] eqn:Htl;
        simpl; [|done].
      intros [= <-]. simpl. by rewrite (IH _ _ Htl).
    + destruct errors; [done|]. by intros [= <-].
Qed.

(** X6. A string that [decode] returns, under either policy, holds no
    surrogate; encoding it again therefore calls the engine once, never
    taking the fallback. *)
Theorem decode_returns_no_surrogate enc tokens errors text :
  decode enc tokens errors = Ok text →
  has_surrogate text = false
  ∧ calls_of (encode_ordinary enc text) = [Call_encode_ordinary text]
  ∧ ∀ a d, _special_token_regex (resolve_disallowed enc a d) text = None →
           calls_of (encode enc text a d) = [Call_encode text (resolve_allowed enc a)].
Proof.
  unfold decode. intros H.
  destruct (decode_bytes enc tokens) as [bs|]; simpl in H; [|done].
  apply utf8_decode_loop_clean in H as Hclean.
  split; [done|]. split.
  - unfold encode_ordinary, try_except_UnicodeEncodeError, call,
      CoreBPE_encode_ordinary. simpl. rewrite Hclean.
    destruct (encode_ordinary_native (_core_bpe enc) text) as [|e] eqn:He; [done|].
    by rewrite (encode_ordinary_native_clean _ _ _ Hclean He).
  - intros a d Hscan. rewrite encode_unfold, Hscan.
    unfold try_except_UnicodeEncodeError, call, CoreBPE_encode. simpl.
    rewrite Hclean.
    destruct (encode_native (_core_bpe enc) text (resolve_allowed enc a))
      as [|e] eqn:He; [done|].
    by rewrite (encode_native_clean _ _ _ _ Hclean He).
Qed.

Lemma decode_returns_no_surrogate_witness :
  has_surrogate [0x61; 0xFFFD] = false
  ∧ calls_of (encode_ordinary sample_encoding [0x61; 0xFFFD])
    = [Call_encode_ordinary [0x61; 0xFFFD]].
Proof.
  destruct (decode_returns_no_surrogate sample_encoding [0; 3] Replace
              [0x61; 0xFFFD] ltac:(vm_compute; reflexivity)) as (H1 & H2 & _).
  by split.
Defined.

(** X7. [decode_with_offsets] raises [IndexError] as soon as a token has no
    bytes (the empty special token that [eot_token] reads is one), although
    [decode] accepts such a list; when every token has a byte, it returns
    the string of the strict [decode]. *)
Theorem decode_with_offsets_empty_token enc tokens token_bytes :
  decode_tokens_bytes enc tokens = Ok token_bytes →
  ([] ∈ token_bytes → decode_with_offsets enc tokens = Raise IndexError)
  ∧ (Forall (λ token, token ≠ []) token_bytes →
     ∃ offsets,
       offsets_loop token_bytes 0 [] = Ok offsets
       ∧ decode_with_offsets enc tokens
         = (text ←! decode enc tokens Strict; Ok (text, offsets)))
  ∧ decode_bytes enc tokens = Ok (concat token_bytes).
Proof.
  intros Hbytes. split; [|split].
  - intros Hempty. unfold decode_with_offsets. rewrite Hbytes. simpl.
    assert (Hloop : ∀ len acc, offsets_loop token_bytes len acc = Raise IndexError).
    { clear Hbytes. induction token_bytes as [|token rest IH]; intros len acc.
      - by apply elem_of_nil in Hempty.
      - destruct token as [|b token']; [reflexivity|].
        apply elem_of_cons in Hempty as [?|Hin]; [done|].
        simpl. by apply IH. }
    by rewrite Hloop.
  - intros Hne.
    destruct (offsets_loop_spec token_bytes [] [] Hne) as (offsets & Hloop & _).
    change (offsets_loop token_bytes 0 [] = Ok offsets) in Hloop.
    exists offsets. split; [done|].
    assert (Hraw : rmapM (CoreBPE_decode_single_token_bytes (_core_bpe enc)) tokens
                   = Ok token_bytes) by exact Hbytes.
    unfold decode_with_offsets, decode, decode_bytes, CoreBPE_decode_bytes.
    rewrite Hbytes, Hraw. simpl. rewrite Hloop. reflexivity.
  - assert (Hraw : rmapM (CoreBPE_decode_single_token_bytes (_core_bpe enc)) tokens
                   = Ok token_bytes) by exact Hbytes.
    unfold decode_bytes, CoreBPE_decode_bytes. by rewrite Hraw.
Qed.

Lemma decode_with_offsets_empty_token_witness :
  decode_with_offsets
    {| name := "eot"; _pat_str := whole_text;
       _mergeable_ranks := sample_ranks;
       _special_tokens := {[ [] := 6 ]};
       max_token_value := 6;
       _core_bpe := {| encoder := sample_ranks;
                       special_tokens_encoder := {[ [] := 6 ]};
                       pat := whole_text;
                       unstable_completions := no_completions |} |} [0; 6]
  = Raise IndexError.
Proof.
  refine (proj1 (decode_with_offsets_empty_token _ [0; 6] [py "a"; []] _) _).
  - vm_compute. reflexivity.
  - by_compute.
Defined.

(** ** Methods without the surrogate fallback *)

Lemma str_encode_utf8_surrogate text :
  has_surrogate text = true → str_encode_utf8 text = Raise UnicodeEncodeError.
Proof.
  induction text as [|c rest IH]; [discriminate|]. simpl.
  destruct (is_surrogate c) eqn:Hc; simpl.
  - intros _. unfold utf8_encode_char. rewrite Hc.
    unfold is_surrogate in Hc. apply andb_true_iff in Hc as [Hlo _].
    destruct (Z.ltb_spec c 0x80); [lia|].
    destruct (Z.ltb_spec c 0x800); [lia|]. reflexivity.
  - intros Hrest. rewrite (IH Hrest).
    by destruct (utf8_encode_char c).
Qed.

(** X8. Only [encode_ordinary] and [encode] recover from surrogates. On a
    string that holds one, [encode_single_token] raises
    [UnicodeEncodeError]; so does [encode_with_unstable], after its single
    call to the engine, when it is given a collection whose scan passes, and
    when ["all"] leaves nothing to disallow. *)
Theorem no_fallback_outside_encode enc text :
  has_surrogate text = true →
  encode_single_token enc (Str text) = Raise UnicodeEncodeError
  ∧ (∀ a c, _special_token_regex (frozenset c) text = None →
       encode_with_unstable enc text a (Disallow c)
       = ([Call_encode_with_unstable text (resolve_allowed enc a)],
          Raise UnicodeEncodeError))
  ∧ (∀ a, special_tokens_set enc ∖ resolve_allowed enc a = ∅ →
       encode_with_unstable enc text a DisallowAll
       = ([Call_encode_with_unstable text (resolve_allowed enc a)],
          Raise UnicodeEncodeError)).
Proof.
  intros Hsur. split; [|split].
  - unfold encode_single_token. by rewrite (str_encode_utf8_surrogate _ Hsur).
  - intros a c Hscan. rewrite encode_with_unstable_collection, Hscan.
    unfold call, CoreBPE_encode_with_unstable. by rewrite Hsur.
  - intros a Hempty. rewrite encode_with_unstable_all.
    rewrite (bool_decide_eq_true_2 _ Hempty).
    unfold call, CoreBPE_encode_with_unstable. by rewrite Hsur.
Qed.

Lemma no_fallback_outside_encode_witness :
  encode_single_token sample_encoding (Str [0xD800]) = Raise UnicodeEncodeError
  ∧ encode_with_unstable sample_encoding [0xD800] (Allow ∅) (Disallow (ListOf [py "<a>"]))
    = ([Call_encode_with_unstable [0xD800] ∅], Raise UnicodeEncodeError)
  ∧ encode_with_unstable sample_encoding [0xD800] AllowAll DisallowAll
    = ([Call_encode_with_unstable [0xD800] (special_tokens_set sample_encoding)],
       Raise UnicodeEncodeError).
Proof.
  destruct (no_fallback_outside_encode sample_encoding [0xD800] eq_refl)
    as (H1 & H2 & H3).
  split; [exact H1|]. split.
  - apply (H2 (Allow ∅) (ListOf [py "<a>"])). by_compute.
  - apply (H3 AllowAll). by_compute.
Defined.

(** X22. The scan of [encode_with_unstable]. With
    [disallowed_special="all"] and a special token left to disallow, the
    call raises TypeError for every text, before any scan and any engine
    call; when nothing is left to disallow, it goes to the engine. With a
    collection, it raises the disallowed-special-token error, naming the
    same literal, on exactly the texts on which [encode] does. *)
Theorem encode_with_unstable_scan enc text a :
  (special_tokens_set enc ∖ resolve_allowed enc a ≠ ∅ →
   encode_with_unstable enc text a DisallowAll = ([], Raise TypeError_unhashable))
  ∧ (special_tokens_set enc ∖ resolve_allowed enc a = ∅ →
     encode_with_unstable enc text a DisallowAll
     = ([Call_encode_with_unstable text (resolve_allowed enc a)],
        CoreBPE_encode_with_unstable (_core_bpe enc) text (resolve_allowed enc a)))
  ∧ (∀ c tok,
       result_of (encode_with_unstable enc text a (Disallow c))
       = Raise (DisallowedSpecialToken tok)
       ↔ result_of (encode enc text a (Disallow c))
         = Raise (DisallowedSpecialToken tok)).
Proof.
  split; [|split].
  - intros Hleft. rewrite encode_with_unstable_all.
    by rewrite (bool_decide_eq_false_2 _ Hleft).
  - intros Hempty. rewrite encode_with_unstable_all.
    by rewrite (bool_decide_eq_true_2 _ Hempty).
  - intros c tok. rewrite encode_with_unstable_collection, encode_unfold.
    cbn [resolve_disallowed].
    destruct (_special_token_regex _ text) as [m|].
    { simpl. split; intros [= ->]; reflexivity. }
    split; intros H; exfalso.
    + simpl in H. apply CoreBPE_encode_with_unstable_Raise in H.
      by apply engine_error_not_disallowed in H.
    + apply try_except_result in H as [H|H]; simpl in H;
        apply CoreBPE_encode_Raise in H; by apply engine_error_not_disallowed in H.
Qed.

Lemma encode_with_unstable_scan_witness :
  encode_with_unstable sample_encoding (py "a<a>") (Allow {[py "<b>"]}) DisallowAll
  = ([], Raise TypeError_unhashable)
  ∧ encode_with_unstable sample_encoding (py "ab") AllowAll DisallowAll
    = ([Call_encode_with_unstable (py "ab") (special_tokens_set sample_encoding)],
       Ok ([], [])).
Proof.
  split.
  - apply (proj1 (encode_with_unstable_scan sample_encoding (py "a<a>")
                    (Allow {[py "<b>"]}))).
    by_compute.
  - rewrite (proj1 (proj2 (encode_with_unstable_scan sample_encoding (py "ab")
                             AllowAll))).
    + vm_compute. reflexivity.
    + by_compute.
Defined.

(** ** Single tokens *)

Lemma decoder_lookup_inv bpe t bs :
  decoder bpe !! t = Some bs → encoder bpe !! bs = Some t.
Proof.
  unfold decoder. intros H. apply elem_of_list_to_map_2 in H.
  apply list_elem_of_fmap in H as ([g r] & [= -> ->] & Hin).
  by apply elem_of_map_to_list.
Qed.

(** X9. A byte sequence of the rank table is a single token:
    [encode_single_token] returns its rank, for the bytes and for a string
    that encodes to them; with distinct ranks
    [decode_single_token_bytes] maps the rank back to the bytes. A sequence
    that is neither in the rank table nor the UTF-8 form of a special token
    raises [KeyError]. *)
Theorem encode_single_token_rank enc bs t :
  encoder (_core_bpe enc) !! bs = Some t →
  encode_single_token enc (Bytes bs) = Ok t
  ∧ (∀ text, str_encode_utf8 text = Ok bs →
             encode_single_token enc (Str text) = Ok t)
  ∧ (unique_ranks (encoder (_core_bpe enc)) →
     decode_single_token_bytes enc t = Ok bs)
  ∧ (∀ other, encoder (_core_bpe enc) !! other = None →
       (∀ literal, bytes_decode_utf8 Strict other = Ok literal →
                   special_tokens_encoder (_core_bpe enc) !! literal = None) →
       encode_single_token enc (Bytes other) = Raise (KeyError_str other)).
Proof.
  intros Hrank.
  assert (Hb : encode_single_token enc (Bytes bs) = Ok t).
  { unfold encode_single_token, CoreBPE_encode_single_token. simpl. by rewrite Hrank. }
  split; [exact Hb|]. split; [|split].
  - intros text Htext. unfold encode_single_token in *. by rewrite Htext.
  - intros Hnd. unfold decode_single_token_bytes, CoreBPE_decode_single_token_bytes.
    by rewrite (decoder_lookup _ _ _ Hnd Hrank).
  - intros other Hnone Hspecial.
    unfold encode_single_token, CoreBPE_encode_single_token. simpl. rewrite Hnone.
    destruct (bytes_decode_utf8 Strict other) as [literal|]; [|done].
    by rewrite (Hspecial literal eq_refl).
Qed.

Lemma encode_single_token_rank_witness :
  encode_single_token sample_encoding (Str (py "ab")) = Ok 2
  ∧ decode_single_token_bytes sample_encoding 2 = Ok (py "ab").
Proof.
  destruct (encode_single_token_rank sample_encoding (py "ab") 2
              ltac:(vm_compute; reflexivity)) as (_ & Hstr & Hdec & _).
  split.
  - apply Hstr. vm_compute. reflexivity.
  - apply Hdec. by_compute.
Defined.

Lemma str_encode_utf8_Ok_clean text bs :
  str_encode_utf8 text = Ok bs → has_surrogate text = false.
Proof.
  intros H. destruct (has_surrogate text) eqn:Hsur; [|done].
  by rewrite (str_encode_utf8_surrogate _ Hsur) in H.
Qed.

Lemma special_tokens_decoder_lookup bpe t bs :
  special_tokens_decoder bpe !! t = Some bs →
  ∃ literal, special_tokens_encoder bpe !! literal = Some t
             ∧ str_encode_utf8 literal = Ok bs.
Proof.
  unfold special_tokens_decoder. intros H.
  apply elem_of_list_to_map_2, list_elem_of_omap in H as ([literal id] & Hin & Hentry).
  unfold special_entry in Hentry. simpl in Hentry.
  destruct (str_encode_utf8 literal) as [lbs|] eqn:Hl; [|done].
  injection Hentry as -> ->. exists literal. split; [|done].
  by apply elem_of_map_to_list.
Qed.

(** X10. The bytes that [decode_single_token_bytes] gives for a token go
    back to that token through [encode_single_token], for ordinary and for
    special tokens, provided the bytes of a special token are not also a
    group of the rank table under another id, and the special-token
    literals are strings of code points. *)
Theorem encode_single_token_of_decoded enc t bs :
  decode_single_token_bytes enc t = Ok bs →
  (∀ r, encoder (_core_bpe enc) !! bs = Some r → r = t) →
  (∀ literal id, special_tokens_encoder (_core_bpe enc) !! literal = Some id →
                 is_str literal = true) →
  encode_single_token enc (Bytes bs) = Ok t.
Proof.
  unfold decode_single_token_bytes, CoreBPE_decode_single_token_bytes,
    encode_single_token, CoreBPE_encode_single_token. simpl.
  intros Hdec Hsame Hstr.
  destruct (decoder (_core_bpe enc) !! t) as [b|] eqn:Hord.
  - injection Hdec as ->. by rewrite (decoder_lookup_inv _ _ _ Hord).
  - destruct (special_tokens_decoder (_core_bpe enc) !! t) as [b|] eqn:Hspecial;
      [|done].
    injection Hdec as ->.
    destruct (special_tokens_decoder_lookup _ _ _ Hspecial) as (literal & Hid & Hbs).
    destruct (encoder (_core_bpe enc) !! bs) as [r|] eqn:Hrank.
    + by rewrite (Hsame r eq_refl).
    + rewrite (bytes_decode_utf8_encode Strict literal bs); [by rewrite Hid| |done].
      pose proof (Hstr _ _ Hid) as Hvalid.
      pose proof (str_encode_utf8_Ok_clean _ _ Hbs) as Hclean.
      apply has_surrogate_false_Forall in Hclean.
      unfold is_str in Hvalid. rewrite forallb_forall in Hvalid.
      apply Forall_forall. intros c Hc.
      rewrite Forall_forall in Hclean.
      unfold is_scalar. specialize (Hvalid c (proj1 (list_elem_of_In _ _) Hc)).
      specialize (Hclean c Hc).
      rewrite Hclean. simpl. rewrite andb_true_r.
      by destruct (is_code_point c).
Qed.

Lemma encode_single_token_of_decoded_witness :
  encode_single_token sample_encoding (Bytes (py "<a>")) = Ok 6.
Proof.
  apply (encode_single_token_of_decoded sample_encoding 6 (py "<a>")).
  - vm_compute. reflexivity.
  - intros r Hr. vm_compute in Hr. discriminate Hr.
  - intros literal id Hid.
    assert (literal ∈ dom sample_special) as Hdom by (by eapply elem_of_dom_2).
    assert (dom sample_special = ({[ py "<a>"; py "<b>" ]} : gset (list Z))) as Heq
      by by_compute.
    rewrite Heq in Hdom.
    apply elem_of_union in Hdom as [Hl|Hl]; apply elem_of_singleton in Hl;
      subst literal; reflexivity.
Defined.

(** ** What construction guarantees *)

Lemma py_max_bound xs v hi : py_max xs = Ok hi → v ∈ xs → v ≤ hi.
Proof.
  destruct xs as [|x tl]; [discriminate|]. simpl. intros [= <-] Hin.
  destruct (foldl_max_spec tl x) as [_ Hall].
  rewrite Forall_forall in Hall. by apply Hall.
Qed.

Lemma py_max_default_bound xs v d : v ∈ xs → v ≤ py_max_default xs d.
Proof.
  destruct xs as [|x tl]; [intros H; by apply elem_of_nil in H|]. simpl.
  intros Hin. destruct (foldl_max_spec tl x) as [_ Hall].
  rewrite Forall_forall in Hall. by apply Hall.
Qed.

Lemma elem_of_values (d : gmap (list Z) Z) k v : d !! k = Some v → v ∈ values d.
Proof.
  intros H. unfold values. apply list_elem_of_fmap. exists (k, v).
  split; [done|]. by apply elem_of_map_to_list.
Qed.

(** What a successful [__init__] stores. *)
Lemma Encoding_init_Ok name pat_str ranks specials explicit_n_vocab native enc :
  Encoding_init name pat_str ranks specials explicit_n_vocab native = Ok enc →
  ∃ max_rank,
    py_max (values ranks) = Ok max_rank
    ∧ max_token_value enc = Z.max max_rank (py_max_default (values specials) 0)
    ∧ _mergeable_ranks enc = ranks ∧ _special_tokens enc = specials
    ∧ encoder (_core_bpe enc) = ranks
    ∧ special_tokens_encoder (_core_bpe enc) = specials
    ∧ (∀ n, explicit_n_vocab = Some n → n ≠ 0 →
         Z.of_nat (size ranks) + Z.of_nat (size specials) = n
         ∧ max_token_value enc = n - 1).
Proof.
  unfold Encoding_init. intros Hinit.
  destruct (py_max (values ranks)) as [max_rank|]; simpl in Hinit; [|discriminate].
  exists max_rank. split; [done|].
  destruct explicit_n_vocab as [n|]; simpl in Hinit.
  - destruct (Z.eqb_spec n 0) as [->|Hn]; simpl in Hinit.
    + injection Hinit as <-. simpl. repeat split; try done; congruence.
    + destruct (Z.eqb_spec (Z.of_nat (size ranks) + Z.of_nat (size specials)) n)
        as [Hsum|]; simpl in Hinit; [|discriminate].
      destruct (Z.eqb_spec (Z.max max_rank (py_max_default (values specials) 0))
                           (n - 1)) as [Htop|]; simpl in Hinit; [|discriminate].
      injection Hinit as <-. simpl. repeat split; try done; congruence.
  - injection Hinit as <-. simpl. repeat split; done.
Qed.

(** X11. After a successful construction no rank and no special id exceeds
    [max_token_value], so every id of the vocabulary is below [n_vocab];
    and if an explicit non-zero size was given, [n_vocab] is that size and
    the two tables have that many entries together. *)
Theorem Encoding_init_n_vocab name pat_str ranks specials explicit_n_vocab native enc :
  Encoding_init name pat_str ranks specials explicit_n_vocab native = Ok enc →
  (∀ group r, ranks !! group = Some r → r < n_vocab enc)
  ∧ (∀ literal id, specials !! literal = Some id → id < n_vocab enc)
  ∧ (∀ n, explicit_n_vocab = Some n → n ≠ 0 →
       n_vocab enc = n
       ∧ Z.of_nat (size ranks) + Z.of_nat (size specials) = n).
Proof.
  intros Hinit.
  destruct (Encoding_init_Ok _ _ _ _ _ _ _ Hinit)
    as (max_rank & Hmax & Hmtv & _ & _ & _ & _ & Hexplicit).
  unfold n_vocab. rewrite Hmtv. split; [|split].
  - intros group r Hr.
    pose proof (py_max_bound _ r _ Hmax (elem_of_values _ _ _ Hr)). lia.
  - intros literal id Hid.
    pose proof (py_max_default_bound _ id 0 (elem_of_values _ _ _ Hid)). lia.
  - intros n Hn Hn0. destruct (Hexplicit n Hn Hn0) as [Hsum Htop].
    rewrite <- Hmtv, Htop. split; [lia | done].
Qed.

Lemma Encoding_init_n_vocab_witness : n_vocab sample_encoding = 8.
Proof.
  exact (proj1 (proj2 (proj2 (Encoding_init_n_vocab "sample" whole_text
           sample_ranks sample_special (Some 8) no_completions sample_encoding
           ltac:(vm_compute; reflexivity))) 8 eq_refl ltac:(lia))).
Defined.

(** The tokens of the engine are ranks of the table ... *)
Lemma encode_ordinary_native_tokens bpe text tokens :
  encode_ordinary_native bpe text = Ok tokens →
  Forall (λ t, ∃ group, encoder bpe !! group = Some t) tokens.
Proof.
  unfold encode_ordinary_native, rmap. intros H.
  destruct (rmapM _ (pieces bpe text)) as [tokenss|] eqn:Hm; simpl in H; [|done].
  injection H as <-. apply Forall_concat.
  apply rmapM_Ok_Forall2 in Hm.
  induction Hm as [|piece toks ps tokenss Hpiece _ IH]; constructor; [|exact IH].
  destruct (str_encode_utf8 piece) as [bs|]; simpl in Hpiece; [|done].
  unfold byte_pair_encode in Hpiece. apply rmapM_Ok_Forall2 in Hpiece.
  clear -Hpiece. induction Hpiece as [|g t gs ts Hg _ IH]; constructor; [|exact IH].
  exists g. unfold rank_of in Hg. destruct (encoder bpe !! g); congruence.
Qed.

(** ... or ids of special tokens. *)
Lemma encode_native_tokens bpe text allowed tokens :
  encode_native bpe text allowed = Ok tokens →
  Forall (λ t, (∃ group, encoder bpe !! group = Some t)
               ∨ ∃ literal, special_tokens_encoder bpe !! literal = Some t) tokens.
Proof.
  unfold encode_native, rmap. intros H.
  destruct (rmapM _ _) as [tokenss|] eqn:Hm; simpl in H; [|done].
  injection H as <-. apply Forall_concat.
  apply rmapM_Ok_Forall2 in Hm.
  induction Hm as [|seg toks segs tokenss Hseg _ IH]; constructor; [|exact IH].
  destruct seg as [s|literal]; simpl in Hseg.
  - eapply Forall_impl; [by eapply encode_ordinary_native_tokens|]. simpl. eauto.
  - destruct (special_tokens_encoder bpe !! literal) as [id|] eqn:Hid; [|done].
    injection Hseg as <-. constructor; [|constructor]. right. by exists literal.
Qed.

(** X12. On a constructed encoding, every token that [encode_ordinary] or
    [encode] returns is an id of the vocabulary (a rank, or for [encode] the
    id of a special token) and is below [n_vocab]. *)
Theorem encode_tokens_below_n_vocab name pat_str ranks specials explicit_n_vocab
    native enc text tokens :
  Encoding_init name pat_str ranks specials explicit_n_vocab native = Ok enc →
  (result_of (encode_ordinary enc text) = Ok tokens →
   Forall (λ t, (∃ group, ranks !! group = Some t) ∧ t < n_vocab enc) tokens)
  ∧ ∀ a d, result_of (encode enc text a d) = Ok tokens →
      Forall (λ t, ((∃ group, ranks !! group = Some t)
                    ∨ ∃ literal, specials !! literal = Some t)
                   ∧ t < n_vocab enc) tokens.
Proof.
  intros Hinit.
  destruct (Encoding_init_Ok _ _ _ _ _ _ _ Hinit)
    as (max_rank & Hmax & Hmtv & _ & _ & Henc & Hspec & _).
  assert (Hranks : ∀ group r, ranks !! group = Some r → r < n_vocab enc).
  { intros group r Hr. unfold n_vocab. rewrite Hmtv.
    pose proof (py_max_bound _ r _ Hmax (elem_of_values _ _ _ Hr)). lia. }
  assert (Hspecials : ∀ literal id, specials !! literal = Some id → id < n_vocab enc).
  { intros literal id Hid. unfold n_vocab. rewrite Hmtv.
    pose proof (py_max_default_bound _ id 0 (elem_of_values _ _ _ Hid)). lia. }
  split.
  - intros H.
    assert (∃ text', encode_ordinary_native (_core_bpe enc) text' = Ok tokens)
      as [text' Hnative].
    { revert H. unfold encode_ordinary, try_except_UnicodeEncodeError, call,
        CoreBPE_encode_ordinary, result_of. simpl.
      destruct (has_surrogate text) eqn:Hsur; simpl.
      - destruct (has_surrogate (surrogate_fallback text)); [done | eauto].
      - destruct (encode_ordinary_native (_core_bpe enc) text) as [toks|e] eqn:He;
          simpl.
        + intros [= <-]. eauto.
        + by rewrite (encode_ordinary_native_clean _ _ _ Hsur He). }
    apply encode_ordinary_native_tokens in Hnative. rewrite Henc in Hnative.
    eapply Forall_impl; [exact Hnative|]. simpl. intros t [g Hg]. eauto.
  - intros a d H.
    assert (∃ text', encode_native (_core_bpe enc) text' (resolve_allowed enc a)
                     = Ok tokens) as [text' Hnative].
    { revert H. rewrite encode_unfold.
      destruct (_special_token_regex _ text); [done|].
      unfold try_except_UnicodeEncodeError, call, CoreBPE_encode, result_of. simpl.
      destruct (has_surrogate text) eqn:Hsur; simpl.
      - destruct (has_surrogate (surrogate_fallback text)); [done | eauto].
      - destruct (encode_native (_core_bpe enc) text _) as [toks|e] eqn:He;
          simpl.
        + intros [= <-]. eauto.
        + by rewrite (encode_native_clean _ _ _ _ Hsur He). }
    apply encode_native_tokens in Hnative. rewrite Henc, Hspec in Hnative.
    eapply Forall_impl; [exact Hnative|]. simpl.
    intros t [[g Hg]|[l Hl]]; eauto.
Qed.

Lemma encode_tokens_below_n_vocab_witness :
  Forall (λ t, t < 8) [2; 6; 1; 0].
Proof.
  destruct (encode_tokens_below_n_vocab "sample" whole_text sample_ranks
              sample_special (Some 8) no_completions sample_encoding
              (py "ab<a>ba") [2; 6; 1; 0] ltac:(vm_compute; reflexivity))
    as [_ Henc].
  eapply Forall_impl.
  - apply (Henc (Allow {[ py "<a>" ]}) DisallowAll). vm_compute. reflexivity.
  - simpl. intros t [_ Ht]. exact Ht.
Defined.

(** ** Batches *)

Lemma rmapM_Raise_first {A B} (f : A → result B) xs e :
  rmapM f xs = Raise e
  ↔ ∃ (i : nat) x, xs !! i = Some x ∧ f x = Raise e
      ∧ ∀ (j : nat) y, (j < i)%nat → xs !! j = Some y → ∃ r, f y = Ok r.
Proof.
  induction xs as [|x xs IH]; simpl.
  - split; [discriminate|]. intros (i & y & Hi & _). by rewrite lookup_nil in Hi.
  - destruct (f x) as [r|e'] eqn:Hx; simpl.
    + destruct (rmapM f xs) as [rs|e''] eqn:Hxs; simpl.
      * split; [discriminate|]. intros (i & y & Hi & Hy & Hbefore).
        destruct i as [|i]; simpl in Hi; [congruence|].
        assert (Ok rs = Raise e :> result (list B)) as Habs; [|discriminate Habs].
        apply IH. exists i, y. split; [done|]. split; [done|].
        intros j z Hj Hz. apply (Hbefore (S j) z); [lia | done].
      * split.
        -- intros [= ->]. destruct (proj1 IH eq_refl) as (i & y & Hi & Hy & Hbefore).
           exists (S i), y. split; [done|]. split; [done|].
           intros j z Hj Hz. destruct j as [|j]; simpl in Hz.
           ++ injection Hz as <-. eauto.
           ++ apply (Hbefore j z); [lia | done].
        -- intros (i & y & Hi & Hy & Hbefore).
           destruct i as [|i]; simpl in Hi; [congruence|].
           apply IH. exists i, y. split; [done|]. split; [done|].
           intros j z Hj Hz. apply (Hbefore (S j) z); [lia | done].
    + split.
      * intros [= ->]. exists O, x. split; [done|]. split; [done|]. intros; lia.
      * intros (i & y & Hi & Hy & Hbefore). destruct i as [|i]; simpl in Hi.
        -- congruence.
        -- destruct (Hbefore O x) as [r Hr]; [lia | done | congruence].
Qed.

(** What [executor.map] gives, for a pool that can be built. *)
Lemma executor_map_spec {A B} (num_threads : Z) (f : A → result B) xs :
  0 < num_threads →
  (∀ results, executor_map num_threads f xs = Ok results
              ↔ Forall2 (λ x r, f x = Ok r) xs results)
  ∧ (∀ e, executor_map num_threads f xs = Raise e
          ↔ ∃ (i : nat) x, xs !! i = Some x ∧ f x = Raise e
              ∧ ∀ (j : nat) y, (j < i)%nat → xs !! j = Some y → ∃ r, f y = Ok r).
Proof.
  intros Hn. unfold executor_map.
  destruct (Z.leb_spec num_threads 0) as [|_]; [lia|].
  split; [intros; apply rmapM_Ok_Forall2 | intros; apply rmapM_Raise_first].
Qed.

(** X13. [encode_ordinary_batch], [decode_batch] and [decode_bytes_batch],
    with a pool of at least one thread: the batch returns exactly when every
    item does, the results standing in input order; otherwise it raises the
    exception of the first item, in input order, that raises, and returns no
    partial result. With a pool size below one each of them raises before
    any item is looked at. *)
Theorem batch_in_order_or_first_failure enc (num_threads : Z) :
  (0 < num_threads →
   (∀ texts,
      (∀ results, encode_ordinary_batch enc texts num_threads = Ok results
         ↔ Forall2 (λ text r, result_of (encode_ordinary enc text) = Ok r)
                   texts results)
      ∧ (∀ e, encode_ordinary_batch enc texts num_threads = Raise e
         ↔ ∃ (i : nat) text, texts !! i = Some text
             ∧ result_of (encode_ordinary enc text) = Raise e
             ∧ ∀ (j : nat) y, (j < i)%nat → texts !! j = Some y →
                 ∃ r, result_of (encode_ordinary enc y) = Ok r))
   ∧ (∀ batch errors,
      (∀ results, decode_batch enc batch errors num_threads = Ok results
         ↔ Forall2 (λ tokens r, decode enc tokens errors = Ok r) batch results)
      ∧ (∀ e, decode_batch enc batch errors num_threads = Raise e
         ↔ ∃ (i : nat) tokens, batch !! i = Some tokens
             ∧ decode enc tokens errors = Raise e
             ∧ ∀ (j : nat) y, (j < i)%nat → batch !! j = Some y →
                 ∃ r, decode enc y errors = Ok r))
   ∧ (∀ batch,
      (∀ results, decode_bytes_batch enc batch num_threads = Ok results
         ↔ Forall2 (λ tokens r, decode_bytes enc tokens = Ok r) batch results)
      ∧ (∀ e, decode_bytes_batch enc batch num_threads = Raise e
         ↔ ∃ (i : nat) tokens, batch !! i = Some tokens
             ∧ decode_bytes enc tokens = Raise e
             ∧ ∀ (j : nat) y, (j < i)%nat → batch !! j = Some y →
                 ∃ r, decode_bytes enc y = Ok r)))
  ∧ (num_threads ≤ 0 →
     ∀ texts errors,
       encode_ordinary_batch enc texts num_threads = Raise ValueError_max_workers
       ∧ decode_batch enc texts errors num_threads = Raise ValueError_max_workers
       ∧ decode_bytes_batch enc texts num_threads = Raise ValueError_max_workers
       ∧ ∀ a d, encode_batch enc texts num_threads a d
                = Raise ValueError_max_workers).
Proof.
  split.
  - intros Hn. split; [|split].
    + intros texts. exact (executor_map_spec num_threads _ texts Hn).
    + intros batch errors. exact (executor_map_spec num_threads _ batch Hn).
    + intros batch. exact (executor_map_spec num_threads _ batch Hn).
  - intros Hn texts errors.
    unfold encode_ordinary_batch, decode_batch, decode_bytes_batch, encode_batch,
      executor_map.
    destruct (Z.leb_spec num_threads 0) as [_|]; [|lia]. done.
Qed.

Lemma batch_in_order_or_first_failure_witness :
  decode_batch sample_encoding [[2; 1]; [9]; [0]; [10]] Replace 8
  = Raise (KeyError_token 9)
  ∧ encode_ordinary_batch sample_encoding [py "ab"] 0
    = Raise ValueError_max_workers.
Proof.
  destruct (batch_in_order_or_first_failure sample_encoding 8) as [Hpos _].
  destruct (batch_in_order_or_first_failure sample_encoding 0) as [_ Hzero].
  split.
  - destruct (Hpos ltac:(lia)) as (_ & Hdecode & _).
    apply (Hdecode [[2; 1]; [9]; [0]; [10]] Replace).
    exists 1%nat, [9]. split; [reflexivity|]. split; [vm_compute; reflexivity|].
    intros j y Hj Hy. assert (j = O) as -> by lia.
    injection Hy as <-. eexists. vm_compute. reflexivity.
  - exact (proj1 (Hzero ltac:(lia) [py "ab"] Replace)).
Defined.

(** X14. A batch of texts without surrogates, over a well-formed vocabulary
    and a pattern whose pieces make up each text, comes back through
    [encode_ordinary_batch] and [decode_batch] as it was. *)
Theorem decode_batch_encode_ordinary_batch enc texts (num_threads : Z) errors :
  0 < num_threads →
  unique_ranks (encoder (_core_bpe enc)) →
  Forall (λ text,
            Forall (λ c, is_scalar c = true) text
            ∧ concat (pieces (_core_bpe enc) text) = text
            ∧ ∃ bs, str_encode_utf8 text = Ok bs
                    ∧ Forall (λ b, ranked (encoder (_core_bpe enc)) [b]) bs)
         texts →
  ∃ batch,
    encode_ordinary_batch enc texts num_threads = Ok batch
    ∧ decode_batch enc batch errors num_threads = Ok texts.
Proof.
  intros Hn Hnd Hall.
  assert (∃ batch,
            Forall2 (λ text r, result_of (encode_ordinary enc text) = Ok r) texts batch
            ∧ Forall2 (λ tokens r, decode enc tokens errors = Ok r) batch texts)
    as (batch & Henc & Hdec).
  { induction Hall as [|text texts (Hscalar & Hcover & bs & Hbs & Hranked) _ IH].
    - exists []. split; constructor.
    - destruct IH as (batch & Henc & Hdec).
      destruct (encode_ordinary_round_trip enc text bs Hscalar Hcover Hnd Hbs Hranked)
        as (tokens & Htok & _ & Hback).
      exists (tokens :: batch). split; constructor; try done.
      by rewrite Htok. }
  exists batch. split.
  - by apply (executor_map_spec num_threads _ texts Hn).
  - by apply (executor_map_spec num_threads _ batch Hn).
Qed.

Lemma decode_batch_encode_ordinary_batch_witness :
  ∃ batch,
    encode_ordinary_batch sample_encoding [py "abba"; py "b"] 8 = Ok batch
    ∧ decode_batch sample_encoding batch Replace 8 = Ok [py "abba"; py "b"].
Proof.
  apply decode_batch_encode_ordinary_batch.
  - lia.
  - by_compute.
  - repeat constructor; try by_compute.
    + exists (py "abba"). split; [vm_compute; reflexivity | by_compute].
    + exists (py "b"). split; [vm_compute; reflexivity | by_compute].
Defined.

(** ** The chunk splitter at its edges *)

(** X15. [split_text_into_chunks] does not check [max_tokens]: with
    [max_tokens = 0] it raises the [ValueError] of [range]; with a negative
    [max_tokens] it returns no chunk at all, whatever the text; and when
    [encode] raises, so does the splitter, whatever [max_tokens] is. *)
Theorem split_text_into_chunks_bad_max_tokens encoding text :
  (∀ tokens, result_of (encode_default encoding text) = Ok tokens →
     split_text_into_chunks encoding text 0 = Raise ValueError_range_step
     ∧ ∀ k, k < 0 → split_text_into_chunks encoding text k = Ok [])
  ∧ (∀ e k, result_of (encode_default encoding text) = Raise e →
            split_text_into_chunks encoding text k = Raise e).
Proof.
  unfold split_text_into_chunks. split.
  - intros tokens ->. simpl. split; [reflexivity|].
    intros k Hk. unfold token_windows, py_range.
    destruct (Z.eqb_spec k 0) as [|_]; [lia|].
    destruct (Z.ltb_spec 0 k) as [|_]; [lia|].
    replace (Z.to_nat (0 - Z.of_nat (length tokens))) with O by lia.
    reflexivity.
  - by intros e k ->.
Qed.

Lemma split_text_into_chunks_bad_max_tokens_witness :
  split_text_into_chunks sample_encoding (py "abba") (-1) = Ok []
  ∧ split_text_into_chunks sample_encoding (py "a<a>") 2
    = Raise (DisallowedSpecialToken (py "<a>")).
Proof.
  destruct (split_text_into_chunks_bad_max_tokens sample_encoding (py "abba"))
    as [Hok _].
  destruct (split_text_into_chunks_bad_max_tokens sample_encoding (py "a<a>"))
    as [_ Hraise].
  split.
  - apply (proj2 (Hok [2; 1; 0] ltac:(vm_compute; reflexivity))). lia.
  - apply Hraise. vm_compute. reflexivity.
Defined.

Lemma token_windows_concat tokens k windows :
  0 < k → token_windows tokens k = Ok windows → concat windows = tokens.
Proof.
  intros Hk. unfold token_windows, py_range.
  destruct (Z.eqb_spec k 0) as [|_]; [lia|].
  destruct (Z.ltb_spec 0 k) as [_|]; [|lia]. simpl.
  intros [= <-]. rewrite range_up_concat by lia. reflexivity.
Qed.

(** The decoder step looks at the bytes of its character only. *)
Lemma utf8_decode_step_app bs rest c n :
  utf8_decode_step bs = Char c n → utf8_decode_step (bs ++ rest) = Char c n.
Proof.
  unfold utf8_decode_step.
  destruct bs as [|b0 [|b1 [|b2 [|b3 tl]]]]; simpl app;
    try discriminate; step_cases; try discriminate; try (intros; assumption);
    try (intros; exfalso; lia); intros; congruence.
Qed.

Lemma utf8_decode_loop_nil fuel errors : utf8_decode_loop fuel errors [] = Ok [].
Proof. by destruct fuel. Qed.

(** Strict decoding does not depend on the fuel beyond the length. *)
Lemma utf8_decode_strict_fuel f1 : ∀ f2 bs,
  (length bs ≤ f1)%nat → (length bs ≤ f2)%nat →
  utf8_decode_loop f1 Strict bs = utf8_decode_loop f2 Strict bs.
Proof.
  induction f1 as [|f1 IH]; intros f2 bs H1 H2.
  - destruct bs; [|simpl in H1; lia]. by rewrite !utf8_decode_loop_nil.
  - destruct bs as [|b rest]; [by rewrite !utf8_decode_loop_nil|].
    destruct f2 as [|f2]; [simpl in H2; lia|].
    rewrite !utf8_decode_loop_S.
    destruct (utf8_decode_step (b :: rest)) as [c n|n|] eqn:Hstep; [|done..].
    destruct (utf8_decode_step_Char _ _ _ Hstep) as [[Hn1 Hn2] _].
    rewrite (IH f2); [done | |]; rewrite length_drop; simpl in *; lia.
Qed.

Lemma utf8_decode_loop_strict_app b : ∀ f a text,
  (length a ≤ f)%nat →
  utf8_decode_loop f Strict a = Ok text →
  utf8_decode_loop (f + length b) Strict (a ++ b)
  = (tl ←! utf8_decode_loop (length b) Strict b; Ok (text ++ tl)).
Proof.
  induction f as [|f IH]; intros a text Hlen.
  - destruct a; [|simpl in Hlen; lia]. simpl. intros [= <-].
    by destruct (utf8_decode_loop (length b) Strict b).
  - destruct a as [|x a].
    { intros Hnil. injection Hnil as <-. change ([] ++ b) with b.
      rewrite (utf8_decode_strict_fuel (S f + length b) (length b) b) by lia.
      by destruct (utf8_decode_loop (length b) Strict b). }
    rewrite utf8_decode_loop_S.
    destruct (utf8_decode_step (x :: a)) as [c n|n|] eqn:Hstep; [|done..].
    destruct (utf8_decode_step_Char _ _ _ Hstep) as [[Hn1 Hn2] _].
    destruct (utf8_decode_loop f Strict (drop n (x :: a))) as [tl|] eqn:Htl;
      simpl; [|done].
    intros [= <-].
    change (utf8_decode_loop (S (f + length b)) Strict (x :: (a ++ b))
            = (tl0 ←! utf8_decode_loop (length b) Strict b; Ok (c :: tl ++ tl0))).
    rewrite utf8_decode_loop_S.
    change (x :: (a ++ b)) with ((x :: a) ++ b).
    rewrite (utf8_decode_step_app _ b _ _ Hstep), drop_app_le by done.
    rewrite (IH (drop n (x :: a)) tl); [|rewrite length_drop; simpl in *; lia|done].
    by destruct (utf8_decode_loop (length b) Strict b).
Qed.

Lemma bytes_decode_strict_app a b text :
  bytes_decode_utf8 Strict a = Ok text →
  bytes_decode_utf8 Strict (a ++ b)
  = (tl ←! bytes_decode_utf8 Strict b; Ok (text ++ tl)).
Proof.
  unfold bytes_decode_utf8. rewrite length_app.
  by apply utf8_decode_loop_strict_app.
Qed.

(** Decoding piecewise: when every window decodes strictly, the strings of
    the windows, put together, are the string of all the tokens. *)
Lemma decode_windows_strict enc (windows : list (list Z)) :
  Forall (λ window, ∃ text, decode enc window Strict = Ok text) windows →
  ∃ chunks,
    rmapM (λ window, decode enc window Replace) windows = Ok chunks
    ∧ decode enc (concat windows) Strict = Ok (concat chunks).
Proof.
  induction 1 as [|w ws [text Hw] _ (chunks & Hchunks & Hall)].
  - exists []. split; [done|]. reflexivity.
  - exists (text :: chunks). split.
    + simpl. rewrite (decode_strict_replace enc w _ Hw). simpl.
      by rewrite Hchunks.
    + simpl. unfold decode in *. rewrite decode_bytes_app.
      destruct (decode_bytes enc w) as [bw|]; simpl in Hw |- *; [|done].
      destruct (decode_bytes enc (concat ws)) as [bws|]; simpl in Hall |- *; [|done].
      by rewrite (bytes_decode_strict_app _ _ _ Hw), Hall.
Qed.

(** X16. Chunks are decoded window by window with [errors="replace"]. When
    every window is by itself valid UTF-8 (no character straddles a
    boundary), putting the chunks together gives the decoding of the whole
    token sequence, under either policy. *)
Theorem split_text_into_chunks_lossless encoding text k tokens windows :
  0 < k →
  result_of (encode_default encoding text) = Ok tokens →
  token_windows tokens k = Ok windows →
  Forall (λ window, ∃ chunk, decode encoding window Strict = Ok chunk) windows →
  ∃ chunks,
    split_text_into_chunks encoding text k = Ok chunks
    ∧ decode encoding tokens Strict = Ok (concat chunks)
    ∧ decode encoding tokens Replace = Ok (concat chunks).
Proof.
  intros Hk Henc Hwin Hstrict.
  destruct (decode_windows_strict encoding windows Hstrict) as (chunks & Hchunks & Hall).
  rewrite (token_windows_concat _ _ _ Hk Hwin) in Hall.
  exists chunks. split; [|split].
  - unfold split_text_into_chunks. rewrite Henc. simpl. by rewrite Hwin.
  - exact Hall.
  - by apply decode_strict_replace.
Qed.

Lemma split_text_into_chunks_lossless_witness :
  ∃ chunks,
    split_text_into_chunks sample_encoding (py "abbaabab") 2 = Ok chunks
    ∧ decode sample_encoding [2; 1; 0; 2; 2] Replace = Ok (concat chunks).
Proof.
  destruct (split_text_into_chunks_lossless sample_encoding (py "abbaabab") 2
              [2; 1; 0; 2; 2] [[2; 1]; [0; 2]; [2]])
    as (chunks & Hsplit & _ & Hall).
  - lia.
  - vm_compute. reflexivity.
  - reflexivity.
  - repeat constructor; eexists; vm_compute; reflexivity.
  - exists chunks. split; [exact Hsplit | exact Hall].
Defined.

(** ** ASCII text comes back whole from the splitter *)

Lemma str_encode_utf8_ascii text :
  Forall (λ c, c < 0x80) text → str_encode_utf8 text = Ok text.
Proof.
  induction 1 as [|c rest Hc _ IH]; [reflexivity|]. simpl.
  unfold utf8_encode_char. destruct (Z.ltb_spec c 0x80); [|lia].
  by rewrite IH.
Qed.

Lemma utf8_decode_loop_ascii errors bs : ∀ fuel,
  Forall (λ b, b < 0x80) bs → (length bs ≤ fuel)%nat →
  utf8_decode_loop fuel errors bs = Ok bs.
Proof.
  induction bs as [|b rest IH]; intros fuel Hall Hlen.
  - apply utf8_decode_loop_nil.
  - inversion Hall as [|? ? Hb Hrest]; subst.
    destruct fuel as [|fuel]; [simpl in Hlen; lia|].
    rewrite utf8_decode_loop_S. unfold utf8_decode_step.
    destruct (Z.ltb_spec b 0x80); [|lia]. simpl drop.
    rewrite IH; [done | done | simpl in Hlen; lia].
Qed.

Lemma decode_bytes_concat enc (windows : list (list Z)) bs :
  decode_bytes enc (concat windows) = Ok bs →
  ∃ bss, Forall2 (λ window b, decode_bytes enc window = Ok b) windows bss
         ∧ concat bss = bs.
Proof.
  revert bs. induction windows as [|w ws IH]; intros bs; simpl.
  - intros [= <-]. exists []. split; constructor.
  - rewrite decode_bytes_app.
    destruct (decode_bytes enc w) as [bw|] eqn:Hw; simpl; [|done].
    destruct (decode_bytes enc (concat ws)) as [bws|] eqn:Hws; simpl; [|done].
    intros [= <-]. destruct (IH bws eq_refl) as (bss & Hall & Hcat).
    exists (bw :: bss). split; [by constructor | simpl; by rewrite Hcat].
Qed.

(** X17. For an ASCII text without special-token literals, over a
    well-formed vocabulary and a pattern whose pieces make up the text, the
    chunks of [split_text_into_chunks], put together in order, are the
    text, for every positive [max_tokens]. *)
Theorem split_text_into_chunks_ascii encoding text k :
  0 < k →
  Forall (λ c, 0 ≤ c < 0x80) text →
  _special_token_regex (special_tokens_set encoding) text = None →
  concat (pieces (_core_bpe encoding) text) = text →
  unique_ranks (encoder (_core_bpe encoding)) →
  Forall (λ b, ranked (encoder (_core_bpe encoding)) [b]) text →
  ∃ chunks,
    split_text_into_chunks encoding text k = Ok chunks ∧ concat chunks = text.
Proof.
  intros Hk Hascii Hscan Hcover Hnd Hranked.
  assert (Hlow : Forall (λ c, c < 0x80) text).
  { eapply Forall_impl; [exact Hascii|]. simpl. lia. }
  assert (Hscalar : Forall (λ c, is_scalar c = true) text).
  { eapply Forall_impl; [exact Hascii|]. simpl. intros c Hc.
    unfold is_scalar, is_code_point, is_surrogate.
    destruct (Z.leb_spec 0 c); [|lia]. destruct (Z.leb_spec c 0x10FFFF); [|lia].
    destruct (Z.leb_spec 0xD800 c); [lia | reflexivity]. }
  destruct (encode_ordinary_round_trip encoding text text Hscalar Hcover Hnd
              (str_encode_utf8_ascii _ Hlow) Hranked)
    as (tokens & Henc & Hbytes & _).
  assert (Hdefault : result_of (encode_default encoding text) = Ok tokens).
  { assert (Hclean : has_surrogate text = false).
    { apply has_surrogate_false_Forall. eapply Forall_impl; [exact Hscalar|].
      intros c Hc. by destruct (is_scalar_bounds c Hc) as (_ & _ & ?). }
    assert (Hres : result_of (encode_ordinary encoding text) = Ok tokens)
      by (by rewrite Henc).
    unfold encode_default. rewrite encode_unfold. simpl resolve_disallowed.
    simpl resolve_allowed. rewrite difference_empty_L, Hscan.
    revert Hres. unfold encode_ordinary, try_except_UnicodeEncodeError, call,
      CoreBPE_encode, CoreBPE_encode_ordinary, result_of. simpl.
    rewrite !encode_native_no_allowed by apply intersection_empty_l_L.
    rewrite Hclean.
    destruct (encode_ordinary_native (_core_bpe encoding) text) as [toks|e] eqn:He;
      simpl; [done|].
    by rewrite (encode_ordinary_native_clean _ _ _ Hclean He). }
  destruct (token_windows tokens k) as [windows|] eqn:Hwin.
  2:{ unfold token_windows, py_range in Hwin.
      destruct (Z.eqb_spec k 0) as [|_]; [lia|].
      destruct (Z.ltb_spec 0 k) as [_|]; [|lia]. discriminate. }
  pose proof (token_windows_concat _ _ _ Hk Hwin) as Hcat.
  rewrite <- Hcat in Hbytes.
  destruct (decode_bytes_concat _ _ _ Hbytes) as (bss & Hall & Hbss).
  exists bss. split; [|done].
  unfold split_text_into_chunks. rewrite Hdefault. simpl. rewrite Hwin. simpl.
  apply rmapM_Ok_Forall2.
  assert (Hin : Forall (Forall (λ b, b < 0x80)) bss).
  { apply Forall_concat. by rewrite Hbss. }
  clear -Hall Hin. induction Hall as [|w b ws bs Hw _ IH]; [constructor|].
  inversion Hin as [|? ? Hb Hbs]; subst. constructor; [|by apply IH].
  unfold decode. rewrite Hw. simpl. unfold bytes_decode_utf8.
  by apply utf8_decode_loop_ascii.
Qed.

Lemma split_text_into_chunks_ascii_witness :
  ∃ chunks,
    split_text_into_chunks sample_encoding (py "abbaabab") 2 = Ok chunks
    ∧ concat chunks = py "abbaabab".
Proof.
  apply split_text_into_chunks_ascii.
  - lia.
  - by_compute.
  - vm_compute. reflexivity.
  - vm_compute. reflexivity.
  - by_compute.
  - by_compute.
Defined.

(** ** Saving the chunks *)

Lemma py_inj s1 s2 : py s1 = py s2 → s1 = s2.
Proof.
  unfold py. intros H.
  rewrite <- (String.string_of_list_ascii_of_string s1),
          <- (String.string_of_list_ascii_of_string s2).
  f_equal. revert H.
  generalize (String.list_ascii_of_string s1) (String.list_ascii_of_string s2).
  intros l1. induction l1 as [|a l1 IH]; intros [|b l2]; simpl; try done.
  intros [= Hab Hrest]. f_equal; [|by apply IH].
  apply Nat2Z.inj in Hab || apply N2Z.inj in Hab.
  rewrite <- (Ascii.ascii_N_embedding a), <- (Ascii.ascii_N_embedding b).
  by rewrite Hab.
Qed.

(** Two chunks never share a file. *)
Lemma chunk_filename_inj prefix (i j : nat) :
  chunk_filename prefix i = chunk_filename prefix j → i = j.
Proof.
  unfold chunk_filename. intros H.
  apply app_inv_head, app_inv_tail, py_inj in H.
  by apply (inj pretty) in H.
Qed.

Lemma py_String a s : py (String a s) = Z.of_N (Ascii.N_of_ascii a) :: py s.
Proof. reflexivity. Qed.

Lemma pretty_N_char_plain d :
  plain_char (Z.of_N (Ascii.N_of_ascii (pretty_N_char d))).
Proof.
  unfold pretty_N_char, plain_char.
  repeat match goal with
         | |- context [match ?x with _ => _ end] => destruct x
         end; vm_compute; split; reflexivity.
Qed.

Lemma pretty_N_go_plain x : ∀ s,
  Forall plain_char (py s) → Forall plain_char (py (pretty_N_go x s)).
Proof.
  induction (N.lt_wf_0 x) as [x _ IH]. intros s Hs.
  destruct (decide (0 < x)%N) as [Hx|Hx].
  - rewrite pretty_N_go_step by done. apply IH.
    + apply N.div_lt; lia.
    + rewrite py_String. constructor; [apply pretty_N_char_plain | exact Hs].
  - replace x with 0%N by lia. by rewrite pretty_N_go_0.
Qed.

(** The decimal numeral of an index is made of plain characters. *)
Lemma pretty_nat_plain (i : nat) : Forall plain_char (py (pretty i)).
Proof.
  unfold pretty, pretty_nat, pretty, pretty_N.
  destruct (decide (N.of_nat i = 0%N)).
  - vm_compute. repeat constructor.
  - apply pretty_N_go_plain. constructor.
Qed.

Lemma path_error_app_plain path suffix :
  Forall plain_char suffix → path_error (path ++ suffix) = path_error path.
Proof.
  intros Hplain. unfold path_error. rewrite !existsb_app.
  assert (H1 : existsb (λ c, is_surrogate c && negb (escaped_byte c)) suffix = false).
  { induction Hplain as [|c rest Hc _ IH]; cbn [existsb]; [done|].
    rewrite IH, orb_false_r. unfold plain_char in Hc. unfold is_surrogate.
    destruct (Z.leb_spec 0xD800 c); [lia | done]. }
  assert (H2 : existsb (λ c, c =? 0) suffix = false).
  { clear H1. induction Hplain as [|c rest Hc _ IH]; cbn [existsb]; [done|].
    rewrite IH, orb_false_r. unfold plain_char in Hc.
    destruct (Z.eqb_spec c 0); [lia | done]. }
  by rewrite H1, H2, !orb_false_r.
Qed.

(** [open] takes the name of a chunk exactly when it takes the prefix. *)
Lemma path_error_chunk_filename prefix (i : nat) :
  path_error (chunk_filename prefix i) = path_error prefix.
Proof.
  unfold chunk_filename. apply path_error_app_plain.
  apply Forall_app. split; [apply pretty_nat_plain|].
  vm_compute. repeat constructor.
Qed.

(** With a prefix that [open] cannot take, the first chunk raises and
    nothing is touched. *)
Lemma save_chunks_from_bad_prefix prefix e chunk rest (idx : nat) w :
  path_error prefix = Some e →
  save_chunks_from idx (chunk :: rest) prefix w = (w, Fail (Exn e)).
Proof.
  intros He. cbn [save_chunks_from]. by rewrite path_error_chunk_filename, He.
Qed.

(** The record the loop logs for chunk [idx]. *)
Lemma save_chunks_from_spec prefix chunks : ∀ (idx : nat) w,
  path_error prefix = None →
  Forall (λ chunk, has_surrogate chunk = false) chunks →
  ∃ w',
    save_chunks_from idx chunks prefix w = (w', Done tt)
    ∧ refused w' = refused w
    ∧ (∀ (i : nat) chunk bs,
         chunks !! i = Some chunk → str_encode_utf8 chunk = Ok bs →
         chunk_filename prefix (idx + i) ∉ refused w →
         files w' !! chunk_filename prefix (idx + i) = Some bs)
    ∧ (∀ path,
         (path ∈ refused w
          ∨ ∀ i : nat, (i < length chunks)%nat →
                       path ≠ chunk_filename prefix (idx + i)) →
         files w' !! path = files w !! path)
    ∧ length (log w') = (length (log w) + length chunks)%nat
    ∧ (∀ (i : nat) chunk, chunks !! i = Some chunk →
         log w' !! (length (log w) + i)%nat
         = Some (if bool_decide (chunk_filename prefix (idx + i) ∈ refused w)
                 then Error_failed_to_save (idx + i)
                        (chunk_filename prefix (idx + i))
                 else Info_saved_chunk (idx + i)
                        (chunk_filename prefix (idx + i))))
    ∧ (∀ k : nat, (k < length (log w))%nat → log w' !! k = log w !! k).
Proof.
  induction chunks as [|chunk rest IH]; intros idx w Hprefix Hclean.
  - exists w. simpl. repeat split; try done; try lia; intros;
      match goal with
      | Hnil : [] !! _ = Some _ |- _ => by rewrite lookup_nil in Hnil
      end.
  - inversion Hclean as [|? ? Hchunk Hrest]; subst.
    destruct (str_encode_utf8_clean chunk Hchunk) as [bs Hbs].
    cbn [save_chunks_from]. rewrite path_error_chunk_filename, Hprefix, Hbs.
    set (fn := chunk_filename prefix idx).
    set (w1 := if bool_decide (fn ∈ refused w)
               then logged (Error_failed_to_save idx fn) w
               else logged (Info_saved_chunk idx fn) (written fn bs w)).
    assert (Hstep : (if bool_decide (fn ∈ refused w)
                     then save_chunks_from (S idx) rest prefix
                            (logged (Error_failed_to_save idx fn) w)
                     else save_chunks_from (S idx) rest prefix
                            (logged (Info_saved_chunk idx fn) (written fn bs w)))
                    = save_chunks_from (S idx) rest prefix w1).
    { unfold w1. by destruct (bool_decide (fn ∈ refused w)). }
    rewrite Hstep.
    assert (Hrefused1 : refused w1 = refused w).
    { unfold w1. by destruct (bool_decide (fn ∈ refused w)). }
    assert (Hlog1 : log w1 = log w ++ [if bool_decide (fn ∈ refused w)
                                       then Error_failed_to_save idx fn
                                       else Info_saved_chunk idx fn]).
    { unfold w1. by destruct (bool_decide (fn ∈ refused w)). }
    assert (Hfiles1 : ∀ path, files w1 !! path
              = if bool_decide (fn ∈ refused w) then files w !! path
                else if decide (fn = path) then Some bs else files w !! path).
    { intros path. unfold w1. destruct (bool_decide (fn ∈ refused w)); [done|].
      simpl. apply lookup_insert. }
    destruct (IH (S idx) w1 Hprefix Hrest)
      as (w' & Hrun & Hrefused & Hwritten & Hkept & Hlen & Hrecords & Hold).
    exists w'. split; [exact Hrun|]. split; [congruence|].
    assert (Hlater : ∀ i : nat, fn ≠ chunk_filename prefix (S idx + i)).
    { intros i Heq. apply chunk_filename_inj in Heq. lia. }
    split; [|split; [|split; [|split]]].
    + intros i c cbs Hi Hc Hfree. destruct i as [|i]; simpl in Hi.
      * injection Hi as <-. rewrite Nat.add_0_r in *. fold fn in Hfree |- *.
        rewrite Hkept by (right; intros i _; apply Hlater).
        rewrite Hfiles1, bool_decide_eq_false_2 by done.
        rewrite decide_True by done. congruence.
      * replace (idx + S i)%nat with (S idx + i)%nat in * by lia.
        apply (Hwritten i c cbs Hi Hc). by rewrite Hrefused1.
    + intros path Hpath.
      rewrite Hkept.
      * rewrite Hfiles1. case_bool_decide as Hfn; [done|].
        destruct (decide (fn = path)) as [<-|]; [|done].
        destruct Hpath as [Hin|Hother]; [done|].
        exfalso. apply (Hother O); [simpl; lia|].
        by rewrite Nat.add_0_r.
      * rewrite Hrefused1. destruct Hpath as [Hin|Hother]; [by left|].
        right. intros i Hi.
        replace (S idx + i)%nat with (idx + S i)%nat by lia.
        apply Hother. simpl. lia.
    + rewrite Hlen, Hlog1, length_app. simpl. lia.
    + intros i c Hi. destruct i as [|i]; simpl in Hi.
      * rewrite Nat.add_0_r. rewrite Hold by (rewrite Hlog1, length_app; simpl; lia).
        rewrite Hlog1, Nat.add_0_r. fold fn.
        by rewrite lookup_app_r, Nat.sub_diag by lia.
      * replace (idx + S i)%nat with (S idx + i)%nat by lia.
        rewrite <- Hrefused1.
        replace (length (log w) + S i)%nat with (length (log w1) + i)%nat
          by (rewrite Hlog1, length_app; simpl; lia).
        exact (Hrecords i c Hi).
    + intros k Hk. rewrite Hold by (rewrite Hlog1, length_app; simpl; lia).
      rewrite Hlog1. by apply lookup_app_l.
Qed.



Lemma save_chunks_from_app prefix rest before : ∀ (idx : nat) w,
  path_error prefix = None →
  Forall (λ chunk, has_surrogate chunk = false) before →
  ∃ w1,
    save_chunks_from idx before prefix w = (w1, Done tt)
    ∧ save_chunks_from idx (before ++ rest) prefix w
      = save_chunks_from (idx + length before) rest prefix w1.
Proof.
  induction before as [|chunk before IH]; intros idx w Hprefix Hclean.
  - exists w. simpl. by rewrite Nat.add_0_r.
  - inversion Hclean as [|? ? Hchunk Hbefore]; subst.
    destruct (str_encode_utf8_clean chunk Hchunk) as [bs Hbs].
    cbn [save_chunks_from app]. rewrite path_error_chunk_filename, Hprefix, Hbs.
    replace (idx + length (chunk :: before))%nat
      with (S idx + length before)%nat by (simpl; lia).
    destruct (bool_decide (chunk_filename prefix idx ∈ refused w)); by apply IH.
Qed.

(** X19. [save_chunks_to_files] catches [IOError] only. If a chunk with a
    surrogate meets a file that can be opened, while the chunks before it
    have none, the [UnicodeEncodeError] of the write leaves the function:
    that file stays empty, the chunks after it are never written, and the
    log holds the records of the chunks before it only. A file can be
    opened when [open] takes its name and the path is not refused; when
    [open] does not take the names, its exception leaves the function at
    the first chunk and nothing is touched. *)
Theorem save_chunks_to_files_aborts before bad after prefix w :
  Forall (λ chunk, has_surrogate chunk = false) before →
  has_surrogate bad = true →
  chunk_filename prefix (length before) ∉ refused w →
  (path_error (chunk_filename prefix (length before)) = None →
   ∃ w',
    save_chunks_to_files (before ++ bad :: after) prefix w
    = (w', Fail (Exn UnicodeEncodeError))
    ∧ files w' !! chunk_filename prefix (length before) = Some []
    ∧ (∀ j : nat, (length before < j)%nat →
         files w' !! chunk_filename prefix j = files w !! chunk_filename prefix j)
    ∧ length (log w') = (length (log w) + length before)%nat)
  ∧ (∀ e, path_error (chunk_filename prefix (length before)) = Some e →
       save_chunks_to_files (before ++ bad :: after) prefix w
       = (w, Fail (Exn e))).
Proof.
  intros Hclean Hbad Hfree. rewrite path_error_chunk_filename. split.
  2: { intros e He. unfold save_chunks_to_files.
       destruct before as [|chunk before]; by apply save_chunks_from_bad_prefix. }
  intros Hprefix.
  destruct (save_chunks_from_app prefix (bad :: after) before O w Hprefix Hclean)
    as (w1 & Hrun & Happ).
  destruct (save_chunks_from_spec prefix before O w Hprefix Hclean)
    as (w1' & Hrun' & Hrefused & _ & Hkept & Hlen & _).
  rewrite Hrun in Hrun'. injection Hrun' as <-.
  exists (written (chunk_filename prefix (length before)) [] w1).
  unfold save_chunks_to_files. rewrite Happ. cbn [save_chunks_from Nat.add].
  rewrite path_error_chunk_filename, Hprefix.
  rewrite Hrefused, bool_decide_eq_false_2 by done.
  rewrite (str_encode_utf8_surrogate _ Hbad).
  split; [done|]. split; [|split].
  - simpl. apply lookup_insert_eq.
  - intros j Hj. simpl. rewrite lookup_insert_ne.
    + apply Hkept. right. intros i Hi Heq.
      apply chunk_filename_inj in Heq. lia.
    + intros Heq. apply chunk_filename_inj in Heq. lia.
  - exact Hlen.
Qed.

Lemma save_chunks_to_files_aborts_witness :
  (∃ w',
    save_chunks_to_files ([py "ab"] ++ [0xD800] :: [py "b"]) (py "chunk_")
      {| files := ∅; refused := ∅; log := [] |}
    = (w', Fail (Exn UnicodeEncodeError))
    ∧ files w' !! py "chunk_1.txt" = Some []
    ∧ files w' !! py "chunk_2.txt" = None)
  ∧ save_chunks_to_files ([py "ab"] ++ [0xD800] :: [py "b"]) [0x63; 0]
      {| files := ∅; refused := ∅; log := [] |}
    = ({| files := ∅; refused := ∅; log := [] |},
       Fail (Exn ValueError_embedded_null)).
Proof.
  split.
  - destruct (save_chunks_to_files_aborts [py "ab"] [0xD800] [py "b"] (py "chunk_")
                {| files := ∅; refused := ∅; log := [] |})
      as [Hgood _]; [by_compute | reflexivity | by_compute |].
    destruct (Hgood eq_refl) as (w' & Hrun & Hempty & Hlater & _).
    exists w'. split; [exact Hrun|]. split; [exact Hempty|].
    exact (Hlater 2%nat ltac:(simpl; lia)).
  - apply (save_chunks_to_files_aborts [py "ab"] [0xD800] [py "b"] [0x63; 0]
             {| files := ∅; refused := ∅; log := [] |});
      [by_compute | reflexivity | by_compute | reflexivity].
Defined.

(** ** From the input file to the chunk files *)

(** The chunks of the splitter hold no surrogate. *)
Lemma split_text_into_chunks_clean encoding text k chunks :
  split_text_into_chunks encoding text k = Ok chunks →
  Forall (λ chunk, has_surrogate chunk = false) chunks.
Proof.
  unfold split_text_into_chunks. intros H.
  destruct (result_of (encode_default encoding text)); simpl in H; [|done].
  destruct (token_windows _ k) as [windows|]; simpl in H; [|done].
  apply rmapM_Ok_Forall2 in H.
  induction H as [|w chunk ws cs Hw _ IH]; constructor; [|exact IH].
  unfold decode in Hw. destruct (decode_bytes encoding w); simpl in Hw; [|done].
  by eapply utf8_decode_loop_clean.
Qed.

Lemma read_file_files file_path w w' r :
  read_file file_path w = (w', r) →
  files w' = files w ∧ refused w' = refused w
  ∧ (files w !! file_path = None → r = Fail (FileNotFoundError file_path)).
Proof.
  unfold read_file. destruct (files w !! file_path) as [bs|].
  - destruct (bytes_decode_utf8 Strict bs); intros [= <- <-]; by repeat split.
  - intros [= <- <-]. by repeat split.
Qed.

(** X20. [process_text] and [main] never leave half of the work behind: if
    either raises, no file has been created or changed. In particular a
    missing input file raises [FileNotFoundError], and a failure of the
    tokenizer (an unknown model, a special-token literal in the text, a
    zero [max_tokens]) is raised before anything is written; the write of
    a chunk cannot raise, since the chunks come out of [decode], and a
    prefix that [open] cannot take raises at the first chunk, before any
    file is touched. [main] logs the failure last and raises it again. *)
Theorem process_text_fails_before_writing encoding_for_model args w w' f :
  main encoding_for_model args w = (w', Fail f) →
  files w' = files w ∧ refused w' = refused w
  ∧ last (log w') = Some (Error_failed_to_process f)
  ∧ (files w !! input_file args = None → f = FileNotFoundError (input_file args))
  ∧ ∃ w0, process_text encoding_for_model (input_file args) (output_prefix args)
                       (max_tokens args) (model args) w = (w0, Fail f)
          ∧ files w0 = files w.
Proof.
  unfold main.
  destruct (process_text _ _ _ _ _ w) as [w0 [[]|f0]] eqn:Hprocess; [done|].
  intros [= <- <-].
  assert (Hfiles : files w0 = files w ∧ refused w0 = refused w
                   ∧ (files w !! input_file args = None →
                      f0 = FileNotFoundError (input_file args))).
  { revert Hprocess. unfold process_text.
    destruct (read_file (input_file args) w) as [w1 [text|f1]] eqn:Hread.
    - destruct (read_file_files _ _ _ _ Hread) as (Hf1 & Hr1 & Hmissing).
      destruct (rbind _ _) as [chunks|e] eqn:Hsplit.
      + assert (Hclean : Forall (λ chunk, has_surrogate chunk = false) chunks).
        { destruct (encoding_for_model (model args)) as [encoding|];
            simpl in Hsplit; [|done].
          by eapply split_text_into_chunks_clean. }
        unfold save_chunks_to_files.
        destruct (path_error (output_prefix args)) as [e|] eqn:Hprefix.
        * destruct chunks as [|chunk rest]; [done|].
          rewrite (save_chunks_from_bad_prefix _ e) by done.
          intros [= <- <-]. split; [done|]. split; [done|].
          intros Hnone. by specialize (Hmissing Hnone).
        * destruct (save_chunks_from_spec (output_prefix args) chunks O w1
                      Hprefix Hclean) as (w2 & Hrun & _).
          rewrite Hrun. done.
      + intros [= <- <-]. split; [done|]. split; [done|].
        intros Hnone. by specialize (Hmissing Hnone).
    - destruct (read_file_files _ _ _ _ Hread) as (Hf1 & Hr1 & Hmissing).
      intros [= <- <-]. split; [done|]. split; [done|].
      intros Hnone. specialize (Hmissing Hnone). congruence. }
  destruct Hfiles as (Hf & Hr & Hmissing).
  split; [done|]. split; [done|]. split; [apply last_snoc|].
  split; [done|]. by exists w0.
Qed.

Lemma process_text_fails_before_writing_witness :
  ∃ w', main (λ _, Ok sample_encoding)
             {| input_file := py "in.txt"; output_prefix := py "chunk_";
                max_tokens := 2; model := "gpt-4o" |}
             {| files := {[ py "in.txt" := py "ab<a>" ]}; refused := ∅; log := [] |}
        = (w', Fail (Exn (DisallowedSpecialToken (py "<a>"))))
        ∧ files w' = {[ py "in.txt" := py "ab<a>" ]}.
Proof.
  eexists. split; [vm_compute; reflexivity|].
  refine (proj1 (process_text_fails_before_writing (λ _, Ok sample_encoding)
            {| input_file := py "in.txt"; output_prefix := py "chunk_";
               max_tokens := 2; model := "gpt-4o" |}
            {| files := {[ py "in.txt" := py "ab<a>" ]}; refused := ∅; log := [] |}
            _ (Exn (DisallowedSpecialToken (py "<a>"))) _)).
  vm_compute. reflexivity.
Defined.


